(** * EasyReflectometry: constraint wiring and calculator binding

    A shallow embedding of the sample-side constraint wiring
    ([LayerApm], [LayerAreaPerMolecule], [SurfactantLayer]) and of the
    calculator interface ([Refnx], [InterfaceFactory]), with the properties
    the specification states about them.

    Python objects live in a store addressed by object identity; a method
    that mutates its arguments is a state transformer that may raise.
    Python floats are idealised as rationals: every equality proved below
    is between results of the same computation on the same arguments, so
    no rounding argument is involved. *)

From Stdlib Require Import QArith ZArith Lia List String.
From stdpp Require Import base option list gmap strings.

Local Open Scope string_scope.
Local Open Scope list_scope.

(** ** Exceptions and the state-and-exception monad *)

Inductive exn : Type :=
  | ValueError (msg : string)
  | TypeError (msg : string)
  | KeyError (key : string)
  | AttributeError (attr : string)
  | RangeError
  | ImmutableParameterError
  | CycleError
  | RecursionError
  | DanglingReference.

(** A computation over a mutable state [S]: the state it leaves behind is
    returned also when it raises, as a Python exception undoes nothing. *)
Definition M (S A : Type) : Type := S -> result A exn * S.

Definition ret {S A} (a : A) : M S A := fun s => (Ok a, s).

Definition raise {S A} (e : exn) : M S A := fun s => (Error e, s).

Definition bind {S A B} (m : M S A) (k : A -> M S B) : M S B :=
  fun s =>
    match m s with
    | (Ok a, s') => k a s'
    | (Error e, s') => (Error e, s')
    end.

Declare Scope py_scope.
Delimit Scope py_scope with py.
Notation "x <- m ;; k" := (bind m (fun x => k))
  (at level 100, m at next level, right associativity) : py_scope.
Notation "m ;;; k" := (bind m (fun _ => k))
  (at level 100, right associativity) : py_scope.
Local Open Scope py_scope.

(** [for x in xs: body x] *)
Fixpoint for_each {S A} (xs : list A) (body : A -> M S unit) : M S unit :=
  match xs with
  | [] => ret tt
  | x :: xs' => body x ;;; for_each xs' body
  end.

(** ** Python dictionaries that keep insertion order

    [d[k] = v] replaces the value of an existing key in place and appends a
    new key at the end; iteration follows insertion order. *)

Fixpoint dict_get {A} (k : string) (d : list (string * A)) : option A :=
  match d with
  | [] => None
  | (k', v) :: d' => if String.eqb k' k then Some v else dict_get k d'
  end.

Fixpoint dict_set {A} (k : string) (v : A) (d : list (string * A))
  : list (string * A) :=
  match d with
  | [] => [(k, v)]
  | (k', v') :: d' =>
      if String.eqb k' k then (k', v) :: d' else (k', v') :: dict_set k v d'
  end.

(** ** The parameter and constraint objects *)

Module Core.

(** [min] and [max] of a parameter: a float or plus or minus [np.inf]. *)
Inductive bound : Type :=
  | NegInf
  | Finite (q : Q)
  | PosInf.

(** Modelled from the spec: the [Parameter] class of the imported parameter
    library, which is not part of the sources. Spec, data model: a
    Parameter is "{ value: float, bounds: (min, max), unit: string,
    fixed: bool, enabled: bool, constraints: mapping<name, ConstraintRef> }".
    [user_constraints] is that mapping, in registration order; its values
    are identities of constraint objects. *)
Record parameter : Type := {
  p_name : string;
  raw_value : Q;
  units : string;
  p_min : bound;
  p_max : bound;
  fixed : bool;
  enabled : bool;
  user_constraints : list (string * nat)
}.

(** The callables the sources hand to [FunctionalConstraint]. *)
Inductive func : Type :=
  | apm_to_sld_fn
  | area_per_molecule_to_sld_fn.

(** Modelled from the spec: the two constraint classes of the imported
    library. Spec, data model: a Constraint is "{ dependent: ParameterRef,
    independents: ordered sequence of ParameterRef, rule:
    ObjectMirror(expr) | Functional(pure_fn), enabled: bool }". *)
Inductive rule : Type :=
  | ObjectMirror (operator : string)
  | Functional (fn : func).

Record constraint : Type := {
  dependent : nat;
  independents : list nat;
  c_rule : rule;
  c_enabled : bool
}.

(** The heap: parameter and constraint objects by identity, and the next
    unused identity. *)
Record store : Type := {
  parameters : gmap nat parameter;
  constraints : gmap nat constraint;
  next : nat
}.

Definition empty_store : store :=
  {| parameters := ∅; constraints := ∅; next := 0 |}.

(** What the sample code uses and the sources do not contain. The
    scattering-length table and the two conversion functions are functions
    of this repository outside the excerpt; the expression evaluator, the
    admission of a value by a parameter (its bounds and flags) and the
    interpreter's recursion limit belong to the parameter library and the
    interpreter. The development is parametric in all of them. *)
Class Externals : Type := {
  neutron_scattering_length : string -> Q * Q;
  apm_to_sld : Q -> Q -> Q -> Q;
  area_per_molecule_to_sld : Q -> Q -> Q -> Q;
  eval_operator : string -> Q -> Q;
  admits : bool -> parameter -> Q -> option exn;
  recursion_limit : nat
}.

Definition with_value (v : Q) (p : parameter) : parameter :=
  {| p_name := p_name p; raw_value := v; units := units p;
     p_min := p_min p; p_max := p_max p; fixed := fixed p;
     enabled := enabled p; user_constraints := user_constraints p |}.

Definition with_enabled (b : bool) (p : parameter) : parameter :=
  {| p_name := p_name p; raw_value := raw_value p; units := units p;
     p_min := p_min p; p_max := p_max p; fixed := fixed p;
     enabled := b; user_constraints := user_constraints p |}.

Definition with_fixed (b : bool) (p : parameter) : parameter :=
  {| p_name := p_name p; raw_value := raw_value p; units := units p;
     p_min := p_min p; p_max := p_max p; fixed := b;
     enabled := enabled p; user_constraints := user_constraints p |}.

Definition with_user_constraints (d : list (string * nat)) (p : parameter)
  : parameter :=
  {| p_name := p_name p; raw_value := raw_value p; units := units p;
     p_min := p_min p; p_max := p_max p; fixed := fixed p;
     enabled := enabled p; user_constraints := d |}.

Definition with_c_enabled (b : bool) (c : constraint) : constraint :=
  {| dependent := dependent c; independents := independents c;
     c_rule := c_rule c; c_enabled := b |}.

Definition put_parameter (p : nat) (x : parameter) (st : store) : store :=
  {| parameters := <[p := x]> (parameters st);
     constraints := constraints st; next := next st |}.

Definition put_constraint (c : nat) (x : constraint) (st : store) : store :=
  {| parameters := parameters st;
     constraints := <[c := x]> (constraints st); next := next st |}.

(** The value of parameter [p], if [p] is an object of the store. *)
Definition value_of (st : store) (p : nat) : option Q :=
  raw_value <$> parameters st !! p.

Fixpoint values_of (st : store) (ps : list nat) : option (list Q) :=
  match ps with
  | [] => Some []
  | p :: ps' =>
      match value_of st p, values_of st ps' with
      | Some v, Some vs => Some (v :: vs)
      | _, _ => None
      end
  end.

Section Engine.
Context {ext : Externals}.

Definition call_func (f : func) (args : list Q) : result Q exn :=
  match args with
  | [a; b; c] =>
      match f with
      | apm_to_sld_fn => Ok (apm_to_sld a b c)
      | area_per_molecule_to_sld_fn => Ok (area_per_molecule_to_sld a b c)
      end
  | _ => Error (TypeError "wrong number of arguments")
  end.

(** Modelled from the spec: the value a constraint implies for its
    dependent. Spec, constraint graph engine: "object-mirror: copy,
    optionally transformed; functional: apply rule.fn(*independent_values)".
    The empty operator, the only one the sources pass, is the plain copy. *)
Definition apply_rule (r : rule) (vals : list Q) : result Q exn :=
  match r with
  | ObjectMirror op =>
      match vals with
      | [v] => Ok (if String.eqb op "" then v else eval_operator op v)
      | _ => Error (TypeError "an object constraint has one independent")
      end
  | Functional f => call_func f vals
  end.

(** One constraint of a written parameter: disabled constraints do nothing,
    an enabled one recomputes its dependent from the current values and
    writes it with [setv]. *)
Definition run_constraint (setv : nat -> Q -> store -> result store exn)
    (cid : nat) (st : store) : result store exn :=
  match constraints st !! cid with
  | None => Error DanglingReference
  | Some c =>
      if c_enabled c then
        match values_of st (independents c) with
        | None => Error DanglingReference
        | Some vals =>
            match apply_rule (c_rule c) vals with
            | Ok v => setv (dependent c) v st
            | Error e => Error e
            end
        end
      else Ok st
  end.

Fixpoint run_constraints (setv : nat -> Q -> store -> result store exn)
    (cs : list (string * nat)) (st : store) : result store exn :=
  match cs with
  | [] => Ok st
  | (_, cid) :: cs' =>
      match run_constraint setv cid st with
      | Ok st' => run_constraints setv cs' st'
      | Error e => Error e
      end
  end.

(** Modelled from the spec: the write of a parameter's value. Spec,
    constraint graph engine: "set_value(parameter, new_value) - rejects if
    fixed and not being written by a constraint, clamps/validates against
    bounds, then performs synchronous forward propagation: for every
    enabled constraint for which parameter is an independent, recompute the
    dependent's value [...], and recurse if that dependent itself feeds
    further constraints. Propagation is depth-first in
    constraint-registration order". The rejection is [admits]; [depth]
    bounds the nesting of writes as the interpreter's recursion limit does,
    so a cyclic graph raises instead of looping.

    The constraints of which [p] is an independent are looked up where the
    data model keeps them and where the sources put them, in the
    parameter's own mapping (spec, data model: a Parameter has
    "constraints: mapping<name, ConstraintRef>"; the sources register with
    [p.user_constraints[key] = constraint]), in the order of that mapping.
    A constraint whose entry a later registration under the same key has
    replaced is therefore no longer run from that parameter; the spec's
    sentence does not say which is meant. The statements below about
    writes are made under the registrations they name. *)
Fixpoint propagate (depth : nat) (by_constraint : bool) (p : nat) (v : Q)
    (st : store) : result store exn :=
  match depth with
  | O => Error RecursionError
  | S d =>
      match parameters st !! p with
      | None => Error DanglingReference
      | Some par =>
          match admits by_constraint par v with
          | Some e => Error e
          | None =>
              run_constraints (propagate d true) (user_constraints par)
                (put_parameter p (with_value v par) st)
          end
      end
  end.

(** A failed engine call leaves no trace (spec, error handling: the
    dependent is "left at its pre-propagation value, never at a
    half-updated value"). *)
Definition atomically (f : store -> result store exn) : M store unit :=
  fun st =>
    match f st with
    | Ok st' => (Ok tt, st')
    | Error e => (Error e, st)
    end.

(** [p.value = v] *)
Definition set_value (p : nat) (v : Q) : M store unit :=
  atomically (propagate recursion_limit false p v).

(** [p.raw_value] and [p.value], which differ only in the unit they
    carry. *)
Definition get_value (p : nat) : M store Q :=
  fun st =>
    match value_of st p with
    | Some v => (Ok v, st)
    | None => (Error DanglingReference, st)
    end.

Definition get_parameter (p : nat) : M store parameter :=
  fun st =>
    match parameters st !! p with
    | Some x => (Ok x, st)
    | None => (Error DanglingReference, st)
    end.

Definition get_constraint (c : nat) : M store constraint :=
  fun st =>
    match constraints st !! c with
    | Some x => (Ok x, st)
    | None => (Error DanglingReference, st)
    end.

(** The keyword arguments the sources pass to [Parameter]: the entries of
    a [..._DETAILS] dictionary other than the description, the url and the
    value. *)
Record options : Type := {
  o_units : string;
  o_min : bound;
  o_max : bound;
  o_fixed : bool
}.

(** [Parameter(name, value, **opts)]: a new enabled parameter without
    constraints. *)
Definition new_parameter (name : string) (value : Q) (opts : options)
  : M store nat :=
  fun st =>
    let p := next st in
    (Ok p,
     {| parameters :=
          <[p := {| p_name := name; raw_value := value;
                    units := o_units opts; p_min := o_min opts;
                    p_max := o_max opts; fixed := o_fixed opts;
                    enabled := true; user_constraints := [] |}]>
            (parameters st);
        constraints := constraints st;
        next := S p |}).

(** Whether [target] is reached from [p] along registered constraints,
    from a written parameter to the dependents of its constraints. An
    exhausted depth counts as reached. *)
Fixpoint reaches (depth : nat) (st : store) (target p : nat) : bool :=
  Nat.eqb p target ||
  match depth with
  | O => true
  | S d =>
      match parameters st !! p with
      | None => false
      | Some par =>
          existsb
            (fun kc : string * nat =>
               match constraints st !! snd kc with
               | None => false
               | Some c => reaches d st target (dependent c)
               end)
            (user_constraints par)
      end
  end.

(** Modelled from the spec: the creation of a constraint. Spec, constraint
    graph engine: "cycles are a programming/configuration error and must be
    rejected at constraint-creation time" with a CycleError; a constraint is
    created enabled, as the constraints the layer constructors create
    propagate without being enabled by anyone. *)
Definition new_constraint (dep : nat) (indeps : list nat) (r : rule)
  : M store nat :=
  fun st =>
    if existsb (fun i => reaches recursion_limit st i dep) indeps then
      (Error CycleError, st)
    else
      let c := next st in
      (Ok c,
       {| parameters := parameters st;
          constraints :=
            <[c := {| dependent := dep; independents := indeps;
                      c_rule := r; c_enabled := true |}]> (constraints st);
          next := S c |}).

(** [ObjConstraint(dependent_obj, operator, independent_obj)] *)
Definition ObjConstraint (dependent_obj : nat) (operator : string)
    (independent_obj : nat) : M store nat :=
  new_constraint dependent_obj [independent_obj] (ObjectMirror operator).

(** [FunctionalConstraint(dependent_obj=..., func=...,
    independent_objs=[...])] *)
Definition FunctionalConstraint (dependent_obj : nat) (fn : func)
    (independent_objs : list nat) : M store nat :=
  new_constraint dependent_obj independent_objs (Functional fn).

(** [p.user_constraints[key] = c] *)
Definition set_user_constraint (p : nat) (key : string) (c : nat)
  : M store unit :=
  par <- get_parameter p ;;
  fun st =>
    (Ok tt,
     put_parameter p
       (with_user_constraints (dict_set key c (user_constraints par)) par)
       st).

(** [p.user_constraints[key]], a [KeyError] when the key is missing. *)
Definition get_user_constraint (p : nat) (key : string) : M store nat :=
  par <- get_parameter p ;;
  match dict_get key (user_constraints par) with
  | Some c => ret c
  | None => raise (KeyError key)
  end.

(** [c.enabled] *)
Definition constraint_enabled (c : nat) : M store bool :=
  x <- get_constraint c ;; ret (c_enabled x).

(** Modelled from the spec: [c.enabled = x]. Spec, constraint graph engine:
    "Enabling a constraint immediately pushes the dependent to the value
    implied by current independents; disabling freezes the dependent at its
    last value". Assigning the state the constraint already has changes
    nothing. *)
Definition set_constraint_enabled (c : nat) (x : bool) : M store unit :=
  cur <- get_constraint c ;;
  if Bool.eqb (c_enabled cur) x then ret tt
  else
    atomically (fun st =>
      let st' := put_constraint c (with_c_enabled x cur) st in
      if x then run_constraint (propagate recursion_limit true) c st'
      else Ok st').

(** [p.enabled = x] *)
Definition set_parameter_enabled (p : nat) (x : bool) : M store unit :=
  par <- get_parameter p ;;
  fun st => (Ok tt, put_parameter p (with_enabled x par) st).

(** [p.fixed = x] *)
Definition set_parameter_fixed (p : nat) (x : bool) : M store unit :=
  par <- get_parameter p ;;
  fun st => (Ok tt, put_parameter p (with_fixed x par) st).

End Engine.

(** Whether [v] is at least the lower bound [b], respectively at most the
    upper bound [b]. *)
Definition above (b : bound) (v : Q) : bool :=
  match b with
  | NegInf => true
  | Finite q => Qle_bool q v
  | PosInf => false
  end.

Definition below (b : bound) (v : Q) : bool :=
  match b with
  | NegInf => false
  | Finite q => Qle_bool v q
  | PosInf => true
  end.

(** Modelled from the spec: an admission rule for [admits], after the
    spec's failure modes: "attempting to write a value outside declared
    bounds fails with a RangeError; [...] attempting to write a fixed,
    non-constraint-driven parameter fails with a ImmutableParameterError". *)
Definition spec_admits (by_constraint : bool) (p : parameter) (v : Q)
  : option exn :=
  if fixed p && negb by_constraint then Some ImmutableParameterError
  else if above (p_min p) v && below (p_max p) v then None
  else Some RangeError.

End Core.

Import Core.

(** ** Materials *)

Module Material.

Record t : Type := {
  sld : nat;
  isld : nat;
  name : string
}.

Definition sld_options : options :=
  {| o_units := "1 / angstrom ** 2"; o_min := NegInf; o_max := PosInf;
     o_fixed := true |}.

Section WithExternals.
Context {ext : Externals}.

(** Modelled from the spec: [Material.from_pars(sld, isld, name)], whose
    class is outside the excerpt. Spec, data model: "Material (sld, isld,
    optional solvent fraction for a solvated mixture)": a material owns two
    new parameters holding the two values it is given. *)
Definition from_pars (sld_value isld_value : Q) (name : string)
  : M store t :=
  s <- new_parameter "sld" sld_value sld_options ;;
  i <- new_parameter "isld" isld_value sld_options ;;
  ret {| sld := s; isld := i; name := name |}.

End WithExternals.
End Material.

Module MaterialSolvated.

(** Modelled from the spec: the solvated mixture of a material and a
    solvent, whose class is outside the excerpt. [fraction] is the
    parameter the layers read as their solvation; [instance_dict] holds the
    attributes assigned to the object that are not among the above. *)
Record t : Type := {
  material : Material.t;
  solvent : Material.t;
  fraction : nat;
  name : option string;
  instance_dict : list (string * Q)
}.

(** [MaterialSolvated(material=..., solvent=..., solvation=..., name=...)];
    [name] is [None] when the caller leaves it out. *)
Definition init (material solvent : Material.t) (solvation : nat)
    (name : option string) : t :=
  {| material := material; solvent := solvent; fraction := solvation;
     name := name; instance_dict := [] |}.

(** [m.name = n] *)
Definition with_name (n : option string) (m : t) : t :=
  {| material := material m; solvent := solvent m; fraction := fraction m;
     name := n; instance_dict := instance_dict m |}.

(** What the class, which the excerpt does not contain, makes of the
    attribute name [solvation]: nothing, so that an assignment creates an
    instance attribute, or a property over [fraction]. *)
Inductive solvation_attribute : Type :=
  | plain_attribute
  | property_on_fraction.

Section WithExternals.
Context {ext : Externals}.

(** [m.solvation = x] *)
Definition set_solvation (cls : solvation_attribute) (m : t) (x : Q)
  : M store t :=
  match cls with
  | plain_attribute =>
      ret {| material := material m; solvent := solvent m;
             fraction := fraction m; name := name m;
             instance_dict := dict_set "solvation" x (instance_dict m) |}
  | property_on_fraction => set_value (fraction m) x ;;; ret m
  end.

End WithExternals.
End MaterialSolvated.

(** An entry of a [..._DETAILS] dictionary: the default value and the
    other keyword arguments. *)
Record entry : Type := {
  e_value : Q;
  e_options : options
}.

(** ** layer_apm.py *)

Module LayerApm.

Record details : Type := {
  d_thickness : entry;
  d_molecular_formula : string;
  d_roughness : entry;
  d_area_per_molecule : entry;
  d_solvation : entry;
  d_sl : entry;
  d_isl : entry
}.

Definition LAYERAPM_DETAILS : details :=
  {| d_thickness :=
       {| e_value := 10;
          e_options := {| o_units := "angstrom"; o_min := Finite 0;
                          o_max := PosInf; o_fixed := true |} |};
     d_molecular_formula := "C10H18NO8P";
     d_roughness :=
       {| e_value := 3;
          e_options := {| o_units := "angstrom"; o_min := Finite 0;
                          o_max := PosInf; o_fixed := true |} |};
     d_area_per_molecule :=
       {| e_value := 241 # 5;
          e_options := {| o_units := "angstrom ** 2"; o_min := Finite 0;
                          o_max := PosInf; o_fixed := true |} |};
     d_solvation :=
       {| e_value := 1 # 5;
          e_options := {| o_units := "dimensionless"; o_min := Finite 0;
                          o_max := Finite 1; o_fixed := true |} |};
     d_sl :=
       {| e_value := 2093 # 500;
          e_options := {| o_units := "angstrom"; o_min := NegInf;
                          o_max := PosInf; o_fixed := true |} |};
     d_isl :=
       {| e_value := 0;
          e_options := {| o_units := "angstrom"; o_min := NegInf;
                          o_max := PosInf; o_fixed := true |} |} |}.

Record t : Type := {
  material : MaterialSolvated.t;
  thickness : nat;
  roughness : nat;
  name : string;
  _scattering_length_real : nat;
  _scattering_length_imag : nat;
  _area_per_molecule : nat;
  _molecular_formula : string
}.

(** [self.area_per_molecule] *)
Definition area_per_molecule (self : t) : nat := _area_per_molecule self.

(** [self.solvent] *)
Definition solvent (self : t) : Material.t :=
  MaterialSolvated.solvent (material self).

(** [self.solvation], the getter: [return self.material.fraction] *)
Definition solvation (self : t) : nat :=
  MaterialSolvated.fraction (material self).

Definition with_material (m : MaterialSolvated.t) (self : t) : t :=
  {| material := m; thickness := thickness self;
     roughness := roughness self; name := name self;
     _scattering_length_real := _scattering_length_real self;
     _scattering_length_imag := _scattering_length_imag self;
     _area_per_molecule := _area_per_molecule self;
     _molecular_formula := _molecular_formula self |}.

Section WithExternals.
Context {ext : Externals}.

(** [LayerApm.__init__] *)
Definition init (molecular_formula : string) (thickness : nat)
    (solvent : Material.t) (solvation : nat) (area_per_molecule : nat)
    (roughness : nat) (name : string) : M store t :=
  let scattering_length := neutron_scattering_length molecular_formula in
  scattering_length_real <-
    new_parameter "scattering_length_real" (fst scattering_length)
      (e_options (d_sl LAYERAPM_DETAILS)) ;;
  scattering_length_imag <-
    new_parameter "scattering_length_imag" (snd scattering_length)
      (e_options (d_isl LAYERAPM_DETAILS)) ;;
  sl_re <- get_value scattering_length_real ;;
  sl_im <- get_value scattering_length_imag ;;
  th <- get_value thickness ;;
  apm <- get_value area_per_molecule ;;
  let sld := apm_to_sld sl_re th apm in
  let isld := apm_to_sld sl_im th apm in
  material <- Material.from_pars sld isld molecular_formula ;;
  constraint <-
    FunctionalConstraint (Material.sld material) apm_to_sld_fn
      [scattering_length_real; thickness; area_per_molecule] ;;
  set_user_constraint thickness "apm" constraint ;;;
  set_user_constraint area_per_molecule "apm" constraint ;;;
  set_user_constraint scattering_length_real "apm" constraint ;;;
  iconstraint <-
    FunctionalConstraint (Material.isld material) apm_to_sld_fn
      [scattering_length_imag; thickness; area_per_molecule] ;;
  set_user_constraint thickness "iapm" iconstraint ;;;
  set_user_constraint area_per_molecule "iapm" iconstraint ;;;
  set_user_constraint scattering_length_imag "iapm" iconstraint ;;;
  let solvated_material :=
    MaterialSolvated.init material solvent solvation
      (Some (molecular_formula ++ "/" ++ Material.name solvent)%string) in
  ret {| material := solvated_material;
         thickness := thickness;
         roughness := roughness;
         name := name;
         _scattering_length_real := scattering_length_real;
         _scattering_length_imag := scattering_length_imag;
         _area_per_molecule := area_per_molecule;
         _molecular_formula := molecular_formula |}.

(** [self.solvation = x], the setter: [self.material.solvation = x] *)
Definition set_solvation (cls : MaterialSolvated.solvation_attribute)
    (self : t) (x : Q) : M store t :=
  m <- MaterialSolvated.set_solvation cls (material self) x ;;
  ret (with_material m self).

(** [LayerApm.default] *)
Definition default : M store t :=
  area_per_molecule <-
    new_parameter "area_per_molecule"
      (e_value (d_area_per_molecule LAYERAPM_DETAILS))
      (e_options (d_area_per_molecule LAYERAPM_DETAILS)) ;;
  thickness <-
    new_parameter "thickness" (e_value (d_thickness LAYERAPM_DETAILS))
      (e_options (d_thickness LAYERAPM_DETAILS)) ;;
  roughness <-
    new_parameter "roughness" (e_value (d_roughness LAYERAPM_DETAILS))
      (e_options (d_roughness LAYERAPM_DETAILS)) ;;
  solvent <- Material.from_pars (159 # 25) 0 "D2O" ;;
  solvation <-
    new_parameter "solvation" (e_value (d_solvation LAYERAPM_DETAILS))
      (e_options (d_solvation LAYERAPM_DETAILS)) ;;
  init (d_molecular_formula LAYERAPM_DETAILS) thickness solvent solvation
    area_per_molecule roughness "EasyLayerApm".

(** [LayerApm.from_pars] *)
Definition from_pars (molecular_formula : string) (thickness : Q)
    (solvent : Material.t) (solvation : Q) (area_per_molecule : Q)
    (roughness : Q) (name : string) : M store t :=
  area_per_molecule <-
    new_parameter "area_per_molecule" area_per_molecule
      (e_options (d_area_per_molecule LAYERAPM_DETAILS)) ;;
  thickness <-
    new_parameter "thickness" thickness
      (e_options (d_thickness LAYERAPM_DETAILS)) ;;
  roughness <-
    new_parameter "roughness" roughness
      (e_options (d_roughness LAYERAPM_DETAILS)) ;;
  solvation <-
    new_parameter "solvation" solvation
      (e_options (d_solvation LAYERAPM_DETAILS)) ;;
  init molecular_formula thickness solvent solvation area_per_molecule
    roughness name.

(** [self.molecular_formula], the getter *)
Definition molecular_formula (self : t) : string := _molecular_formula self.

Definition with_molecular_formula (formula_string : string) (self : t) : t :=
  {| material := material self; thickness := thickness self;
     roughness := roughness self; name := name self;
     _scattering_length_real := _scattering_length_real self;
     _scattering_length_imag := _scattering_length_imag self;
     _area_per_molecule := _area_per_molecule self;
     _molecular_formula := formula_string |}.

(** A method that assigns attributes of [self] runs on the object and the
    store. *)
Definition method (A : Type) : Type := M (t * store) A.

Definition self_ : method t := fun s => (Ok (fst s), s).

Definition on_store {A} (m : M store A) : method A :=
  fun s =>
    match m (snd s) with
    | (r, st') => (r, (fst s, st'))
    end.

Definition update (f : t -> t) : method unit :=
  fun s => (Ok tt, (f (fst s), snd s)).

(** [self.molecular_formula = formula_string], the setter. [_material_b]
    reads the attribute of that name of the solvated material, whose class
    is outside the excerpt. *)
Definition set_molecular_formula (_material_b : MaterialSolvated.t -> Material.t)
    (formula_string : string) : method unit :=
  update (with_molecular_formula formula_string) ;;;
  let scattering_length := neutron_scattering_length formula_string in
  self <- self_ ;;
  on_store
    (set_value (_scattering_length_real self) (fst scattering_length)) ;;;
  on_store
    (set_value (_scattering_length_imag self) (snd scattering_length)) ;;;
  self <- self_ ;;
  update
    (with_material
       (MaterialSolvated.with_name
          (Some (formula_string ++ "/"
                 ++ Material.name (_material_b (material self)))%string)
          (material self))).

End WithExternals.
End LayerApm.

(** ** layer_area_per_molecule.py *)

Module LayerAreaPerMolecule.

Record details : Type := {
  d_thickness : entry;
  d_molecular_formula : string;
  d_roughness : entry;
  d_area_per_molecule : entry;
  d_solvation : entry;
  d_coverage : entry;
  d_sl : entry;
  d_isl : entry
}.

Definition LAYER_AREA_PER_MOLECULE_DETAILS : details :=
  {| d_thickness :=
       {| e_value := 10;
          e_options := {| o_units := "angstrom"; o_min := Finite 0;
                          o_max := PosInf; o_fixed := true |} |};
     d_molecular_formula := "C10H18NO8P";
     d_roughness :=
       {| e_value := 3;
          e_options := {| o_units := "angstrom"; o_min := Finite 0;
                          o_max := PosInf; o_fixed := true |} |};
     d_area_per_molecule :=
       {| e_value := 241 # 5;
          e_options := {| o_units := "angstrom ** 2"; o_min := Finite 0;
                          o_max := PosInf; o_fixed := true |} |};
     d_solvation :=
       {| e_value := 1 # 5;
          e_options := {| o_units := "dimensionless"; o_min := Finite 0;
                          o_max := Finite 1; o_fixed := true |} |};
     d_coverage :=
       {| e_value := 4 # 5;
          e_options := {| o_units := "dimensionless"; o_min := Finite 0;
                          o_max := Finite 1; o_fixed := true |} |};
     d_sl :=
       {| e_value := 2093 # 500;
          e_options := {| o_units := "angstrom"; o_min := NegInf;
                          o_max := PosInf; o_fixed := true |} |};
     d_isl :=
       {| e_value := 0;
          e_options := {| o_units := "angstrom"; o_min := NegInf;
                          o_max := PosInf; o_fixed := true |} |} |}.

Record t : Type := {
  material : MaterialSolvated.t;
  thickness : nat;
  roughness : nat;
  name : string;
  _scattering_length_real : nat;
  _scattering_length_imag : nat;
  _area_per_molecule : nat;
  _coverage : nat;
  _molecular_formula : string
}.

(** [self.area_per_molecule] *)
Definition area_per_molecule (self : t) : nat := _area_per_molecule self.

(** [self.solvent] *)
Definition solvent (self : t) : Material.t :=
  MaterialSolvated.solvent (material self).

(** [self.solvation], the getter: [return self.material.fraction] *)
Definition solvation (self : t) : nat :=
  MaterialSolvated.fraction (material self).

(** [self.coverage] *)
Definition coverage (self : t) : nat := _coverage self.

Definition with_material (m : MaterialSolvated.t) (self : t) : t :=
  {| material := m; thickness := thickness self;
     roughness := roughness self; name := name self;
     _scattering_length_real := _scattering_length_real self;
     _scattering_length_imag := _scattering_length_imag self;
     _area_per_molecule := _area_per_molecule self;
     _coverage := _coverage self;
     _molecular_formula := _molecular_formula self |}.

Section WithExternals.
Context {ext : Externals}.

(** [LayerAreaPerMolecule.__init__] *)
Definition init (molecular_formula : string) (thickness : nat)
    (solvent : Material.t) (solvation : nat) (area_per_molecule : nat)
    (roughness : nat) (coverage : nat) (name : string) : M store t :=
  let scattering_length := neutron_scattering_length molecular_formula in
  scattering_length_real <-
    new_parameter "scattering_length_real" (fst scattering_length)
      (e_options (d_sl LAYER_AREA_PER_MOLECULE_DETAILS)) ;;
  scattering_length_imag <-
    new_parameter "scattering_length_imag" (snd scattering_length)
      (e_options (d_isl LAYER_AREA_PER_MOLECULE_DETAILS)) ;;
  sl_re <- get_value scattering_length_real ;;
  sl_im <- get_value scattering_length_imag ;;
  th <- get_value thickness ;;
  apm <- get_value area_per_molecule ;;
  let sld_real := area_per_molecule_to_sld sl_re th apm in
  let sld_imag := area_per_molecule_to_sld sl_im th apm in
  material <- Material.from_pars sld_real sld_imag molecular_formula ;;
  constraint <-
    FunctionalConstraint (Material.sld material)
      area_per_molecule_to_sld_fn
      [scattering_length_real; thickness; area_per_molecule] ;;
  set_user_constraint thickness "area_per_molecule" constraint ;;;
  set_user_constraint area_per_molecule "area_per_molecule" constraint ;;;
  set_user_constraint scattering_length_real "area_per_molecule"
    constraint ;;;
  iconstraint <-
    FunctionalConstraint (Material.isld material)
      area_per_molecule_to_sld_fn
      [scattering_length_imag; thickness; area_per_molecule] ;;
  set_user_constraint thickness "iarea_per_molecule" iconstraint ;;;
  set_user_constraint area_per_molecule "iarea_per_molecule"
    iconstraint ;;;
  set_user_constraint scattering_length_imag "iarea_per_molecule"
    iconstraint ;;;
  let solvated_material :=
    MaterialSolvated.init material solvent solvation None in
  ret {| material := solvated_material;
         thickness := thickness;
         roughness := roughness;
         name := name;
         _scattering_length_real := scattering_length_real;
         _scattering_length_imag := scattering_length_imag;
         _area_per_molecule := area_per_molecule;
         _coverage := coverage;
         _molecular_formula := molecular_formula |}.

(** [self.solvation = x], the setter: [self.material.solvation = x] *)
Definition set_solvation (cls : MaterialSolvated.solvation_attribute)
    (self : t) (x : Q) : M store t :=
  m <- MaterialSolvated.set_solvation cls (material self) x ;;
  ret (with_material m self).

(** [LayerAreaPerMolecule.from_pars] *)
Definition from_pars (molecular_formula : string) (thickness : Q)
    (solvent : Material.t) (solvation : Q) (area_per_molecule : Q)
    (roughness : Q) (coverage : Q) (name : string) : M store t :=
  area_per_molecule <-
    new_parameter "area_per_molecule" area_per_molecule
      (e_options (d_area_per_molecule LAYER_AREA_PER_MOLECULE_DETAILS)) ;;
  thickness <-
    new_parameter "thickness" thickness
      (e_options (d_thickness LAYER_AREA_PER_MOLECULE_DETAILS)) ;;
  roughness <-
    new_parameter "roughness" roughness
      (e_options (d_roughness LAYER_AREA_PER_MOLECULE_DETAILS)) ;;
  solvation <-
    new_parameter "solvation" solvation
      (e_options (d_solvation LAYER_AREA_PER_MOLECULE_DETAILS)) ;;
  coverage <-
    new_parameter "coverage" coverage
      (e_options (d_coverage LAYER_AREA_PER_MOLECULE_DETAILS)) ;;
  init molecular_formula thickness solvent solvation area_per_molecule
    roughness coverage name.

End WithExternals.
End LayerAreaPerMolecule.

(** ** surfactant_layer.py *)

Module SurfactantLayer.

(** The attributes [area_per_molecule] and [roughness] exist only once the
    corresponding setter has run: they are [None] until then. *)
Record t : Type := {
  layer1 : LayerApm.t;
  layer2 : LayerApm.t;
  name : string;
  area_per_molecule : option nat;
  roughness : option nat
}.

(** [hasattr(self, ...)] for these two attributes *)
Definition hasattr (attribute : option nat) : bool :=
  match attribute with
  | Some _ => true
  | None => false
  end.

(** [SurfactantLayer.__init__] *)
Definition init (layer1 layer2 : LayerApm.t) (name : string) : t :=
  {| layer1 := layer1; layer2 := layer2; name := name;
     area_per_molecule := None; roughness := None |}.

(** [self.layers] *)
Definition layers (self : t) : list LayerApm.t := [layer1 self; layer2 self].

(** A method runs on the object and the store. *)
Definition method (A : Type) : Type := M (t * store) A.

Definition self_ : method t := fun s => (Ok (fst s), s).

Definition on_store {A} (m : M store A) : method A :=
  fun s =>
    match m (snd s) with
    | (r, st') => (r, (fst s, st'))
    end.

(** [self._add_component('area_per_molecule', p)] *)
Definition add_area_per_molecule (p : nat) : method unit :=
  fun s =>
    (Ok tt,
     ({| layer1 := layer1 (fst s); layer2 := layer2 (fst s);
         name := name (fst s); area_per_molecule := Some p;
         roughness := roughness (fst s) |}, snd s)).

(** [self._add_component('roughness', p)] *)
Definition add_roughness (p : nat) : method unit :=
  fun s =>
    (Ok tt,
     ({| layer1 := layer1 (fst s); layer2 := layer2 (fst s);
         name := name (fst s);
         area_per_molecule := area_per_molecule (fst s);
         roughness := Some p |}, snd s)).

(** [self.area_per_molecule] *)
Definition self_area_per_molecule : method nat :=
  self <- self_ ;;
  match area_per_molecule self with
  | Some p => ret p
  | None => raise (AttributeError "area_per_molecule")
  end.

(** [self.roughness] *)
Definition self_roughness : method nat :=
  self <- self_ ;;
  match roughness self with
  | Some p => ret p
  | None => raise (AttributeError "roughness")
  end.

Section WithExternals.
Context {ext : Externals}.

(** [SurfactantLayer.from_pars] *)
Definition from_pars
    (layer1_chemical_structure : string) (layer1_thickness : Q)
    (layer1_solvent : Material.t) (layer1_solvation : Q)
    (layer1_area_per_molecule : Q) (layer1_roughness : Q)
    (layer2_chemical_structure : string) (layer2_thickness : Q)
    (layer2_solvent : Material.t) (layer2_solvation : Q)
    (layer2_area_per_molecule : Q) (layer2_roughness : Q)
    (name : string) : M store t :=
  layer1 <-
    LayerApm.from_pars layer1_chemical_structure layer1_thickness
      layer1_solvent layer1_solvation layer1_area_per_molecule
      layer1_roughness (name ++ " Layer 1")%string ;;
  layer2 <-
    LayerApm.from_pars layer2_chemical_structure layer2_thickness
      layer2_solvent layer2_solvation layer2_area_per_molecule
      layer2_roughness (name ++ " Layer 2")%string ;;
  ret (init layer1 layer2 name).

(** [SurfactantLayer.default] *)
Definition default : M store t :=
  d2o <- Material.from_pars (159 # 25) 0 "D2O" ;;
  air <- Material.from_pars 0 0 "Air" ;;
  head <-
    LayerApm.from_pars "C10H18NO8P" 10 d2o (1 # 5) (241 # 5) 3
      "DPPC Head" ;;
  tail <- LayerApm.from_pars "C32D64" 16 air 0 (241 # 5) 3 "DPPC Tail" ;;
  ret (init tail head "DPPC").

(** [self.constrain_apm], the getter. Python's [and] reads the second
    constraint only when the first is enabled. *)
Definition constrain_apm : method bool :=
  self <- self_ ;;
  if hasattr (area_per_molecule self) then
    p <- self_area_per_molecule ;;
    apm1 <- on_store (get_user_constraint p "apm1") ;;
    e1 <- on_store (constraint_enabled apm1) ;;
    if e1 then
      apm2 <- on_store (get_user_constraint p "apm2") ;;
      on_store (constraint_enabled apm2)
    else ret false
  else ret false.

(** [self.constrain_apm = x], the setter *)
Definition set_constrain_apm (x : bool) : method unit :=
  self <- self_ ;;
  (if negb (hasattr (area_per_molecule self)) then
     v <- on_store (get_value (LayerApm.area_per_molecule (layer1 self))) ;;
     area_per_molecule <-
       on_store
         (new_parameter "area_per_molecule" v
            (e_options (LayerApm.d_area_per_molecule
                          LayerApm.LAYERAPM_DETAILS))) ;;
     add_area_per_molecule area_per_molecule ;;;
     v1 <- on_store (get_value (LayerApm.area_per_molecule (layer1 self))) ;;
     on_store (set_value (LayerApm.area_per_molecule (layer2 self)) v1) ;;;
     apm1 <-
       on_store
         (ObjConstraint (LayerApm.area_per_molecule (layer1 self)) ""
            area_per_molecule) ;;
     apm2 <-
       on_store
         (ObjConstraint (LayerApm.area_per_molecule (layer2 self)) ""
            area_per_molecule) ;;
     on_store (set_user_constraint area_per_molecule "apm1" apm1) ;;;
     on_store (set_user_constraint area_per_molecule "apm2" apm2)
   else ret tt) ;;;
  p <- self_area_per_molecule ;;
  apm1 <- on_store (get_user_constraint p "apm1") ;;
  on_store (set_constraint_enabled apm1 x) ;;;
  apm2 <- on_store (get_user_constraint p "apm2") ;;
  on_store (set_constraint_enabled apm2 x) ;;;
  on_store (set_parameter_enabled p x).

(** [self.conformal_roughness], the getter *)
Definition conformal_roughness : method bool :=
  self <- self_ ;;
  if hasattr (roughness self) then
    p <- self_roughness ;;
    roughness1 <- on_store (get_user_constraint p "roughness1") ;;
    e1 <- on_store (constraint_enabled roughness1) ;;
    if e1 then
      roughness2 <- on_store (get_user_constraint p "roughness2") ;;
      on_store (constraint_enabled roughness2)
    else ret false
  else ret false.

(** [self.conformal_roughness = x], the setter *)
Definition set_conformal_roughness (x : bool) : method unit :=
  self <- self_ ;;
  (if negb (hasattr (roughness self)) then
     v <- on_store (get_value (LayerApm.roughness (layer1 self))) ;;
     roughness <-
       on_store
         (new_parameter "roughness" v
            (e_options (LayerApm.d_roughness LayerApm.LAYERAPM_DETAILS))) ;;
     add_roughness roughness ;;;
     v1 <- on_store (get_value (LayerApm.roughness (layer1 self))) ;;
     on_store (set_value (LayerApm.roughness (layer2 self)) v1) ;;;
     roughness1 <-
       on_store (ObjConstraint (LayerApm.roughness (layer1 self)) ""
                   roughness) ;;
     roughness2 <-
       on_store (ObjConstraint (LayerApm.roughness (layer2 self)) ""
                   roughness) ;;
     on_store (set_user_constraint roughness "roughness1" roughness1) ;;;
     on_store (set_user_constraint roughness "roughness2" roughness2)
   else ret tt) ;;;
  p <- self_roughness ;;
  roughness1 <- on_store (get_user_constraint p "roughness1") ;;
  on_store (set_constraint_enabled roughness1 x) ;;;
  roughness2 <- on_store (get_user_constraint p "roughness2") ;;
  on_store (set_constraint_enabled roughness2 x).

(** [self.constrain_solvent_roughness(solvent_roughness)] *)
Definition constrain_solvent_roughness (solvent_roughness : nat)
  : method unit :=
  conformal <- conformal_roughness ;;
  if negb conformal then
    raise (ValueError "Roughness must be conformal to use this function.")
  else
    p <- self_roughness ;;
    v <- on_store (get_value p) ;;
    on_store (set_value solvent_roughness v) ;;;
    rough <- on_store (ObjConstraint solvent_roughness "" p) ;;
    on_store (set_user_constraint p "solvent_roughness" rough).

(** One block of [constain_multiple_contrast]: the parameter of [self] is
    made the dependent of the same parameter of [another_contrast], under
    the key [another_contrast.name]. *)
Definition constrain_to (flag : bool) (mine theirs : nat) (key : string)
  : M store unit :=
  if flag then
    c <- ObjConstraint mine "" theirs ;;
    set_user_constraint theirs key c
  else ret tt.

(** [self.constain_multiple_contrast(another_contrast, ...)] *)
Definition constain_multiple_contrast (self another_contrast : t)
    (layer1_thickness layer2_thickness layer1_area_per_molecule
     layer2_area_per_molecule layer1_fraction layer2_fraction : bool)
  : M store unit :=
  let key := name another_contrast in
  constrain_to layer1_thickness
    (LayerApm.thickness (layer1 self))
    (LayerApm.thickness (layer1 another_contrast)) key ;;;
  constrain_to layer2_thickness
    (LayerApm.thickness (layer2 self))
    (LayerApm.thickness (layer2 another_contrast)) key ;;;
  constrain_to layer1_area_per_molecule
    (LayerApm.area_per_molecule (layer1 self))
    (LayerApm.area_per_molecule (layer1 another_contrast)) key ;;;
  constrain_to layer2_area_per_molecule
    (LayerApm.area_per_molecule (layer2 self))
    (LayerApm.area_per_molecule (layer2 another_contrast)) key ;;;
  constrain_to layer1_fraction
    (MaterialSolvated.fraction (LayerApm.material (layer1 self)))
    (MaterialSolvated.fraction (LayerApm.material (layer1 another_contrast)))
    key ;;;
  constrain_to layer2_fraction
    (MaterialSolvated.fraction (LayerApm.material (layer2 self)))
    (MaterialSolvated.fraction (LayerApm.material (layer2 another_contrast)))
    key.

End WithExternals.
End SurfactantLayer.

(** ** interfaces/refnx.py *)

Module Refnx.

(** The name under which an object is bound in the calculator: the [uid]
    of the object, or a string. *)
Inductive key : Type :=
  | Uid (uid : nat)
  | Str (s : string).

(** The four families of calculator objects, one getter and one setter of
    the calculator for each:
    [get_material_value]/[update_material], [get_layer_value]/[update_layer],
    [get_item_value]/[update_item], [get_model_value]/[update_model]. *)
Inductive family : Type :=
  | material_family
  | layer_family
  | item_family
  | model_family.

(** The calculator wrapper is outside the excerpt: it is represented by
    the calls made to it, oldest first. *)
Inductive call : Type :=
  | reset_storage_call
  | create_material (k : key)
  | create_layer (k : key)
  | create_item (k : key)
  | create_model
  | assign_material_to_layer_call (material_id layer_id : key)
  | add_layer_to_item_call (layer_id item_id : key)
  | remove_layer_from_item_call (layer_id item_id : key)
  | add_item (item_id : key)
  | remove_item (item_id : key)
  | change_item_to_repeating_multi_layer_call (item_id old_id : key)
  | calculate (x_array : list Q)
  | sld_profile_call
  | get_value_call (f : family) (k : key) (backend_attr : string)
  | update_call (f : family) (k : key) (backend_attr : string) (v : Q).

Definition calculator : Type := list call.

(** A call of the calculator is recorded. What the calculator makes of a
    call, and whether it raises, is not in the sources: each call is taken
    to return, and the statements about [create] are about the calls it
    makes and their order. *)
Definition invoke (c : call) : M calculator unit :=
  fun log => (Ok tt, log ++ [c]).

(** The sample objects as [create] sees them. *)
Record Material : Type := { m_uid : nat }.
Record Layer : Type := { l_uid : nat; material : Material }.
Record MultiLayer : Type := { i_uid : nat; layers : list Layer }.
Record Model : Type := { md_uid : nat; structure : list MultiLayer }.

(** [type(model)]: the classes [create] tells apart, and everything else.
    [RepeatingMultiLayer] and [MultiLayer] objects carry the same data. *)
Inductive object : Type :=
  | a_Material (m : Material)
  | a_Layer (l : Layer)
  | a_RepeatingMultiLayer (i : MultiLayer)
  | a_MultiLayer (i : MultiLayer)
  | a_Model (md : Model)
  | another_object.

Definition _material_link : list (string * string) :=
  [("sld", "real"); ("isld", "imag")].

Definition _layer_link : list (string * string) :=
  [("thickness", "thick"); ("roughness", "rough")].

Definition _item_link : list (string * string) :=
  [("repetitions", "repeats")].

Definition _model_link : list (string * string) :=
  [("scale", "scale"); ("background", "bkg"); ("resolution", "dq")].

(** [ItemContainer(link_name, name_conversion, getter_fn, setter_fn)]: the
    getter and the setter are the calculator's accessors of one family. *)
Record ItemContainer : Type := {
  link_name : key;
  name_conversion : list (string * string);
  getter_fn : family;
  setter_fn : family
}.

(** Modelled from the spec: the read and the write through a binding, of
    the imported interface library. Spec, calculator binding layer:
    "translate the abstract attribute name through the entity's name_map
    and delegate to the backend getter/setter"; "translating an attribute
    absent from name_map fails with a UnknownAttributeError". Both return
    the calculator call they make. *)
Definition convert_key (c : ItemContainer) (lookup_key : string)
  : option string :=
  dict_get lookup_key (name_conversion c).

Definition read (c : ItemContainer) (abstract_attr : string)
  : result call exn :=
  match convert_key c abstract_attr with
  | Some a => Ok (get_value_call (getter_fn c) (link_name c) a)
  | None => Error (AttributeError abstract_attr)
  end.

Definition write (c : ItemContainer) (abstract_attr : string) (v : Q)
  : result call exn :=
  match convert_key c abstract_attr with
  | Some a => Ok (update_call (setter_fn c) (link_name c) a v)
  | None => Error (AttributeError abstract_attr)
  end.

(** [Refnx.reset_storage] *)
Definition reset_storage : M calculator unit := invoke reset_storage_call.

(** [Refnx.assign_material_to_layer] *)
Definition assign_material_to_layer (material_id layer_id : key)
  : M calculator unit :=
  invoke (assign_material_to_layer_call material_id layer_id).

(** [Refnx.add_layer_to_item] *)
Definition add_layer_to_item (layer_id item_id : key) : M calculator unit :=
  invoke (add_layer_to_item_call layer_id item_id).

(** [Refnx.remove_layer_from_item] *)
Definition remove_layer_from_item (layer_id item_id : key)
  : M calculator unit :=
  invoke (remove_layer_from_item_call layer_id item_id).

(** [Refnx.add_item_to_model] *)
Definition add_item_to_model (item_id : key) : M calculator unit :=
  invoke (add_item item_id).

(** [Refnx.remove_item_from_model] *)
Definition remove_item_from_model (item_id : key) : M calculator unit :=
  invoke (remove_item item_id).

(** [Refnx.change_item_to_repeating_multi_layer] *)
Definition change_item_to_repeating_multi_layer (item_id old_id : key)
  : M calculator unit :=
  invoke (change_item_to_repeating_multi_layer_call item_id old_id).

(** [Refnx.create]: the containers of [r_list], in the order of the
    [append]s. *)
Definition create (model : object) : M calculator (list ItemContainer) :=
  match model with
  | a_Material m =>
      let key := Uid (m_uid m) in
      invoke (create_material key) ;;;
      ret [ {| link_name := key; name_conversion := _material_link;
               getter_fn := material_family;
               setter_fn := material_family |} ]
  | a_Layer l =>
      let key := Uid (l_uid l) in
      invoke (create_layer key) ;;;
      assign_material_to_layer (Uid (m_uid (material l))) key ;;;
      ret [ {| link_name := key; name_conversion := _layer_link;
               getter_fn := layer_family; setter_fn := layer_family |} ]
  | a_RepeatingMultiLayer i
  | a_MultiLayer i =>
      let key := Uid (i_uid i) in
      invoke (create_item key) ;;;
      for_each (layers i)
        (fun l => add_layer_to_item (Uid (l_uid l)) (Uid (i_uid i))) ;;;
      ret [ {| link_name := key; name_conversion := _item_link;
               getter_fn := item_family; setter_fn := item_family |} ]
  | a_Model md =>
      invoke create_model ;;;
      for_each (structure md)
        (fun i => add_item_to_model (Uid (i_uid i))) ;;;
      ret [ {| link_name := Str "model"; name_conversion := _model_link;
               getter_fn := model_family; setter_fn := model_family |} ]
  | another_object => ret []
  end.

Section WithCalculator.
(** What the calculator answers, given the calls made to it so far. *)
Variable calculator_calculate : calculator -> list Q -> list Q.
Variable calculator_sld_profile : calculator -> list Q * list Q.

(** [Refnx.fit_func(self, x_array)]; [args] are the positional arguments of
    the call after [self]. *)
Definition fit_func (args : list (list Q)) : M calculator (list Q) :=
  match args with
  | [x_array] =>
      fun log => (Ok (calculator_calculate log x_array),
                  log ++ [calculate x_array])
  | _ => raise (TypeError "fit_func() takes 2 positional arguments")
  end.

(** [Refnx.sld_profile(self)]: the method has no parameter besides [self],
    and a call that passes one raises [TypeError]. *)
Definition sld_profile (args : list key) : M calculator (list Q * list Q) :=
  match args with
  | [] =>
      fun log => (Ok (calculator_sld_profile log), log ++ [sld_profile_call])
  | _ => raise (TypeError "sld_profile() takes 1 positional argument")
  end.

End WithCalculator.
End Refnx.

(** ** interface.py *)

Module InterfaceFactory.

(** An interface, as far as the factory uses it: what it makes of a call of
    [reset_storage] and of [sld_profile] with the given positional
    arguments, over a backend state [B] of its own. The interfaces the
    factory is built over are those of [EasyReflectometry.interfaces],
    which is outside the sources. *)
Record InterfaceTemplate (B : Type) : Type := {
  i_name : string;
  i_reset_storage : M B unit;
  i_sld_profile : list string -> M B (list Q * list Q)
}.

Arguments i_name {B}.
Arguments i_reset_storage {B}.
Arguments i_sld_profile {B}.

(** [InterfaceFactory.reset_storage]: [return self().reset_storage()],
    where [self()] is the current interface [current]. *)
Definition reset_storage {B} (current : InterfaceTemplate B) : M B unit :=
  i_reset_storage current.

(** [InterfaceFactory.sld_profile]:
    [return self().sld_profile(model_id)] *)
Definition sld_profile {B} (current : InterfaceTemplate B)
    (model_id : string) : M B (list Q * list Q) :=
  i_sld_profile current [model_id].

End InterfaceFactory.

(** ** The calculator's bookkeeping, read off the calls *)

Module Backend.
Import Refnx.

Global Instance key_eq_dec : EqDecision key.
Proof. solve_decision. Defined.

Fixpoint remove_first (k : key) (ks : list key) : list key :=
  match ks with
  | [] => []
  | k' :: ks' => if decide (k' = k) then ks' else k' :: remove_first k ks'
  end.

(** Modelled from the spec: the layers the calculator holds for an item,
    of the calculator wrapper, which is outside the excerpt. Spec, external
    interfaces: [create_item(uid)], [add_layer_to_item(layer_uid,
    item_uid)], [remove_layer_from_item(layer_uid, item_uid)],
    [reset_storage()]; "insertion order is semantically significant"; an
    added layer that is removed again "restores the backend's reported
    layer order". A created item starts empty and an added layer goes
    last. *)
Definition item_step (item : key) (held : list key) (c : call) : list key :=
  match c with
  | reset_storage_call => []
  | create_item k => if decide (k = item) then [] else held
  | add_layer_to_item_call l k =>
      if decide (k = item) then held ++ [l] else held
  | remove_layer_from_item_call l k =>
      if decide (k = item) then remove_first l held else held
  | _ => held
  end.

Definition item_layers (item : key) (log : calculator) : list key :=
  fold_left (item_step item) log [].

(** Modelled from the spec: the items the calculator holds for its model,
    in the same way: [create_model()], [add_item(item_uid)],
    [remove_item(item_uid)]. *)
Definition model_step (held : list key) (c : call) : list key :=
  match c with
  | reset_storage_call => []
  | create_model => []
  | add_item k => held ++ [k]
  | remove_item k => remove_first k held
  | _ => held
  end.

Definition model_items (log : calculator) : list key :=
  fold_left model_step log [].

End Backend.

(** ** Collaborators for the examples *)

Module Examples.

(** Modelled from the spec: [apm_to_sld], a function of this repository
    outside the excerpt. Spec, testable properties: the material's sld is
    "scattering_length_real(formula) / (thickness * area_per_molecule)". *)
Definition spec_apm_to_sld (scattering_length thickness area_per_molecule : Q)
  : Q :=
  scattering_length / (thickness * area_per_molecule).

(** A scattering-length table for the examples: boron has an imaginary
    part, the other formulas have none. *)
Definition scattering_lengths (formula : string) : Q * Q :=
  if String.eqb formula "B" then ((53 # 1000)%Q, (-213 # 100000)%Q)
  else if String.eqb formula "C32D64" then ((32 # 5)%Q, 0%Q)
  else ((3 # 5)%Q, 0%Q).

Definition externals : Externals :=
  {| neutron_scattering_length := scattering_lengths;
     apm_to_sld := spec_apm_to_sld;
     area_per_molecule_to_sld := spec_apm_to_sld;
     eval_operator := fun _ v => v;
     admits := spec_admits;
     recursion_limit := 1000 |}.

#[local] Existing Instance externals.

(** Parameters a caller may write: not fixed. *)
Definition free (unit : string) (hi : bound) : options :=
  {| o_units := unit; o_min := Finite 0; o_max := hi; o_fixed := false |}.

(** A [LayerApm] built, as a caller of [LayerApm.__init__] does, from
    parameters of its own. *)
Definition layer (formula : string) (thickness area_per_molecule : Q)
  : M store LayerApm.t :=
  th <- new_parameter "thickness" thickness
          (free "angstrom" PosInf) ;;
  ap <- new_parameter "area_per_molecule"
          area_per_molecule (free "angstrom ** 2" PosInf) ;;
  ro <- new_parameter "roughness" 3
          (free "angstrom" PosInf) ;;
  so <- new_parameter "solvation" (1 # 5)
          (free "dimensionless" (Finite 1)) ;;
  d2o <- Material.from_pars (159 # 25) 0 "D2O" ;;
  LayerApm.init formula th d2o so ap ro "layer".

(** A boron layer, 10 thick with 30 per molecule, in an empty store: the
    object [layer] returns and the store it leaves. *)
Definition boron : LayerApm.t :=
  {| LayerApm.material :=
       {| MaterialSolvated.material :=
            {| Material.sld := 8; Material.isld := 9; Material.name := "B" |};
          MaterialSolvated.solvent :=
            {| Material.sld := 4; Material.isld := 5;
               Material.name := "D2O" |};
          MaterialSolvated.fraction := 3;
          MaterialSolvated.name := Some "B/D2O";
          MaterialSolvated.instance_dict := [] |};
     LayerApm.thickness := 0;
     LayerApm.roughness := 2;
     LayerApm.name := "layer";
     LayerApm._scattering_length_real := 6;
     LayerApm._scattering_length_imag := 7;
     LayerApm._area_per_molecule := 1;
     LayerApm._molecular_formula := "B" |}.

Definition boron_store : store := snd (layer "B" 10 30 empty_store).

(** A tail layer, 16 thick with 48 per molecule, built after the boron
    layer. *)
Definition tail : LayerApm.t :=
  {| LayerApm.material :=
       {| MaterialSolvated.material :=
            {| Material.sld := 20; Material.isld := 21;
               Material.name := "C32D64" |};
          MaterialSolvated.solvent :=
            {| Material.sld := 16; Material.isld := 17;
               Material.name := "D2O" |};
          MaterialSolvated.fraction := 15;
          MaterialSolvated.name := Some "C32D64/D2O";
          MaterialSolvated.instance_dict := [] |};
     LayerApm.thickness := 12;
     LayerApm.roughness := 14;
     LayerApm.name := "layer";
     LayerApm._scattering_length_real := 18;
     LayerApm._scattering_length_imag := 19;
     LayerApm._area_per_molecule := 13;
     LayerApm._molecular_formula := "C32D64" |}.

(** The surfactant of the two layers and the store that holds it. *)
Definition surfactant : M store SurfactantLayer.t :=
  l1 <- layer "B" 10 30 ;;
  l2 <- layer "C32D64" 16 48 ;;
  ret (SurfactantLayer.init l1 l2 "DPPC").

Definition dppc : SurfactantLayer.t := SurfactantLayer.init boron tail "DPPC".

Definition dppc_store : store := snd (surfactant empty_store).

(** The surfactant and the store after [dppc.constrain_apm = True]: the
    shared parameter is object 24. *)
Definition dppc_constrained : SurfactantLayer.t * store :=
  snd (SurfactantLayer.set_constrain_apm true (dppc, dppc_store)).

(** The surfactant and the store after [dppc.constrain_apm = False]
    instead, after [layer1.area_per_molecule.value = 60] on top of that,
    and after [dppc.constrain_apm = True] on top of both. *)
Definition dppc_unconstrained : SurfactantLayer.t * store :=
  snd (SurfactantLayer.set_constrain_apm false (dppc, dppc_store)).

Definition dppc_diverged : store :=
  snd (set_value (LayerApm.area_per_molecule boron) 60
         (snd dppc_unconstrained)).

Definition dppc_reconstrained : SurfactantLayer.t * store :=
  snd (SurfactantLayer.set_constrain_apm true
         (fst dppc_unconstrained, dppc_diverged)).

(** A second surfactant built after the first, with
    [constrain_apm = True] and its shared parameter released, and the
    store after [dppc.constain_multiple_contrast(other)]. *)
Definition other : SurfactantLayer.t :=
  match fst (surfactant dppc_store) with
  | Ok s => s
  | Error _ => dppc
  end.

Definition other_constrained : SurfactantLayer.t * store :=
  snd (SurfactantLayer.set_constrain_apm true
         (other, snd (surfactant dppc_store))).

Definition other_shared : nat :=
  default 0 (SurfactantLayer.area_per_molecule (fst other_constrained)).

Definition crossed : store :=
  snd (SurfactantLayer.constain_multiple_contrast dppc
         (fst other_constrained) true true true true true true
         (snd (set_parameter_fixed other_shared false
                 (snd other_constrained)))).

(** The same after [dppc.area_per_molecule.fixed = False], which lets a
    caller write the shared parameter. *)
Definition dppc_released : store :=
  snd (set_parameter_fixed 24 false (snd dppc_constrained)).

(** The surfactant and the store after [dppc.conformal_roughness = True]:
    the shared roughness is object 24. Then the store after
    [dppc.roughness.fixed = False], a solvent roughness of its own in it,
    object 27, and the store after
    [dppc.constrain_solvent_roughness(solvent_roughness)]. *)
Definition dppc_conformal : SurfactantLayer.t * store :=
  snd (SurfactantLayer.set_conformal_roughness true (dppc, dppc_store)).

Definition dppc_conformal_released : store :=
  snd (set_parameter_fixed 24 false (snd dppc_conformal)).

Definition with_solvent_roughness : store :=
  snd (new_parameter "roughness" 5 (free "angstrom" PosInf)
         dppc_conformal_released).

Definition dppc_solvent_constrained : store :=
  snd (snd (SurfactantLayer.constrain_solvent_roughness 27
              (fst dppc_conformal, with_solvent_roughness))).

(** The boron layer once a caller may write its two scattering lengths,
    objects 6 and 7. *)
Definition boron_released : store :=
  snd (set_parameter_fixed 7 false
         (snd (set_parameter_fixed 6 false boron_store))).

(** The store of the boron layer with one more area per molecule, object
    12, for a second layer over the thickness of the first. *)
Definition boron_with_area : store :=
  snd (new_parameter "area_per_molecule" 40 (free "angstrom ** 2" PosInf)
         boron_store).

(** The store with the two surfactants [dppc] and [other], the store after
    [dppc.constain_multiple_contrast(other, True, False, False, False,
    False, False)], whose new constraint is object 48, and a third
    surfactant built after that. *)
Definition two_contrasts : store := snd (surfactant dppc_store).

Definition thickness_linked : store :=
  snd (SurfactantLayer.constain_multiple_contrast dppc other
         true false false false false false two_contrasts).

Definition third : SurfactantLayer.t :=
  match fst (surfactant thickness_linked) with
  | Ok s => s
  | Error _ => dppc
  end.

Definition three_contrasts : store := snd (surfactant thickness_linked).

End Examples.

(** * Vocabulary of the statements *)

Module RefnxSpec.
Import Refnx.

(** The object a calculator call reads or writes, if it is a read or a
    write. *)
Definition addressed (c : call) : option key :=
  match c with
  | get_value_call _ k _ => Some k
  | update_call _ k _ _ => Some k
  | _ => None
  end.

(** [model.uid] of the objects [create] knows. *)
Definition uid_of (model : object) : option nat :=
  match model with
  | a_Material m => Some (m_uid m)
  | a_Layer l => Some (l_uid l)
  | a_RepeatingMultiLayer i | a_MultiLayer i => Some (i_uid i)
  | a_Model md => Some (md_uid md)
  | another_object => None
  end.

Definition is_Model (model : object) : bool :=
  match model with a_Model _ => true | _ => false end.

(** The name [create] binds an object under. *)
Definition bound_under (model : object) (k : key) : Prop :=
  if is_Model model then k = Str "model"
  else exists uid, uid_of model = Some uid /\ k = Uid uid.

(** What [create] asks of the calculator for an item and for a model: the
    call that creates the calculator object, then one registration per
    child, in the order of the children. *)
Definition item_calls (i : MultiLayer) : list call :=
  create_item (Uid (i_uid i))
  :: map (fun l => add_layer_to_item_call (Uid (l_uid l)) (Uid (i_uid i)))
       (layers i).

Definition model_calls (md : Model) : list call :=
  create_model :: map (fun i => add_item (Uid (i_uid i))) (structure md).

End RefnxSpec.

Module Wiring.

(** The registered constraints of a parameter. *)
Definition constraints_of (st : store) (p : nat)
  : option (list (string * nat)) :=
  user_constraints <$> parameters st !! p.

(** The store in which the value of [p] is [v] and nothing else differs. *)
Definition assign (p : nat) (v : Q) (st : store) : store :=
  match parameters st !! p with
  | Some par => put_parameter p (with_value v par) st
  | None => st
  end.

(** The value of [p], zero if [p] is no parameter of the store. *)
Definition val (st : store) (p : nat) : Q := default 0%Q (value_of st p).

(** Identities are handed out in increasing order: every object of the
    store is older than [next]. *)
Definition well_formed (st : store) : Prop :=
  map_Forall (fun k _ => k < next st) (parameters st)
  /\ map_Forall (fun k _ => k < next st) (constraints st).

(** The parameters of a layer defined by an area per molecule: the two
    scattering lengths, the thickness, the area per molecule, and the sld
    and isld of its material. *)
Record layer_parameters : Type := {
  sl_re : nat;
  sl_im : nat;
  th : nat;
  apm : nat;
  m_sld : nat;
  m_isld : nat
}.

Definition of_LayerApm (l : LayerApm.t) : layer_parameters :=
  {| sl_re := LayerApm._scattering_length_real l;
     sl_im := LayerApm._scattering_length_imag l;
     th := LayerApm.thickness l;
     apm := LayerApm.area_per_molecule l;
     m_sld := Material.sld (MaterialSolvated.material (LayerApm.material l));
     m_isld :=
       Material.isld (MaterialSolvated.material (LayerApm.material l)) |}.

Definition of_LayerAreaPerMolecule (l : LayerAreaPerMolecule.t)
  : layer_parameters :=
  {| sl_re := LayerAreaPerMolecule._scattering_length_real l;
     sl_im := LayerAreaPerMolecule._scattering_length_imag l;
     th := LayerAreaPerMolecule.thickness l;
     apm := LayerAreaPerMolecule.area_per_molecule l;
     m_sld :=
       Material.sld
         (MaterialSolvated.material (LayerAreaPerMolecule.material l));
     m_isld :=
       Material.isld
         (MaterialSolvated.material (LayerAreaPerMolecule.material l)) |}.

Definition functional (dep : nat) (fn : func) (indeps : list nat)
  : constraint :=
  {| dependent := dep; independents := indeps; c_rule := Functional fn;
     c_enabled := true |}.

Definition mirror (dep indep : nat) (on : bool) : constraint :=
  {| dependent := dep; independents := [indep]; c_rule := ObjectMirror "";
     c_enabled := on |}.

(** The wiring a layer constructor leaves behind on parameters of its own:
    the sld constraint is registered under [key] on the real scattering
    length, the thickness and the area per molecule, the isld constraint
    under [ikey] on the imaginary scattering length, the thickness and the
    area per molecule; sld and isld carry no constraint; the six
    parameters are distinct objects. *)
Definition wired (st : store) (key ikey : string) (fn : func)
    (l : layer_parameters) : Prop :=
  exists c ic,
    constraints_of st (sl_re l) = Some [(key, c)]
    /\ constraints_of st (sl_im l) = Some [(ikey, ic)]
    /\ constraints_of st (th l) = Some [(key, c); (ikey, ic)]
    /\ constraints_of st (apm l) = Some [(key, c); (ikey, ic)]
    /\ constraints_of st (m_sld l) = Some []
    /\ constraints_of st (m_isld l) = Some []
    /\ constraints st !! c
       = Some (functional (m_sld l) fn [sl_re l; th l; apm l])
    /\ constraints st !! ic
       = Some (functional (m_isld l) fn [sl_im l; th l; apm l])
    /\ NoDup [sl_re l; sl_im l; th l; apm l; m_sld l; m_isld l].

(** The six parameters of a layer. *)
Definition ids (l : layer_parameters) : list nat :=
  [sl_re l; sl_im l; th l; apm l; m_sld l; m_isld l].

(** The store in which parameter [p] is enabled or not, as [b] says, and
    nothing else differs. *)
Definition flag (p : nat) (b : bool) (st : store) : store :=
  match parameters st !! p with
  | Some par => put_parameter p (with_enabled b par) st
  | None => st
  end.

(** The store in which constraint [c] is enabled or not, as [b] says, and
    nothing else differs. *)
Definition switch (c : nat) (b : bool) (st : store) : store :=
  match constraints st !! c with
  | Some x => put_constraint c (with_c_enabled b x) st
  | None => st
  end.

(** The wiring [constrain_apm] leaves behind: the shared parameter [sp]
    carries, under the keys apm1 and apm2, two mirror constraints whose
    dependents are the areas per molecule [a1] and [a2] of the two layers,
    both enabled or both disabled, as [on] says. *)
Definition linked (st : store) (sp a1 a2 : nat) (on : bool) : Prop :=
  exists c1 c2,
    constraints_of st sp = Some [("apm1", c1); ("apm2", c2)]
    /\ constraints st !! c1 = Some (mirror a1 sp on)
    /\ constraints st !! c2 = Some (mirror a2 sp on)
    /\ c1 <> c2.

Definition layer1_of (s : SurfactantLayer.t) : layer_parameters :=
  of_LayerApm (SurfactantLayer.layer1 s).

Definition layer2_of (s : SurfactantLayer.t) : layer_parameters :=
  of_LayerApm (SurfactantLayer.layer2 s).

(** A surfactant of two wired layers with parameters of their own. *)
Definition assembled (st : store) (s : SurfactantLayer.t) : Prop :=
  wired st "apm" "iapm" apm_to_sld_fn (layer1_of s)
  /\ wired st "apm" "iapm" apm_to_sld_fn (layer2_of s)
  /\ NoDup (ids (layer1_of s) ++ ids (layer2_of s)).

(** The same once [constrain_apm] has been assigned: the attribute
    [area_per_molecule] is the shared parameter [sp], a parameter of its
    own, linked to the two layers. *)
Definition constrained (st : store) (s : SurfactantLayer.t) (sp : nat)
    (on : bool) : Prop :=
  SurfactantLayer.area_per_molecule s = Some sp
  /\ linked st sp (apm (layer1_of s)) (apm (layer2_of s)) on
  /\ assembled st s
  /\ sp ∉ ids (layer1_of s) ++ ids (layer2_of s).

(** The surfactant once its attribute [area_per_molecule] is [sp]. *)
Definition sharing (sp : nat) (s : SurfactantLayer.t) : SurfactantLayer.t :=
  {| SurfactantLayer.layer1 := SurfactantLayer.layer1 s;
     SurfactantLayer.layer2 := SurfactantLayer.layer2 s;
     SurfactantLayer.name := SurfactantLayer.name s;
     SurfactantLayer.area_per_molecule := Some sp;
     SurfactantLayer.roughness := SurfactantLayer.roughness s |}.

(** The parameters a write of the shared parameter reaches. *)
Definition reached (s : SurfactantLayer.t) (sp : nat) : list nat :=
  [sp; apm (layer1_of s); m_sld (layer1_of s); m_isld (layer1_of s);
   apm (layer2_of s); m_sld (layer2_of s); m_isld (layer2_of s)].

Section WithExternals.
Context {ext : Externals}.

(** The function a [func] names. *)
Definition denote (fn : func) : Q -> Q -> Q -> Q :=
  match fn with
  | apm_to_sld_fn => apm_to_sld
  | area_per_molecule_to_sld_fn => area_per_molecule_to_sld
  end.

(** The parameter admits the value [v], written by the caller
    ([by_constraint = false]) or by a constraint. *)
Definition admitted (st : store) (by_constraint : bool) (p : nat) (v : Q)
  : Prop :=
  exists par,
    parameters st !! p = Some par /\ admits by_constraint par v = None.

(** The parameter admits whatever a constraint computes for it. *)
Definition lenient (st : store) (p : nat) : Prop :=
  exists par,
    parameters st !! p = Some par /\ forall w, admits true par w = None.

(** The sld, respectively the isld, of the material is the function [fn]
    of the scattering length, the thickness and the area per molecule. *)
Definition sld_follows (st : store) (fn : func) (l : layer_parameters)
  : Prop :=
  exists s t a,
    value_of st (sl_re l) = Some s /\ value_of st (th l) = Some t
    /\ value_of st (apm l) = Some a
    /\ value_of st (m_sld l) = Some (denote fn s t a).

Definition isld_follows (st : store) (fn : func) (l : layer_parameters)
  : Prop :=
  exists s t a,
    value_of st (sl_im l) = Some s /\ value_of st (th l) = Some t
    /\ value_of st (apm l) = Some a
    /\ value_of st (m_isld l) = Some (denote fn s t a).

(** The values the two constraints of a layer compute in a store. *)
Definition sld_in (st : store) (fn : func) (l : layer_parameters) : Q :=
  denote fn (val st (sl_re l)) (val st (th l)) (val st (apm l)).

Definition isld_in (st : store) (fn : func) (l : layer_parameters) : Q :=
  denote fn (val st (sl_im l)) (val st (th l)) (val st (apm l)).

(** The store after a write of [v] into the area per molecule of a
    [LayerApm]: the sld and the isld of its material are recomputed. *)
Definition after_apm (l : layer_parameters) (v : Q) (st : store) : store :=
  assign (m_isld l) (isld_in (assign (apm l) v st) apm_to_sld_fn l)
    (assign (m_sld l) (sld_in (assign (apm l) v st) apm_to_sld_fn l)
       (assign (apm l) v st)).

(** What a layer holds in [st'] once [v] has been pushed into its area
    per molecule in [st]: the area per molecule is [v], and the sld and the
    isld of the material are [apm_to_sld] of the real, respectively the
    imaginary, scattering length and the thickness of [st], and [v]. *)
Definition pushed (st st' : store) (l : layer_parameters) (v : Q) : Prop :=
  value_of st' (apm l) = Some v
  /\ value_of st' (m_sld l)
     = Some (apm_to_sld (val st (sl_re l)) (val st (th l)) v)
  /\ value_of st' (m_isld l)
     = Some (apm_to_sld (val st (sl_im l)) (val st (th l)) v).

End WithExternals.
End Wiring.

Module Sharing.
Import Wiring.

(** A parameter without constraints. *)
Definition leaf (st : store) (p : nat) : Prop := constraints_of st p = Some [].

(** The store after [v] has been written into each of [ps], in order. *)
Definition assign_all (ps : list nat) (v : Q) (st : store) : store :=
  fold_left (fun st' p => assign p v st') ps st.

(** One mirror constraint of a shared parameter: the key it is registered
    under, its dependent and whether it is enabled. *)
Record link : Type := {
  lk_key : string;
  lk_dep : nat;
  lk_on : bool
}.

(** The shared parameter [sp] carries exactly the mirror constraints
    [links], in this order; they are distinct objects, and their dependents
    are distinct parameters without constraints, other than [sp]. *)
Definition fanned (st : store) (sp : nat) (links : list link) : Prop :=
  exists cs : list nat,
    constraints_of st sp = Some (zip (map lk_key links) cs)
    /\ Forall2
         (fun c l =>
            constraints st !! c = Some (mirror (lk_dep l) sp (lk_on l)))
         cs links
    /\ NoDup cs
    /\ NoDup (sp :: map lk_dep links)
    /\ Forall (fun l => leaf st (lk_dep l)) links.

(** The dependents of the enabled links. *)
Definition live (links : list link) : list nat :=
  map lk_dep (List.filter lk_on links).

(** The two links [conformal_roughness] creates and the one
    [constrain_solvent_roughness] adds. *)
Definition roughness_links (s : SurfactantLayer.t) (on1 on2 : bool)
  : list link :=
  [ {| lk_key := "roughness1";
       lk_dep := LayerApm.roughness (SurfactantLayer.layer1 s);
       lk_on := on1 |};
    {| lk_key := "roughness2";
       lk_dep := LayerApm.roughness (SurfactantLayer.layer2 s);
       lk_on := on2 |} ].

Definition solvent_link (solvent_roughness : nat) (on : bool) : link :=
  {| lk_key := "solvent_roughness"; lk_dep := solvent_roughness;
     lk_on := on |}.

(** The surfactant once its attribute [roughness] is [sp]. *)
Definition with_roughness (sp : nat) (s : SurfactantLayer.t)
  : SurfactantLayer.t :=
  {| SurfactantLayer.layer1 := SurfactantLayer.layer1 s;
     SurfactantLayer.layer2 := SurfactantLayer.layer2 s;
     SurfactantLayer.name := SurfactantLayer.name s;
     SurfactantLayer.area_per_molecule :=
       SurfactantLayer.area_per_molecule s;
     SurfactantLayer.roughness := Some sp |}.

End Sharing.

Module Contrast.
Import Wiring.

(** The six parameters of a surfactant that [constain_multiple_contrast]
    deals with, in the order of its blocks. *)
Definition structural (s : SurfactantLayer.t) : list nat :=
  [ LayerApm.thickness (SurfactantLayer.layer1 s);
    LayerApm.thickness (SurfactantLayer.layer2 s);
    LayerApm.area_per_molecule (SurfactantLayer.layer1 s);
    LayerApm.area_per_molecule (SurfactantLayer.layer2 s);
    MaterialSolvated.fraction (LayerApm.material (SurfactantLayer.layer1 s));
    MaterialSolvated.fraction (LayerApm.material (SurfactantLayer.layer2 s)) ].

(** Between [st] and [st'] nothing happened but registrations on the
    parameters [targets]: every parameter is the same object but for its
    [user_constraints], which may differ on [targets] only; the constraint
    objects of [st] are unchanged, and no identity is handed out twice. *)
Definition only_registers (targets : list nat) (st st' : store) : Prop :=
  (forall q,
     with_user_constraints [] <$> parameters st' !! q
     = with_user_constraints [] <$> parameters st !! q)
  /\ (forall q, q ∉ targets -> parameters st' !! q = parameters st !! q)
  /\ (forall c, c < next st -> constraints st' !! c = constraints st !! c)
  /\ next st <= next st'.

(** A wired layer whose thickness carries, after the two constraints of
    the layer, the constraint [cx] under the key [k]. *)
Definition followed (st : store) (key ikey : string) (fn : func)
    (l : layer_parameters) (k : string) (cx : nat) : Prop :=
  exists c ic,
    constraints_of st (sl_re l) = Some [(key, c)]
    /\ constraints_of st (sl_im l) = Some [(ikey, ic)]
    /\ constraints_of st (th l) = Some [(key, c); (ikey, ic); (k, cx)]
    /\ constraints_of st (apm l) = Some [(key, c); (ikey, ic)]
    /\ constraints_of st (m_sld l) = Some []
    /\ constraints_of st (m_isld l) = Some []
    /\ constraints st !! c
       = Some (functional (m_sld l) fn [sl_re l; th l; apm l])
    /\ constraints st !! ic
       = Some (functional (m_isld l) fn [sl_im l; th l; apm l])
    /\ NoDup [sl_re l; sl_im l; th l; apm l; m_sld l; m_isld l].

Section WithExternals.
Context {ext : Externals}.

(** The store after a write of [v] into the thickness of a layer: the sld
    and the isld of its material are recomputed. *)
Definition after_thickness (fn : func) (l : layer_parameters) (v : Q)
    (st : store) : store :=
  assign (m_isld l) (isld_in (assign (th l) v st) fn l)
    (assign (m_sld l) (sld_in (assign (th l) v st) fn l)
       (assign (th l) v st)).

End WithExternals.
End Contrast.
(** * Properties *)

Ltac distinct H :=
  repeat match type of H with
         | NoDup (_ :: _) =>
             let Hn := fresh "Hn" in
             apply NoDup_cons in H as [Hn H];
             rewrite ?not_elem_of_cons in Hn
         end.


(** ** The calculator interface *)

Section RefnxProperties.
Import Refnx RefnxSpec.

Lemma dict_get_cons {A} (k k' : string) (v : A) (d : list (string * A)) :
  dict_get k ((k', v) :: d) = if String.eqb k' k then Some v else dict_get k d.
Proof. reflexivity. Qed.

(** A dictionary literal, read back: the entries of [d] with distinct keys
    are exactly its key-value pairs. *)
Lemma dict_get_In {A} (d : list (string * A)) (k : string) (v : A) :
  NoDup (map fst d) -> (dict_get k d = Some v <-> In (k, v) d).
Proof.
  induction d as [|[k' v'] d IH]; intros Hnd.
  - simpl. split; [discriminate | tauto].
  - apply NoDup_cons in Hnd as [Hk' Hnd]. rewrite dict_get_cons.
    destruct (String.eqb_spec k' k) as [->|Hne].
    + split.
      * intros [= ->]. now left.
      * intros [[= ->]|Hin]; [reflexivity|].
        exfalso. apply Hk'. apply list_elem_of_In.
        apply (in_map fst) in Hin. exact Hin.
    + rewrite (IH Hnd). split.
      * intros Hin. now right.
      * intros [[= -> ->]|Hin]; [congruence | exact Hin].
Qed.

Lemma for_each_invoke {A} (f : A -> call) (xs : list A) (log : calculator) :
  for_each xs (fun x => invoke (f x)) log = (Ok tt, log ++ map f xs).
Proof.
  revert log. induction xs as [|x xs IH]; intros log; simpl.
  - unfold ret. now rewrite app_nil_r.
  - unfold bind, invoke at 1. rewrite IH. now rewrite <- app_assoc.
Qed.

(** C8: the translation tables of the refnx interface are exactly
    Material {sld -> real, isld -> imag}, Layer {thickness -> thick,
    roughness -> rough}, item {repetitions -> repeats} and Model
    {scale -> scale, background -> bkg, resolution -> dq}: an abstract name
    translates to a backend name exactly when the pair is one of these. *)
Theorem refnx_translation_tables (a b : string) :
  (dict_get a _material_link = Some b
     <-> (a, b) = ("sld", "real") \/ (a, b) = ("isld", "imag"))
  /\ (dict_get a _layer_link = Some b
        <-> (a, b) = ("thickness", "thick")
            \/ (a, b) = ("roughness", "rough"))
  /\ (dict_get a _item_link = Some b
        <-> (a, b) = ("repetitions", "repeats"))
  /\ (dict_get a _model_link = Some b
        <-> (a, b) = ("scale", "scale") \/ (a, b) = ("background", "bkg")
            \/ (a, b) = ("resolution", "dq")).
Proof.
  repeat split; intros H;
    try (apply dict_get_In in H;
         [ simpl in H; intuition congruence
         | repeat constructor; rewrite ?list_elem_of_In; simpl;
           intuition discriminate ]);
    try (apply dict_get_In;
         [ repeat constructor; rewrite ?list_elem_of_In; simpl;
           intuition discriminate
         | simpl; intuition congruence ]).
Qed.

(** C2, counterexample: the container returned for a Model of uid 7 carries
    the string 'model', which is not the uid. *)
Lemma model_container_key_is_not_its_uid :
  let md := {| md_uid := 7; structure := [] |} in
  exists c,
    fst (create (a_Model md) []) = Ok [c]
    /\ link_name c = Str "model"
    /\ link_name c <> Uid (md_uid md).
Proof.
  simpl. eexists. split; [reflexivity|]. split; [reflexivity|discriminate].
Qed.

Lemma create_item_run (i : MultiLayer) (log : calculator) :
  create (a_MultiLayer i) log
  = (Ok [ {| link_name := Uid (i_uid i); name_conversion := _item_link;
             getter_fn := item_family; setter_fn := item_family |} ],
     log ++ item_calls i).
Proof.
  unfold create, bind, add_layer_to_item. simpl.
  rewrite (for_each_invoke
             (fun l => add_layer_to_item_call (Uid (l_uid l)) (Uid (i_uid i)))).
  unfold ret, item_calls. now rewrite <- app_assoc.
Qed.

Lemma create_model_run (md : Model) (log : calculator) :
  create (a_Model md) log
  = (Ok [ {| link_name := Str "model"; name_conversion := _model_link;
             getter_fn := model_family; setter_fn := model_family |} ],
     log ++ model_calls md).
Proof.
  unfold create, bind, add_item_to_model. simpl.
  rewrite (for_each_invoke (fun i => add_item (Uid (i_uid i)))).
  unfold ret, model_calls. now rewrite <- app_assoc.
Qed.

(** C2, amended: [create] returns, for a Material, a Layer, a MultiLayer
    and a RepeatingMultiLayer, one container whose key is the uid of the
    object, and for a Model one container whose key is the string 'model';
    every backend read and write made through the container is addressed to
    that key. *)
Theorem create_binds_under_one_key (model : object) (log : calculator) :
  uid_of model <> None ->
  exists c0,
    fst (create model log) = Ok [c0]
    /\ bound_under model (link_name c0)
    /\ (forall attr call,
          read c0 attr = Ok call -> addressed call = Some (link_name c0))
    /\ (forall attr v call,
          write c0 attr v = Ok call -> addressed call = Some (link_name c0)).
Proof.
  intros Hbound.
  assert (Hrw : forall c0 : ItemContainer,
             (forall attr call, read c0 attr = Ok call ->
                addressed call = Some (link_name c0))
             /\ (forall attr v call, write c0 attr v = Ok call ->
                   addressed call = Some (link_name c0))).
  { intros c0. split.
    - intros attr cl. unfold read. destruct (convert_key c0 attr).
      + intros [= <-]. reflexivity.
      + discriminate.
    - intros attr v cl. unfold write. destruct (convert_key c0 attr).
      + intros [= <-]. reflexivity.
      + discriminate. }
  destruct model as [m|l|i|i|md|]; simpl in Hbound; [| | | | |congruence].
  - eexists. split; [reflexivity|]. split; [|apply Hrw].
    unfold bound_under. simpl. eauto.
  - eexists. split; [reflexivity|]. split; [|apply Hrw].
    unfold bound_under. simpl. eauto.
  - change (create (a_RepeatingMultiLayer i)) with (create (a_MultiLayer i)).
    rewrite create_item_run.
    eexists. split; [reflexivity|]. split; [|apply Hrw].
    unfold bound_under. simpl. eauto.
  - rewrite create_item_run.
    eexists. split; [reflexivity|]. split; [|apply Hrw].
    unfold bound_under. simpl. eauto.
  - rewrite create_model_run.
    eexists. split; [reflexivity|]. split; [|apply Hrw].
    unfold bound_under. simpl. eauto.
Qed.

(** C2, witness: a Layer of uid 4 over a Material of uid 3. *)
Lemma create_binds_under_one_key_witness :
  let l := {| l_uid := 4; material := {| m_uid := 3 |} |} in
  exists c0,
    fst (create (a_Layer l) []) = Ok [c0]
    /\ bound_under (a_Layer l) (link_name c0)
    /\ (forall attr call,
          read c0 attr = Ok call -> addressed call = Some (link_name c0))
    /\ (forall attr v call,
          write c0 attr v = Ok call -> addressed call = Some (link_name c0)).
Proof.
  intros l. apply (create_binds_under_one_key (a_Layer l) []).
  simpl. discriminate.
Defined.

Lemma fold_add_layers {A} (f : A -> key) (item : key) (xs : list A)
    (held : list key) :
  fold_left (Backend.item_step item)
    (map (fun x => add_layer_to_item_call (f x) item) xs) held
  = held ++ map f xs.
Proof.
  revert held. induction xs as [|x xs IH]; intros held; simpl.
  - now rewrite app_nil_r.
  - rewrite decide_True by reflexivity. rewrite IH.
    now rewrite <- app_assoc.
Qed.

Lemma fold_add_items {A} (f : A -> key) (xs : list A) (held : list key) :
  fold_left Backend.model_step (map (fun x => add_item (f x)) xs) held
  = held ++ map f xs.
Proof.
  revert held. induction xs as [|x xs IH]; intros held; simpl.
  - now rewrite app_nil_r.
  - rewrite IH. now rewrite <- app_assoc.
Qed.

(** C7: binding a MultiLayer or a RepeatingMultiLayer creates the item and
    then registers its layers one by one in the order of [model.layers];
    binding a Model creates the model and then registers its items in the
    order of [model.structure]; the layers, and the items, the calculator
    then holds are those of the sample, in the same order. *)
Theorem create_registers_children_in_order :
  (forall (i : MultiLayer) (log : calculator),
     snd (create (a_MultiLayer i) log) = log ++ item_calls i
     /\ snd (create (a_RepeatingMultiLayer i) log) = log ++ item_calls i
     /\ Backend.item_layers (Uid (i_uid i)) (log ++ item_calls i)
        = map (fun l => Uid (l_uid l)) (layers i))
  /\ (forall (md : Model) (log : calculator),
        snd (create (a_Model md) log) = log ++ model_calls md
        /\ Backend.model_items (log ++ model_calls md)
           = map (fun i => Uid (i_uid i)) (structure md)).
Proof.
  split.
  - intros i log. split; [|split].
    + now rewrite create_item_run.
    + change (create (a_RepeatingMultiLayer i)) with (create (a_MultiLayer i)).
      now rewrite create_item_run.
    + unfold Backend.item_layers, item_calls. rewrite fold_left_app. simpl.
      rewrite decide_True by reflexivity.
      apply (fold_add_layers (fun l => Uid (l_uid l))).
  - intros md log. split.
    + now rewrite create_model_run.
    + unfold Backend.model_items, model_calls. rewrite fold_left_app. simpl.
      apply (fold_add_items (fun i => Uid (i_uid i))).
Qed.

End RefnxProperties.

(** ** The solvation property of the two layer classes *)

Lemma dict_get_set {A} (k : string) (v : A) (d : list (string * A)) :
  dict_get k (dict_set k v d) = Some v.
Proof.
  induction d as [|[k' v'] d IH]; simpl.
  - now rewrite String.eqb_refl.
  - destruct (String.eqb k' k) eqn:E; simpl; rewrite E; [reflexivity|exact IH].
Qed.

(** C9: in both layer classes the getter of [solvation] returns the
    [fraction] parameter of the material and the setter assigns the
    attribute [solvation] of the material. Where the class of the material
    makes nothing of that name, the assignment lands in an attribute of its
    own: the store is untouched and the getter answers the same parameter
    as before, whatever was written. *)
Theorem solvation_setter_misses_getter {ext : Externals} (st : store)
    (x : Q) :
  (forall self : LayerApm.t,
     LayerApm.solvation self
     = MaterialSolvated.fraction (LayerApm.material self)
     /\ exists self',
         LayerApm.set_solvation MaterialSolvated.plain_attribute self x st
         = (Ok self', st)
         /\ dict_get "solvation"
              (MaterialSolvated.instance_dict (LayerApm.material self'))
            = Some x
         /\ LayerApm.solvation self' = LayerApm.solvation self)
  /\ (forall self : LayerAreaPerMolecule.t,
        LayerAreaPerMolecule.solvation self
        = MaterialSolvated.fraction (LayerAreaPerMolecule.material self)
        /\ exists self',
            LayerAreaPerMolecule.set_solvation
              MaterialSolvated.plain_attribute self x st
            = (Ok self', st)
            /\ dict_get "solvation"
                 (MaterialSolvated.instance_dict
                    (LayerAreaPerMolecule.material self'))
               = Some x
            /\ LayerAreaPerMolecule.solvation self'
               = LayerAreaPerMolecule.solvation self).
Proof.
  split; intros self; (split; [reflexivity|]);
    eexists; (split; [reflexivity|]); simpl;
    (split; [apply dict_get_set|reflexivity]).
Qed.

(** ** The surfactant layer *)

Section SurfactantProperties.
Context {ext : Externals}.
Import SurfactantLayer.

Lemma conformal_roughness_reads (s : t * store) :
  snd (conformal_roughness s) = s.
Proof.
  destruct s as [self st].
  unfold conformal_roughness, self_roughness, bind, self_, on_store,
    get_user_constraint, constraint_enabled, get_parameter, get_constraint,
    ret, raise, bind, hasattr.
  cbn [fst snd].
  repeat (case_match; simplify_eq; cbn [fst snd] in *; try reflexivity).
Qed.

(** C3: called while [conformal_roughness] is not enabled,
    [constrain_solvent_roughness] raises the ValueError that stands for the
    precondition error, and leaves the object and the store as they were:
    no constraint is created and the solvent roughness keeps its value. *)
Theorem constrain_solvent_roughness_needs_conformal (self : t) (st : store)
    (solvent_roughness : nat) :
  fst (conformal_roughness (self, st)) = Ok false ->
  constrain_solvent_roughness solvent_roughness (self, st)
  = (Error (ValueError "Roughness must be conformal to use this function."),
     (self, st)).
Proof.
  intros H. unfold constrain_solvent_roughness, bind.
  pose proof (conformal_roughness_reads (self, st)) as Hs.
  destruct (conformal_roughness (self, st)) as [r s']. simpl in *.
  subst. reflexivity.
Qed.

End SurfactantProperties.

(** ** The constraint engine *)

Section EngineProperties.
Context {ext : Externals}.
Import Wiring.

Lemma value_of_assign (p q : nat) (v : Q) (st : store) :
  value_of (assign p v st) q
  = if decide (q = p) then (fun _ => v) <$> value_of st p else value_of st q.
Proof.
  unfold assign, value_of.
  destruct (parameters st !! p) as [par|] eqn:Hp; simpl.
  - case_decide as Hq.
    + subst q. now rewrite lookup_insert_eq.
    + now rewrite lookup_insert_ne by congruence.
  - case_decide as Hq; [subst q; now rewrite Hp|reflexivity].
Qed.

Lemma value_of_assign_eq (p : nat) (v w : Q) (st : store) :
  value_of st p = Some w -> value_of (assign p v st) p = Some v.
Proof.
  intros H. rewrite value_of_assign, decide_True by reflexivity.
  now rewrite H.
Qed.

Lemma value_of_assign_ne (p q : nat) (v : Q) (st : store) :
  q <> p -> value_of (assign p v st) q = value_of st q.
Proof. intros H. now rewrite value_of_assign, decide_False. Qed.

Lemma parameters_assign_ne (p q : nat) (v : Q) (st : store) :
  q <> p -> parameters (assign p v st) !! q = parameters st !! q.
Proof.
  intros H. unfold assign. destruct (parameters st !! p); [|reflexivity].
  simpl. now rewrite lookup_insert_ne by congruence.
Qed.

Lemma parameters_assign_eq (p : nat) (v : Q) (st : store) :
  parameters (assign p v st) !! p = with_value v <$> parameters st !! p.
Proof.
  unfold assign. destruct (parameters st !! p) as [par|] eqn:Hp; simpl.
  - now rewrite lookup_insert_eq.
  - now rewrite Hp.
Qed.

Lemma constraints_of_assign (p q : nat) (v : Q) (st : store) :
  constraints_of (assign p v st) q = constraints_of st q.
Proof.
  unfold constraints_of. destruct (decide (q = p)) as [->|Hne].
  - rewrite parameters_assign_eq. now destruct (parameters st !! p).
  - now rewrite parameters_assign_ne.
Qed.

Lemma constraints_assign (p : nat) (v : Q) (st : store) :
  constraints (assign p v st) = constraints st.
Proof. unfold assign. now destruct (parameters st !! p). Qed.

Lemma next_assign (p : nat) (v : Q) (st : store) :
  next (assign p v st) = next st.
Proof. unfold assign. now destruct (parameters st !! p). Qed.

Lemma wired_assign (p : nat) (v : Q) (st : store) key ikey fn l :
  wired st key ikey fn l -> wired (assign p v st) key ikey fn l.
Proof.
  intros (c & ic & H). exists c, ic.
  rewrite !constraints_of_assign, constraints_assign. exact H.
Qed.

(** A write into a parameter without constraints changes its value and
    nothing else. *)
Lemma propagate_leaf (d : nat) (b : bool) (q : nat) (v : Q) (st : store)
    (par : parameter) :
  parameters st !! q = Some par ->
  user_constraints par = [] ->
  admits b par v = None ->
  propagate (S d) b q v st = Ok (assign q v st).
Proof.
  intros Hq Hc Ha. simpl. rewrite Hq, Ha, Hc. simpl.
  unfold assign. now rewrite Hq.
Qed.

Lemma constraints_of_Some (st : store) (p : nat) cs :
  constraints_of st p = Some cs ->
  exists par, parameters st !! p = Some par /\ user_constraints par = cs.
Proof.
  unfold constraints_of. destruct (parameters st !! p) as [par|]; simpl.
  - intros [= <-]. now exists par.
  - discriminate.
Qed.

Lemma value_of_val (st : store) (p : nat) cs :
  constraints_of st p = Some cs -> value_of st p = Some (val st p).
Proof.
  intros (par & Hp & _)%constraints_of_Some. unfold val, value_of.
  now rewrite Hp.
Qed.

Lemma val_assign_ne (p q : nat) (v : Q) (st : store) :
  q <> p -> val (assign p v st) q = val st q.
Proof. intros H. unfold val. now rewrite value_of_assign_ne. Qed.

Lemma val_assign_eq (p : nat) (v : Q) (st : store) cs :
  constraints_of st p = Some cs -> val (assign p v st) p = v.
Proof.
  intros H. unfold val.
  now rewrite (value_of_assign_eq _ _ _ _ (value_of_val _ _ _ H)).
Qed.

Lemma lenient_assign_ne (p q : nat) (v : Q) (st : store) :
  q <> p -> lenient st q -> lenient (assign p v st) q.
Proof.
  intros Hne (par & Hq & Ha). exists par.
  now rewrite parameters_assign_ne.
Qed.

Lemma admitted_assign_ne (p q : nat) (v w : Q) (b : bool) (st : store) :
  q <> p -> admitted st b q w -> admitted (assign p v st) b q w.
Proof.
  intros Hne (par & Hq & Ha). exists par.
  now rewrite parameters_assign_ne.
Qed.

(** An enabled functional constraint whose dependent carries no constraint
    writes the value of its function into the dependent. *)
Lemma run_functional_leaf (d c dep i1 i2 i3 : nat) (fn : func) (st : store)
    cs1 cs2 cs3 :
  constraints st !! c = Some (functional dep fn [i1; i2; i3]) ->
  constraints_of st i1 = Some cs1 ->
  constraints_of st i2 = Some cs2 ->
  constraints_of st i3 = Some cs3 ->
  constraints_of st dep = Some [] ->
  lenient st dep ->
  run_constraint (propagate (S d) true) c st
  = Ok (assign dep (denote fn (val st i1) (val st i2) (val st i3)) st).
Proof.
  intros Hc H1 H2 H3 Hdep (par & Hp & Ha).
  unfold run_constraint. rewrite Hc.
  cbn [functional c_enabled independents c_rule dependent values_of].
  rewrite (value_of_val _ _ _ H1), (value_of_val _ _ _ H2),
    (value_of_val _ _ _ H3).
  cbn [apply_rule].
  apply constraints_of_Some in Hdep as (par' & Hp' & Hcs).
  assert (par' = par) by congruence. subst par'.
  assert (Hcall : call_func fn [val st i1; val st i2; val st i3]
                  = Ok (denote fn (val st i1) (val st i2) (val st i3))).
  { now destruct fn. }
  rewrite Hcall. now apply (propagate_leaf _ _ _ _ _ par).
Qed.

(** An enabled mirror constraint whose dependent is written by [setv]
    hands the value of its independent to [setv]. *)
Lemma run_mirror (setv : nat -> Q -> store -> result store exn)
    (c dep indep : nat) (st : store) cs :
  constraints st !! c = Some (mirror dep indep true) ->
  constraints_of st indep = Some cs ->
  run_constraint setv c st = setv dep (val st indep) st.
Proof.
  intros Hc Hi. unfold run_constraint. rewrite Hc. simpl.
  now rewrite (value_of_val _ _ _ Hi).
Qed.

(** A disabled constraint does nothing. *)
Lemma run_disabled (setv : nat -> Q -> store -> result store exn)
    (c : nat) (x : constraint) (st : store) :
  constraints st !! c = Some x -> c_enabled x = false ->
  run_constraint setv c st = Ok st.
Proof. intros Hc He. unfold run_constraint. now rewrite Hc, He. Qed.

Lemma propagate_unfold (d : nat) (b : bool) (p : nat) (v : Q) (st : store)
    (par : parameter) :
  parameters st !! p = Some par ->
  admits b par v = None ->
  propagate (S d) b p v st
  = run_constraints (propagate d true) (user_constraints par)
      (assign p v st).
Proof.
  intros Hp Ha. simpl. rewrite Hp, Ha. unfold assign. now rewrite Hp.
Qed.

(** The write of the thickness or of the area per molecule of a wired
    layer: the sld and the isld of the material are recomputed, in that
    order, and nothing else changes. *)
Lemma write_shared_input (d : nat) (b : bool) (st : store) key ikey fn l
    (p : nat) (v : Q) :
  wired st key ikey fn l ->
  p = th l \/ p = apm l ->
  admitted st b p v ->
  lenient st (m_sld l) ->
  lenient st (m_isld l) ->
  propagate (S (S d)) b p v st
  = Ok (assign (m_isld l) (isld_in (assign p v st) fn l)
          (assign (m_sld l) (sld_in (assign p v st) fn l) (assign p v st))).
Proof.
  intros (c & ic & Hsl & Hsli & Hth & Hapm & Hsld & Hisld & Hc & Hic & Hnd)
    Hp' (par & Hp & Ha) Ls Li.
  distinct Hnd.
  rewrite (propagate_unfold _ _ _ _ _ par Hp Ha).
  assert (Hcs : user_constraints par = [(key, c); (ikey, ic)]).
  { destruct Hp' as [-> | ->];
      [destruct (constraints_of_Some _ _ _ Hth) as (par' & Hq & Hcs)
      |destruct (constraints_of_Some _ _ _ Hapm) as (par' & Hq & Hcs)];
      congruence. }
  rewrite Hcs.
  assert (Hs : m_sld l <> p) by (destruct Hp'; intuition congruence).
  assert (Hi : m_isld l <> p) by (destruct Hp'; intuition congruence).
  set (st1 := assign p v st).
  unfold run_constraints.
  rewrite (run_functional_leaf d c (m_sld l) (sl_re l) (th l) (apm l) fn st1
             [(key, c)] [(key, c); (ikey, ic)] [(key, c); (ikey, ic)]);
    unfold st1; rewrite ?constraints_of_assign, ?constraints_assign;
    try assumption; [|now apply lenient_assign_ne].
  fold st1. fold (sld_in st1 fn l).
  set (st2 := assign (m_sld l) _ st1).
  rewrite (run_functional_leaf d ic (m_isld l) (sl_im l) (th l) (apm l) fn st2
             [(ikey, ic)] [(key, c); (ikey, ic)] [(key, c); (ikey, ic)]);
    unfold st2, st1; rewrite ?constraints_of_assign, ?constraints_assign;
    try assumption;
    [|apply lenient_assign_ne; [intuition congruence|];
      now apply lenient_assign_ne].
  rewrite !(val_assign_ne (m_sld l)) by intuition congruence.
  reflexivity.
Qed.

(** The write of the real scattering length of a wired layer: the sld of
    the material is recomputed and nothing else changes. *)
Lemma write_scattering_length_real (d : nat) (b : bool) (st : store)
    key ikey fn l (v : Q) :
  wired st key ikey fn l ->
  admitted st b (sl_re l) v ->
  lenient st (m_sld l) ->
  propagate (S (S d)) b (sl_re l) v st
  = Ok (assign (m_sld l) (sld_in (assign (sl_re l) v st) fn l)
          (assign (sl_re l) v st)).
Proof.
  intros (c & ic & Hsl & Hsli & Hth & Hapm & Hsld & Hisld & Hc & Hic & Hnd)
    (par & Hp & Ha) Ls.
  distinct Hnd.
  rewrite (propagate_unfold _ _ _ _ _ par Hp Ha).
  destruct (constraints_of_Some _ _ _ Hsl) as (par' & Hq & Hcs).
  assert (par' = par) by congruence. subst par'. rewrite Hcs.
  set (st1 := assign (sl_re l) v st).
  unfold run_constraints.
  rewrite (run_functional_leaf d c (m_sld l) (sl_re l) (th l) (apm l) fn st1
             [(key, c)] [(key, c); (ikey, ic)] [(key, c); (ikey, ic)]);
    unfold st1; rewrite ?constraints_of_assign, ?constraints_assign;
    try assumption;
    [|apply lenient_assign_ne; [intuition congruence|assumption]].
  reflexivity.
Qed.

Lemma sld_in_assign_apm (st : store) key ikey fn l (v : Q) :
  wired st key ikey fn l ->
  sld_in (assign (apm l) v st) fn l
  = denote fn (val st (sl_re l)) (val st (th l)) v
  /\ isld_in (assign (apm l) v st) fn l
     = denote fn (val st (sl_im l)) (val st (th l)) v.
Proof.
  intros (c & ic & Hsl & Hsli & Hth & Hapm & Hsld & Hisld & Hc & Hic & Hnd).
  distinct Hnd. unfold sld_in, isld_in.
  rewrite (val_assign_ne (apm l) (sl_re l)) by intuition congruence.
  rewrite (val_assign_ne (apm l) (sl_im l)) by intuition congruence.
  rewrite (val_assign_ne (apm l) (th l)) by intuition congruence.
  now rewrite (val_assign_eq _ _ _ _ Hapm).
Qed.

(** After any of these writes the sld is again the function of the three
    values. *)
Lemma sld_follows_after (st : store) key ikey fn l (w : Q) :
  wired st key ikey fn l ->
  sld_follows (assign (m_sld l) (sld_in st fn l) st) fn l
  /\ sld_follows
       (assign (m_isld l) w (assign (m_sld l) (sld_in st fn l) st)) fn l.
Proof.
  intros (c & ic & Hsl & Hsli & Hth & Hapm & Hsld & Hisld & Hc & Hic & Hnd).
  distinct Hnd.
  assert (Hs : value_of (assign (m_sld l) (sld_in st fn l) st) (m_sld l)
               = Some (sld_in st fn l)).
  { apply (value_of_assign_eq _ _ (val st (m_sld l))).
    apply (value_of_val _ _ _ Hsld). }
  unfold sld_follows.
  split; exists (val st (sl_re l)), (val st (th l)), (val st (apm l));
    rewrite ?(value_of_assign_ne (m_isld l)) by (intuition congruence);
    rewrite ?(value_of_assign_ne (m_sld l) (sl_re l)) by (intuition congruence);
    rewrite ?(value_of_assign_ne (m_sld l) (th l)) by (intuition congruence);
    rewrite ?(value_of_assign_ne (m_sld l) (apm l)) by (intuition congruence);
    (split; [apply (value_of_val _ _ _ Hsl)|]);
    (split; [apply (value_of_val _ _ _ Hth)|]);
    (split; [apply (value_of_val _ _ _ Hapm)|]); exact Hs.
Qed.

Lemma reaches_leaf (d : nat) (st : store) (target p : nat) :
  constraints_of st p = Some [] -> p <> target ->
  reaches (S d) st target p = false.
Proof.
  intros (par & Hp & Hcs)%constraints_of_Some Hne. simpl.
  rewrite Hp, Hcs. simpl. rewrite orb_false_r. now apply Nat.eqb_neq.
Qed.

(** Running the code one statement at a time. *)
Lemma bind_Ok {S A B} (m : M S A) (k : A -> M S B) (s s' : S) (a : A) :
  m s = (Ok a, s') -> bind m k s = k a s'.
Proof. intros H. unfold bind. now rewrite H. Qed.

Lemma get_value_Ok (p : nat) (v : Q) (st : store) :
  value_of st p = Some v -> get_value p st = (Ok v, st).
Proof. intros H. unfold get_value. now rewrite H. Qed.

Lemma set_user_constraint_Ok (p : nat) (key : string) (c : nat)
    (st : store) (par : parameter) :
  parameters st !! p = Some par ->
  set_user_constraint p key c st
  = (Ok tt,
     put_parameter p
       (with_user_constraints (dict_set key c (user_constraints par)) par)
       st).
Proof.
  intros H. unfold set_user_constraint, bind, get_parameter. now rewrite H.
Qed.

Lemma new_constraint_Ok (dep : nat) (indeps : list nat) (r : rule)
    (st : store) :
  existsb (fun i => reaches recursion_limit st i dep) indeps = false ->
  new_constraint dep indeps r st
  = (Ok (next st),
     {| parameters := parameters st;
        constraints :=
          <[next st := {| dependent := dep; independents := indeps;
                          c_rule := r; c_enabled := true |}]>
            (constraints st);
        next := S (next st) |}).
Proof. intros H. unfold new_constraint. now rewrite H. Qed.

Lemma set_value_Ok (p : nat) (v : Q) (st st' : store) :
  propagate recursion_limit false p v st = Ok st' ->
  set_value p v st = (Ok tt, st').
Proof. intros H. unfold set_value, atomically. now rewrite H. Qed.

End EngineProperties.

Ltac look :=
  unfold value_of, Wiring.constraints_of;
  cbn [parameters constraints next put_parameter put_constraint];
  repeat (rewrite lookup_insert_eq || rewrite lookup_insert_ne by lia).

Ltac tidy :=
  cbn [new_parameter fst snd next parameters constraints put_parameter
       put_constraint raw_value Material.sld Material.isld].

Ltac run_new := erewrite bind_Ok; [|reflexivity]; tidy.

Ltac run_get :=
  erewrite bind_Ok; [|apply get_value_Ok; look; reflexivity]; tidy.

Ltac run_set :=
  erewrite bind_Ok; [|apply set_user_constraint_Ok; look; reflexivity]; tidy.

Ltac run_new_constraint Hd :=
  erewrite bind_Ok;
  [|apply new_constraint_Ok; rewrite Hd; cbn [existsb];
    rewrite !reaches_leaf;
    [reflexivity|try (look; reflexivity); try lia ..]]; tidy.

Ltac run_material :=
  unfold Material.from_pars;
  erewrite bind_Ok; [|do 2 (erewrite bind_Ok; [|reflexivity]); reflexivity];
  tidy.

Ltac layer_fields :=
  unfold Wiring.of_LayerApm, Wiring.of_LayerAreaPerMolecule;
  cbn [Wiring.sl_re Wiring.sl_im Wiring.th Wiring.apm Wiring.m_sld
       Wiring.m_isld
       LayerApm._scattering_length_real LayerApm._scattering_length_imag
       LayerApm.thickness LayerApm.area_per_molecule
       LayerApm._area_per_molecule LayerApm.material
       LayerAreaPerMolecule._scattering_length_real
       LayerAreaPerMolecule._scattering_length_imag
       LayerAreaPerMolecule.thickness LayerAreaPerMolecule.area_per_molecule
       LayerAreaPerMolecule._area_per_molecule LayerAreaPerMolecule.material
       MaterialSolvated.material MaterialSolvated.init
       Material.sld Material.isld].

Ltac all_distinct :=
  repeat (apply NoDup_cons; split;
          [rewrite ?not_elem_of_cons; repeat split; try lia;
           apply not_elem_of_nil|]);
  apply NoDup_nil_2.

Section LayerProperties.
Context {ext : Externals}.
Import Wiring.

(** [LayerApm.from_pars] returns a layer wired as [wired] says, whose sld
    and isld are [apm_to_sld] of the values it was given. *)
Lemma LayerApm_from_pars_wired (formula : string) (thickness : Q)
    (solvent : Material.t) (solvation area_per_molecule roughness : Q)
    (name : string) (st : store) :
  1 <= recursion_limit ->
  exists L st',
    LayerApm.from_pars formula thickness solvent solvation area_per_molecule
      roughness name st = (Ok L, st')
    /\ wired st' "apm" "iapm" apm_to_sld_fn (of_LayerApm L)
    /\ sld_follows st' apm_to_sld_fn (of_LayerApm L)
    /\ isld_follows st' apm_to_sld_fn (of_LayerApm L)
    /\ value_of st' (m_sld (of_LayerApm L))
       = Some (apm_to_sld (fst (neutron_scattering_length formula))
                 thickness area_per_molecule).
Proof.
  intros Hlim. destruct recursion_limit as [|d] eqn:Hd; [lia|].
  unfold LayerApm.from_pars, LayerApm.init.
  do 6 run_new. do 4 run_get. run_material.
  unfold FunctionalConstraint.
  run_new_constraint Hd. do 3 run_set.
  run_new_constraint Hd. do 3 run_set.
  unfold ret. eexists _, _. split; [reflexivity|].
  split; [|split; [|split]].
  - unfold wired. layer_fields. eexists _, _.
    repeat split; try (look; reflexivity). all_distinct.
  - unfold sld_follows. layer_fields. eexists _, _, _.
    repeat split; try (look; reflexivity).
  - unfold isld_follows. layer_fields. eexists _, _, _.
    repeat split; try (look; reflexivity).
  - layer_fields. look. reflexivity.
Qed.

(** The same for [LayerAreaPerMolecule.from_pars], with its own keys and
    its own conversion function. *)
Lemma LayerAreaPerMolecule_from_pars_wired (formula : string)
    (thickness : Q) (solvent : Material.t)
    (solvation area_per_molecule roughness coverage : Q) (name : string)
    (st : store) :
  1 <= recursion_limit ->
  exists L st',
    LayerAreaPerMolecule.from_pars formula thickness solvent solvation
      area_per_molecule roughness coverage name st = (Ok L, st')
    /\ wired st' "area_per_molecule" "iarea_per_molecule"
         area_per_molecule_to_sld_fn (of_LayerAreaPerMolecule L)
    /\ sld_follows st' area_per_molecule_to_sld_fn
         (of_LayerAreaPerMolecule L)
    /\ isld_follows st' area_per_molecule_to_sld_fn
         (of_LayerAreaPerMolecule L)
    /\ value_of st' (m_sld (of_LayerAreaPerMolecule L))
       = Some (area_per_molecule_to_sld
                 (fst (neutron_scattering_length formula))
                 thickness area_per_molecule).
Proof.
  intros Hlim. destruct recursion_limit as [|d] eqn:Hd; [lia|].
  unfold LayerAreaPerMolecule.from_pars, LayerAreaPerMolecule.init.
  do 7 run_new. do 4 run_get. run_material.
  unfold FunctionalConstraint.
  run_new_constraint Hd. do 3 run_set.
  run_new_constraint Hd. do 3 run_set.
  unfold ret. eexists _, _. split; [reflexivity|].
  split; [|split; [|split]].
  - unfold wired. layer_fields. eexists _, _.
    repeat split; try (look; reflexivity). all_distinct.
  - unfold sld_follows. layer_fields. eexists _, _, _.
    repeat split; try (look; reflexivity).
  - unfold isld_follows. layer_fields. eexists _, _, _.
    repeat split; try (look; reflexivity).
  - layer_fields. look. reflexivity.
Qed.

Lemma write_independent key ikey fn l (st : store) (p : nat) (v : Q) :
  2 <= recursion_limit ->
  wired st key ikey fn l ->
  p ∈ [sl_re l; th l; apm l] ->
  admitted st false p v ->
  lenient st (m_sld l) ->
  lenient st (m_isld l) ->
  exists st',
    set_value p v st = (Ok tt, st')
    /\ wired st' key ikey fn l
    /\ sld_follows st' fn l.
Proof.
  intros Hlim Hw Hp Ha Ls Li.
  destruct recursion_limit as [|[|d]] eqn:Hd; [lia..|].
  unfold set_value, atomically. rewrite Hd.
  rewrite !elem_of_cons, elem_of_nil in Hp.
  destruct Hp as [->|[Hp|[Hp|[]]]].
  - rewrite (write_scattering_length_real d false st key ikey fn l v)
      by assumption.
    eexists. split; [reflexivity|]. split.
    + now do 2 apply wired_assign.
    + apply (sld_follows_after _ key ikey _ _ 0%Q). now apply wired_assign.
  - rewrite (write_shared_input d false st key ikey fn l p v) by auto.
    eexists. split; [reflexivity|]. split.
    + now do 3 apply wired_assign.
    + apply (sld_follows_after _ key ikey). now apply wired_assign.
  - rewrite (write_shared_input d false st key ikey fn l p v) by auto.
    eexists. split; [reflexivity|]. split.
    + now do 3 apply wired_assign.
    + apply (sld_follows_after _ key ikey). now apply wired_assign.
Qed.

(** C4, amended: a [LayerApm] built by [from_pars] has a material whose
    sld is [apm_to_sld] of the real scattering length of the formula, the
    thickness and the area per molecule, and a [LayerAreaPerMolecule] one
    whose sld is [area_per_molecule_to_sld] of the same; both are wired as
    [wired] says. On a layer whose six parameters carry that wiring, the
    two constraints of the constructor, enabled, registered under its two
    keys, and nothing else, every write of the real scattering length, of
    the thickness or of the area per molecule that the parameter admits
    returns, provided the sld and the isld admit what a constraint writes;
    it leaves the wiring in place and the sld equal to the function of the
    three current values again. *)
Theorem sld_is_apm_to_sld :
  2 <= recursion_limit ->
  (forall formula thickness solvent solvation area_per_molecule roughness
          name (st : store),
     exists L st',
       LayerApm.from_pars formula thickness solvent solvation
         area_per_molecule roughness name st = (Ok L, st')
       /\ wired st' "apm" "iapm" apm_to_sld_fn (of_LayerApm L)
       /\ sld_follows st' apm_to_sld_fn (of_LayerApm L)
       /\ value_of st' (m_sld (of_LayerApm L))
          = Some (apm_to_sld (fst (neutron_scattering_length formula))
                    thickness area_per_molecule))
  /\ (forall (L : LayerApm.t) (st : store) (p : nat) (v : Q),
        wired st "apm" "iapm" apm_to_sld_fn (of_LayerApm L) ->
        p ∈ [LayerApm._scattering_length_real L; LayerApm.thickness L;
             LayerApm.area_per_molecule L] ->
        admitted st false p v ->
        lenient st (m_sld (of_LayerApm L)) ->
        lenient st (m_isld (of_LayerApm L)) ->
        exists st',
          set_value p v st = (Ok tt, st')
          /\ wired st' "apm" "iapm" apm_to_sld_fn (of_LayerApm L)
          /\ sld_follows st' apm_to_sld_fn (of_LayerApm L))
  /\ (forall formula thickness solvent solvation area_per_molecule
             roughness coverage name (st : store),
        exists L st',
          LayerAreaPerMolecule.from_pars formula thickness solvent solvation
            area_per_molecule roughness coverage name st = (Ok L, st')
          /\ wired st' "area_per_molecule" "iarea_per_molecule"
               area_per_molecule_to_sld_fn (of_LayerAreaPerMolecule L)
          /\ sld_follows st' area_per_molecule_to_sld_fn
               (of_LayerAreaPerMolecule L)
          /\ value_of st' (m_sld (of_LayerAreaPerMolecule L))
             = Some (area_per_molecule_to_sld
                       (fst (neutron_scattering_length formula))
                       thickness area_per_molecule))
  /\ (forall (L : LayerAreaPerMolecule.t) (st : store) (p : nat) (v : Q),
        wired st "area_per_molecule" "iarea_per_molecule"
          area_per_molecule_to_sld_fn (of_LayerAreaPerMolecule L) ->
        p ∈ [LayerAreaPerMolecule._scattering_length_real L;
             LayerAreaPerMolecule.thickness L;
             LayerAreaPerMolecule.area_per_molecule L] ->
        admitted st false p v ->
        lenient st (m_sld (of_LayerAreaPerMolecule L)) ->
        lenient st (m_isld (of_LayerAreaPerMolecule L)) ->
        exists st',
          set_value p v st = (Ok tt, st')
          /\ wired st' "area_per_molecule" "iarea_per_molecule"
               area_per_molecule_to_sld_fn (of_LayerAreaPerMolecule L)
          /\ sld_follows st' area_per_molecule_to_sld_fn
               (of_LayerAreaPerMolecule L)).
Proof.
  intros Hlim. split; [|split; [|split]].
  - intros formula thickness solvent solvation area_per_molecule roughness
      name st.
    destruct (LayerApm_from_pars_wired formula thickness solvent solvation
                area_per_molecule roughness name st)
      as (L & st' & H1 & H2 & H3 & _ & H4); [lia|].
    now exists L, st'.
  - intros L st p v Hw Hp Ha Ls Li.
    now apply (write_independent "apm" "iapm" apm_to_sld_fn (of_LayerApm L)).
  - intros formula thickness solvent solvation area_per_molecule roughness
      coverage name st.
    destruct (LayerAreaPerMolecule_from_pars_wired formula thickness solvent
                solvation area_per_molecule roughness coverage name st)
      as (L & st' & H1 & H2 & H3 & _ & H4); [lia|].
    now exists L, st'.
  - intros L st p v Hw Hp Ha Ls Li.
    now apply (write_independent "area_per_molecule" "iarea_per_molecule"
                 area_per_molecule_to_sld_fn (of_LayerAreaPerMolecule L)).
Qed.

(** C5, amended: on a [LayerApm] whose six parameters carry the wiring of
    the constructor, as [wired] says, a write of the area per molecule that
    the parameter admits returns, provided the sld and the isld admit what
    a constraint writes; it leaves the area per molecule at the written
    value, the sld and the isld of the material at [apm_to_sld] of the
    real, respectively the imaginary, scattering length, the thickness and
    the written value, and every other parameter and every constraint as
    they were. *)
Theorem write_area_per_molecule_updates_sld_and_isld (L : LayerApm.t)
    (st : store) (v : Q) :
  2 <= recursion_limit ->
  wired st "apm" "iapm" apm_to_sld_fn (of_LayerApm L) ->
  admitted st false (LayerApm.area_per_molecule L) v ->
  lenient st (m_sld (of_LayerApm L)) ->
  lenient st (m_isld (of_LayerApm L)) ->
  exists st',
    set_value (LayerApm.area_per_molecule L) v st = (Ok tt, st')
    /\ value_of st' (LayerApm.area_per_molecule L) = Some v
    /\ value_of st' (m_sld (of_LayerApm L))
       = Some (apm_to_sld
                 (val st (LayerApm._scattering_length_real L))
                 (val st (LayerApm.thickness L)) v)
    /\ value_of st' (m_isld (of_LayerApm L))
       = Some (apm_to_sld
                 (val st (LayerApm._scattering_length_imag L))
                 (val st (LayerApm.thickness L)) v)
    /\ (forall q,
          q ∉ [LayerApm.area_per_molecule L; m_sld (of_LayerApm L);
               m_isld (of_LayerApm L)] ->
          parameters st' !! q = parameters st !! q)
    /\ constraints st' = constraints st.
Proof.
  intros Hlim Hw Ha Ls Li.
  destruct recursion_limit as [|[|d]] eqn:Hd; [lia..|].
  unfold set_value, atomically. rewrite Hd.
  set (l := of_LayerApm L) in *.
  change (LayerApm.area_per_molecule L) with (apm l) in *.
  change (LayerApm._scattering_length_real L) with (sl_re l).
  change (LayerApm._scattering_length_imag L) with (sl_im l).
  change (LayerApm.thickness L) with (th l).
  rewrite (write_shared_input d false st "apm" "iapm" apm_to_sld_fn l
             (apm l) v) by auto.
  destruct (sld_in_assign_apm st "apm" "iapm" apm_to_sld_fn l v Hw)
    as [-> ->].
  pose proof Hw as
    (c & ic & Hsl & Hsli & Hth & Hapm & Hsld & Hisld & Hc & Hic & Hnd).
  distinct Hnd.
  eexists. split; [reflexivity|].
  split; [|split; [|split; [|split]]].
  - rewrite !value_of_assign_ne by intuition congruence.
    apply (value_of_assign_eq _ _ _ _ (value_of_val _ _ _ Hapm)).
  - rewrite value_of_assign_ne by intuition congruence.
    apply (value_of_assign_eq _ _ (val st (m_sld l))).
    rewrite value_of_assign_ne by intuition congruence.
    apply (value_of_val _ _ _ Hsld).
  - apply (value_of_assign_eq _ _ (val st (m_isld l))).
    rewrite !value_of_assign_ne by intuition congruence.
    apply (value_of_val _ _ _ Hisld).
  - intros q Hq. rewrite !not_elem_of_cons in Hq.
    rewrite !parameters_assign_ne by intuition congruence. reflexivity.
  - now rewrite !constraints_assign.
Qed.

End LayerProperties.

(** ** The shared area per molecule of a surfactant layer *)

Section SharedParameter.
Context {ext : Externals}.
Import Wiring.

Lemma NoDup_app_inv {A} (xs ys : list A) :
  NoDup (xs ++ ys) ->
  NoDup xs /\ NoDup ys /\ forall x, x ∈ xs -> x ∉ ys.
Proof. intros H. apply NoDup_app in H as (H1 & H2 & H3). auto. Qed.

Lemma wired_after_apm l' l v st key ikey fn :
  wired st key ikey fn l' -> wired (after_apm l v st) key ikey fn l'.
Proof. intros H. unfold after_apm. now do 3 apply wired_assign. Qed.

Lemma value_of_after_apm_ne l v st q :
  q ∉ [apm l; m_sld l; m_isld l] ->
  value_of (after_apm l v st) q = value_of st q.
Proof.
  rewrite !not_elem_of_cons. intros (H1 & H2 & H3 & _). unfold after_apm.
  now rewrite !value_of_assign_ne.
Qed.

Lemma parameters_after_apm_ne l v st q :
  q ∉ [apm l; m_sld l; m_isld l] ->
  parameters (after_apm l v st) !! q = parameters st !! q.
Proof.
  rewrite !not_elem_of_cons. intros (H1 & H2 & H3 & _). unfold after_apm.
  now rewrite !parameters_assign_ne.
Qed.

Lemma constraints_after_apm l v st :
  constraints (after_apm l v st) = constraints st.
Proof. unfold after_apm. now rewrite !constraints_assign. Qed.

Lemma constraints_of_after_apm l v st q :
  constraints_of (after_apm l v st) q = constraints_of st q.
Proof. unfold after_apm. now rewrite !constraints_of_assign. Qed.

Lemma next_after_apm l v st : next (after_apm l v st) = next st.
Proof. unfold after_apm. now rewrite !next_assign. Qed.

Lemma value_of_after_apm_apm l v st key ikey fn :
  wired st key ikey fn l -> value_of (after_apm l v st) (apm l) = Some v.
Proof.
  intros (c & ic & Hsl & Hsli & Hth & Hapm & Hsld & Hisld & Hc & Hic & Hnd).
  distinct Hnd. unfold after_apm.
  rewrite !value_of_assign_ne by (intuition congruence).
  apply (value_of_assign_eq _ _ _ _ (value_of_val _ _ _ Hapm)).
Qed.

Lemma value_of_after_apm_sld l v st key ikey :
  wired st key ikey apm_to_sld_fn l ->
  value_of (after_apm l v st) (m_sld l)
  = Some (apm_to_sld (val st (sl_re l)) (val st (th l)) v).
Proof.
  intros Hw.
  pose proof Hw as
    (c & ic & Hsl & Hsli & Hth & Hapm & Hsld & Hisld & Hc & Hic & Hnd).
  distinct Hnd. unfold after_apm.
  destruct (sld_in_assign_apm st key ikey apm_to_sld_fn l v Hw) as [-> _].
  rewrite value_of_assign_ne by intuition congruence.
  apply (value_of_assign_eq _ _ (val st (m_sld l))).
  rewrite value_of_assign_ne by intuition congruence.
  apply (value_of_val _ _ _ Hsld).
Qed.

Lemma value_of_after_apm_isld l v st key ikey :
  wired st key ikey apm_to_sld_fn l ->
  value_of (after_apm l v st) (m_isld l)
  = Some (apm_to_sld (val st (sl_im l)) (val st (th l)) v).
Proof.
  intros Hw.
  pose proof Hw as
    (c & ic & Hsl & Hsli & Hth & Hapm & Hsld & Hisld & Hc & Hic & Hnd).
  distinct Hnd. unfold after_apm.
  destruct (sld_in_assign_apm st key ikey apm_to_sld_fn l v Hw) as [_ ->].
  apply (value_of_assign_eq _ _ (val st (m_isld l))).
  rewrite !value_of_assign_ne by intuition congruence.
  apply (value_of_val _ _ _ Hisld).
Qed.

Lemma lenient_after_apm l v st q :
  q ∉ [apm l; m_sld l; m_isld l] ->
  lenient st q -> lenient (after_apm l v st) q.
Proof.
  intros Hq (par & Hp & Ha). exists par.
  now rewrite parameters_after_apm_ne.
Qed.

Lemma admitted_after_apm l v st b q w :
  q ∉ [apm l; m_sld l; m_isld l] ->
  admitted st b q w -> admitted (after_apm l v st) b q w.
Proof.
  intros Hq (par & Hp & Ha). exists par.
  now rewrite parameters_after_apm_ne.
Qed.

(** A write into the area per molecule of a wired [LayerApm]. *)
Lemma write_layer_apm (d : nat) (b : bool) (st : store) l (v : Q) :
  wired st "apm" "iapm" apm_to_sld_fn l ->
  admitted st b (apm l) v ->
  lenient st (m_sld l) ->
  lenient st (m_isld l) ->
  propagate (S (S d)) b (apm l) v st = Ok (after_apm l v st).
Proof.
  intros Hw Ha Ls Li.
  now rewrite (write_shared_input d b st "apm" "iapm" apm_to_sld_fn l
                 (apm l) v) by auto.
Qed.

(** The write of the shared parameter of a surfactant whose constraint is
    enabled: the value goes to the shared parameter, then to the first
    layer, then to the second. *)
Lemma write_shared (d : nat) (st : store) (s : SurfactantLayer.t)
    (sp : nat) (v : Q) :
  constrained st s sp true ->
  admitted st false sp v ->
  admitted st true (apm (layer1_of s)) v ->
  admitted st true (apm (layer2_of s)) v ->
  lenient st (m_sld (layer1_of s)) ->
  lenient st (m_isld (layer1_of s)) ->
  lenient st (m_sld (layer2_of s)) ->
  lenient st (m_isld (layer2_of s)) ->
  propagate (S (S (S d))) false sp v st
  = Ok (after_apm (layer2_of s) v
          (after_apm (layer1_of s) v (assign sp v st))).
Proof.
  intros (Hsp & (c1 & c2 & Hcs & Hc1 & Hc2 & Hne) & (W1 & W2 & Hnd) & Hfresh)
    (par & Hp & Ha) A1 A2 L1 L1' L2 L2'.
  set (l1 := layer1_of s) in *. set (l2 := layer2_of s) in *.
  apply NoDup_app_inv in Hnd as (N1 & N2 & N12).
  rewrite not_elem_of_app in Hfresh. destruct Hfresh as [F1 F2].
  unfold ids in *.
  assert (X1 : forall q, q ∈ [apm l1; m_sld l1; m_isld l1] ->
                         q ∈ [sl_re l1; sl_im l1; th l1; apm l1; m_sld l1;
                              m_isld l1]).
  { intros q. rewrite !elem_of_cons. tauto. }
  assert (X2 : forall q, q ∈ [apm l2; m_sld l2; m_isld l2] ->
                         q ∈ [sl_re l2; sl_im l2; th l2; apm l2; m_sld l2;
                              m_isld l2]).
  { intros q. rewrite !elem_of_cons. tauto. }
  assert (Y1 : sp ∉ [apm l1; m_sld l1; m_isld l1]) by (intros ?%X1; auto).
  assert (Y12 : forall q, q ∈ [apm l2; m_sld l2; m_isld l2] ->
                          q ∉ [apm l1; m_sld l1; m_isld l1]).
  { intros q Hq2%X2 Hq1%X1. exact (N12 q Hq1 Hq2). }
  assert (Z2 : forall q, q ∈ [apm l2; m_sld l2; m_isld l2] -> q <> sp).
  { intros q Hq%X2 ->. auto. }
  assert (Z1 : forall q, q ∈ [apm l1; m_sld l1; m_isld l1] -> q <> sp).
  { intros q Hq%X1 ->. auto. }
  assert (E1a : apm l1 ∈ [apm l1; m_sld l1; m_isld l1])
    by (rewrite !elem_of_cons; tauto).
  assert (E1s : m_sld l1 ∈ [apm l1; m_sld l1; m_isld l1])
    by (rewrite !elem_of_cons; tauto).
  assert (E1i : m_isld l1 ∈ [apm l1; m_sld l1; m_isld l1])
    by (rewrite !elem_of_cons; tauto).
  assert (E2a : apm l2 ∈ [apm l2; m_sld l2; m_isld l2])
    by (rewrite !elem_of_cons; tauto).
  assert (E2s : m_sld l2 ∈ [apm l2; m_sld l2; m_isld l2])
    by (rewrite !elem_of_cons; tauto).
  assert (E2i : m_isld l2 ∈ [apm l2; m_sld l2; m_isld l2])
    by (rewrite !elem_of_cons; tauto).
  rewrite (propagate_unfold _ _ _ _ _ par Hp Ha).
  destruct (constraints_of_Some _ _ _ Hcs) as (par' & Hq & Hucs).
  assert (par' = par) by congruence. subst par'. rewrite Hucs.
  set (st1 := assign sp v st).
  assert (Hv1 : val st1 sp = v) by (apply (val_assign_eq _ _ _ _ Hcs)).
  unfold run_constraints.
  rewrite (run_mirror _ c1 (apm l1) sp st1 [("apm1", c1); ("apm2", c2)]);
    [|unfold st1; now rewrite constraints_assign
     |unfold st1; now rewrite constraints_of_assign].
  rewrite Hv1.
  rewrite (write_layer_apm d true st1 l1 v);
    [|now apply wired_assign
     |apply admitted_assign_ne; auto
     |apply lenient_assign_ne; auto
     |apply lenient_assign_ne; auto].
  set (st2 := after_apm l1 v st1).
  assert (Hv2 : val st2 sp = v).
  { unfold val, st2. rewrite value_of_after_apm_ne by exact Y1.
    exact Hv1. }
  rewrite (run_mirror _ c2 (apm l2) sp st2 [("apm1", c1); ("apm2", c2)]);
    [|unfold st2, st1; now rewrite constraints_after_apm, constraints_assign
     |unfold st2, st1;
      now rewrite constraints_of_after_apm, constraints_of_assign].
  rewrite Hv2.
  rewrite (write_layer_apm d true st2 l2 v);
    [reflexivity
    |apply wired_after_apm; now apply wired_assign
    |apply admitted_after_apm; [auto|apply admitted_assign_ne; auto]
    |apply lenient_after_apm; [auto|apply lenient_assign_ne; auto]
    |apply lenient_after_apm; [auto|apply lenient_assign_ne; auto]].
Qed.

(** C1, amended: on a surfactant whose [constrain_apm] is enabled, an
    admitted write of the shared [area_per_molecule] parameter of the
    assembly returns and leaves the shared parameter and the area per
    molecule of both layers at the written value; apart from these and
    from the sld and isld of the two layers' materials, every parameter of
    the store, so every parameter of another assembly, and every constraint
    is as it was. *)
Theorem write_shared_area_per_molecule (st : store)
    (s : SurfactantLayer.t) (sp : nat) (v : Q) :
  3 <= recursion_limit ->
  constrained st s sp true ->
  admitted st false sp v ->
  admitted st true (apm (layer1_of s)) v ->
  admitted st true (apm (layer2_of s)) v ->
  lenient st (m_sld (layer1_of s)) ->
  lenient st (m_isld (layer1_of s)) ->
  lenient st (m_sld (layer2_of s)) ->
  lenient st (m_isld (layer2_of s)) ->
  exists st',
    set_value sp v st = (Ok tt, st')
    /\ value_of st' sp = Some v
    /\ value_of st' (apm (layer1_of s)) = Some v
    /\ value_of st' (apm (layer2_of s)) = Some v
    /\ (forall q, q ∉ reached s sp ->
                  parameters st' !! q = parameters st !! q)
    /\ constraints st' = constraints st.
Proof.
  intros Hlim Hc A0 A1 A2 L1 L1' L2 L2'.
  destruct recursion_limit as [|[|[|d]]] eqn:Hd; [lia..|].
  unfold set_value, atomically. rewrite Hd.
  rewrite (write_shared d st s sp v) by assumption.
  destruct Hc as
    (Hsp & (c1 & c2 & Hcs & Hc1 & Hc2 & Hne) & (W1 & W2 & Hnd) & Hfresh).
  set (l1 := layer1_of s) in *. set (l2 := layer2_of s) in *.
  apply NoDup_app_inv in Hnd as (N1 & N2 & N12).
  rewrite not_elem_of_app in Hfresh. destruct Hfresh as [F1 F2].
  unfold ids in *.
  assert (Y1 : sp ∉ [apm l1; m_sld l1; m_isld l1]).
  { intros H. apply F1. revert H. rewrite !elem_of_cons. tauto. }
  assert (Y2 : sp ∉ [apm l2; m_sld l2; m_isld l2]).
  { intros H. apply F2. revert H. rewrite !elem_of_cons. tauto. }
  assert (Y12 : apm l1 ∉ [apm l2; m_sld l2; m_isld l2]).
  { intros H. apply (N12 (apm l1)).
    - rewrite !elem_of_cons. tauto.
    - revert H. rewrite !elem_of_cons. tauto. }
  eexists. split; [reflexivity|].
  split; [|split; [|split; [|split]]].
  - rewrite !value_of_after_apm_ne by assumption.
    apply (value_of_assign_eq _ _ _ _ (value_of_val _ _ _ Hcs)).
  - rewrite value_of_after_apm_ne by assumption.
    apply (value_of_after_apm_apm _ _ _ "apm" "iapm" apm_to_sld_fn).
    now apply wired_assign.
  - apply (value_of_after_apm_apm _ _ _ "apm" "iapm" apm_to_sld_fn).
    apply wired_after_apm. now apply wired_assign.
  - intros q Hq. unfold reached in Hq. fold l1 l2 in Hq.
    rewrite !not_elem_of_cons in Hq.
    rewrite !parameters_after_apm_ne
      by (rewrite !not_elem_of_cons; intuition).
    apply parameters_assign_ne. intuition.
  - now rewrite !constraints_after_apm, constraints_assign.
Qed.

End SharedParameter.

(** ** The layer of the examples *)

Section BoronLayer.
Import Wiring Examples.
#[local] Existing Instance externals.

Lemma boron_built : fst (layer "B" 10 30 empty_store) = Ok boron.
Proof. vm_compute. reflexivity. Qed.

Lemma boron_wired :
  wired boron_store "apm" "iapm" apm_to_sld_fn (of_LayerApm boron).
Proof.
  exists 10, 11. repeat split; try (vm_compute; reflexivity).
  vm_compute. all_distinct.
Qed.

Lemma boron_admits_60 :
  admitted boron_store false (LayerApm.area_per_molecule boron) 60.
Proof. eexists. split; vm_compute; reflexivity. Qed.

Lemma boron_lenient :
  lenient boron_store (m_sld (of_LayerApm boron))
  /\ lenient boron_store (m_isld (of_LayerApm boron)).
Proof.
  split; (eexists; split; [vm_compute; reflexivity|intros w; reflexivity]).
Qed.

(** C4, counterexample: the caller disables the sld constraint of the
    boron layer, [boron.thickness.user_constraints['apm'].enabled = False],
    and writes 12 into the thickness, which held 10. Both calls return; the
    thickness holds 12 and the sld of the material is not [apm_to_sld] of
    the three current values: it still is that of the thickness 10. *)
Lemma disabled_constraint_leaves_sld_stale :
  exists c st1 st2,
    get_user_constraint (LayerApm.thickness boron) "apm" boron_store
    = (Ok c, boron_store)
    /\ set_constraint_enabled c false boron_store = (Ok tt, st1)
    /\ set_value (LayerApm.thickness boron) 12 st1 = (Ok tt, st2)
    /\ value_of st2 (LayerApm.thickness boron) = Some 12%Q
    /\ (val st2 (m_sld (of_LayerApm boron))
        == apm_to_sld (val st2 (LayerApm._scattering_length_real boron)) 10
             (val st2 (LayerApm.area_per_molecule boron)))%Q
    /\ ~ (val st2 (m_sld (of_LayerApm boron))
          == apm_to_sld (val st2 (LayerApm._scattering_length_real boron))
               (val st2 (LayerApm.thickness boron))
               (val st2 (LayerApm.area_per_molecule boron)))%Q
    /\ ~ sld_follows st2 apm_to_sld_fn (of_LayerApm boron).
Proof.
  eexists _, _, _.
  split; [vm_compute; reflexivity|].
  split; [vm_compute; reflexivity|].
  split; [vm_compute; reflexivity|].
  split; [vm_compute; reflexivity|].
  split; [vm_compute; reflexivity|].
  split.
  - intros H. vm_compute in H. discriminate.
  - intros (s & t & a & H1 & H2 & H3 & H4).
    vm_compute in H1, H2, H3.
    injection H1 as <-. injection H2 as <-. injection H3 as <-.
    vm_compute in H4. discriminate.
Qed.

(** The same write into the area per molecule: with the sld constraint
    disabled, the write of 60 returns and the sld is not [apm_to_sld] of
    the three current values. *)
Lemma disabled_constraint_and_area_per_molecule :
  exists c st1 st2,
    get_user_constraint (LayerApm.area_per_molecule boron) "apm" boron_store
    = (Ok c, boron_store)
    /\ set_constraint_enabled c false boron_store = (Ok tt, st1)
    /\ set_value (LayerApm.area_per_molecule boron) 60 st1 = (Ok tt, st2)
    /\ value_of st2 (LayerApm.area_per_molecule boron) = Some 60%Q
    /\ ~ (val st2 (m_sld (of_LayerApm boron))
          == apm_to_sld (val st2 (LayerApm._scattering_length_real boron))
               (val st2 (LayerApm.thickness boron))
               (val st2 (LayerApm.area_per_molecule boron)))%Q.
Proof.
  eexists _, _, _.
  split; [vm_compute; reflexivity|].
  split; [vm_compute; reflexivity|].
  split; [vm_compute; reflexivity|].
  split; [vm_compute; reflexivity|].
  intros H. vm_compute in H. discriminate.
Qed.

(** C4, witness: the area per molecule of the boron layer is set to 60. *)
Lemma sld_is_apm_to_sld_witness :
  2 <= recursion_limit
  /\ exists st',
       set_value (LayerApm.area_per_molecule boron) 60 boron_store
       = (Ok tt, st')
       /\ wired st' "apm" "iapm" apm_to_sld_fn (of_LayerApm boron)
       /\ sld_follows st' apm_to_sld_fn (of_LayerApm boron).
Proof.
  assert (H : 2 <= recursion_limit) by (simpl; lia).
  split; [exact H|].
  apply (proj1 (proj2 (sld_is_apm_to_sld H))).
  - exact boron_wired.
  - vm_compute. repeat constructor.
  - exact boron_admits_60.
  - exact (proj1 boron_lenient).
  - exact (proj2 boron_lenient).
Defined.

(** C5, counterexample: setting the area per molecule of the boron layer
    from 30 to 60 changes the isld of its material, a parameter other than
    the sld and other than the one written. *)
Lemma area_per_molecule_write_changes_isld :
  exists st',
    set_value (LayerApm.area_per_molecule boron) 60 boron_store
    = (Ok tt, st')
    /\ m_isld (of_LayerApm boron) <> m_sld (of_LayerApm boron)
    /\ m_isld (of_LayerApm boron) <> LayerApm.area_per_molecule boron
    /\ ~ (val st' (m_isld (of_LayerApm boron))
          == val boron_store (m_isld (of_LayerApm boron)))%Q.
Proof.
  eexists. split; [vm_compute; reflexivity|].
  split; [discriminate|]. split; [discriminate|].
  intros H. vm_compute in H. discriminate.
Qed.

(** C5, witness: the same write on the boron layer. *)
Lemma write_area_per_molecule_updates_sld_and_isld_witness :
  exists st',
    set_value (LayerApm.area_per_molecule boron) 60 boron_store
    = (Ok tt, st')
    /\ value_of st' (LayerApm.area_per_molecule boron) = Some 60%Q
    /\ value_of st' (m_sld (of_LayerApm boron))
       = Some (apm_to_sld
                 (val boron_store (LayerApm._scattering_length_real boron))
                 (val boron_store (LayerApm.thickness boron)) 60)
    /\ value_of st' (m_isld (of_LayerApm boron))
       = Some (apm_to_sld
                 (val boron_store (LayerApm._scattering_length_imag boron))
                 (val boron_store (LayerApm.thickness boron)) 60)
    /\ (forall q,
          q ∉ [LayerApm.area_per_molecule boron; m_sld (of_LayerApm boron);
               m_isld (of_LayerApm boron)] ->
          parameters st' !! q = parameters boron_store !! q)
    /\ constraints st' = constraints boron_store.
Proof.
  apply (write_area_per_molecule_updates_sld_and_isld boron boron_store 60).
  - simpl. lia.
  - exact boron_wired.
  - exact boron_admits_60.
  - exact (proj1 boron_lenient).
  - exact (proj2 boron_lenient).
Defined.

End BoronLayer.

(** ** The setter and the getter of [constrain_apm] *)

Section ConstrainApm.
Context {ext : Externals}.
Import Wiring SurfactantLayer.

Lemma wired_agree (st st' : store) key ikey fn l :
  (forall q, q ∈ ids l -> constraints_of st' q = constraints_of st q) ->
  (forall c x, constraints st !! c = Some x -> c_rule x = Functional fn ->
               constraints st' !! c = Some x) ->
  wired st key ikey fn l -> wired st' key ikey fn l.
Proof.
  intros Hp Hc (c & ic & Hsl & Hsli & Hth & Hapm & Hsld & Hisld & H1 & H2
                & Hnd).
  exists c, ic. unfold ids in Hp.
  rewrite !Hp by (rewrite !elem_of_cons; tauto).
  rewrite (Hc _ _ H1 eq_refl), (Hc _ _ H2 eq_refl). auto 10.
Qed.

Lemma admitted_agree (st st' : store) (b : bool) (q : nat) (w : Q) :
  parameters st' !! q = parameters st !! q ->
  admitted st b q w -> admitted st' b q w.
Proof. intros H (par & Hp & Ha). exists par. now rewrite H. Qed.

Lemma lenient_agree (st st' : store) (q : nat) :
  parameters st' !! q = parameters st !! q ->
  lenient st q -> lenient st' q.
Proof. intros H (par & Hp & Ha). exists par. now rewrite H. Qed.

Lemma wired_older (st : store) key ikey fn l :
  well_formed st -> wired st key ikey fn l ->
  forall q, q ∈ ids l -> q < next st.
Proof.
  intros [Hwf _] (c & ic & Hsl & Hsli & Hth & Hapm & Hsld & Hisld & _) q.
  unfold ids. rewrite !elem_of_cons, elem_of_nil.
  intros [->|[->|[->|[->|[->|[->|[]]]]]]];
    match goal with
    | H : constraints_of st ?p = Some _ |- ?p < _ =>
        apply constraints_of_Some in H as (par & Hp & _);
        exact (Hwf _ _ Hp)
    end.
Qed.

(** The area per molecule of a wired layer reaches its sld and its isld
    and nothing else. *)
Lemma reaches_from_apm (d : nat) (st : store) key ikey fn l (target : nat) :
  wired st key ikey fn l ->
  target ∉ [apm l; m_sld l; m_isld l] ->
  reaches (S (S d)) st target (apm l) = false.
Proof.
  intros (c & ic & Hsl & Hsli & Hth & Hapm & Hsld & Hisld & H1 & H2 & Hnd).
  rewrite !not_elem_of_cons. intros (Ta & Ts & Ti & _).
  change (reaches (S (S d)) st target (apm l))
    with (Nat.eqb (apm l) target
          || match parameters st !! apm l with
             | None => false
             | Some par =>
                 existsb
                   (fun kc : string * nat =>
                      match constraints st !! snd kc with
                      | None => false
                      | Some c => reaches (S d) st target (dependent c)
                      end)
                   (user_constraints par)
             end).
  destruct (constraints_of_Some _ _ _ Hapm) as (par & Hp & Hcs).
  rewrite Hp, Hcs. cbn [existsb snd]. rewrite H1, H2.
  cbn [functional dependent].
  rewrite !reaches_leaf by (assumption || congruence).
  rewrite !orb_false_r. apply Nat.eqb_neq. congruence.
Qed.

Lemma on_store_run {A} (m : M store A) (s : t) (st st' : store)
    (r : result A exn) :
  m st = (r, st') -> on_store m (s, st) = (r, (s, st')).
Proof. intros H. unfold on_store. cbn [fst snd]. now rewrite H. Qed.

Lemma get_user_constraint_Ok (p : nat) (key : string) (c : nat)
    (st : store) cs :
  constraints_of st p = Some cs -> dict_get key cs = Some c ->
  get_user_constraint p key st = (Ok c, st).
Proof.
  intros (par & Hp & <-)%constraints_of_Some Hk.
  unfold get_user_constraint, bind, get_parameter. rewrite Hp, Hk.
  reflexivity.
Qed.

Lemma constraint_enabled_Ok (c : nat) (x : constraint) (st : store) :
  constraints st !! c = Some x ->
  constraint_enabled c st = (Ok (c_enabled x), st).
Proof.
  intros H. unfold constraint_enabled, bind, get_constraint. now rewrite H.
Qed.

(** The getter answers the state the two constraints are in. *)
Lemma constrain_apm_reads (st : store) (s : t) (sp : nat) (on : bool) :
  constrained st s sp on -> constrain_apm (s, st) = (Ok on, (s, st)).
Proof.
  intros (Hsp & (c1 & c2 & Hcs & Hc1 & Hc2 & Hne) & _).
  unfold constrain_apm, self_area_per_molecule.
  erewrite bind_Ok; [|reflexivity]. cbn [fst]. rewrite Hsp. cbn [hasattr].
  erewrite bind_Ok;
    [|erewrite bind_Ok; [|reflexivity]; cbn [fst]; rewrite Hsp; reflexivity].
  erewrite bind_Ok;
    [|apply on_store_run;
      apply (get_user_constraint_Ok _ _ c1 _ _ Hcs); reflexivity].
  erewrite bind_Ok;
    [|apply on_store_run; apply (constraint_enabled_Ok _ _ _ Hc1)].
  cbn [mirror c_enabled]. destruct on; [|reflexivity].
  erewrite bind_Ok;
    [|apply on_store_run;
      apply (get_user_constraint_Ok _ _ c2 _ _ Hcs); reflexivity].
  erewrite on_store_run; [|apply (constraint_enabled_Ok _ _ _ Hc2)].
  reflexivity.
Qed.

Lemma parameters_switch (c : nat) (b : bool) (st : store) :
  parameters (switch c b st) = parameters st.
Proof. unfold switch. now destruct (constraints st !! c). Qed.

Lemma next_switch (c : nat) (b : bool) (st : store) :
  next (switch c b st) = next st.
Proof. unfold switch. now destruct (constraints st !! c). Qed.

Lemma constraints_switch_eq (c : nat) (b : bool) (st : store) x :
  constraints st !! c = Some x ->
  constraints (switch c b st) !! c = Some (with_c_enabled b x).
Proof.
  intros H. unfold switch. rewrite H. simpl. apply lookup_insert_eq.
Qed.

Lemma constraints_switch_ne (c c' : nat) (b : bool) (st : store) :
  c' <> c -> constraints (switch c b st) !! c' = constraints st !! c'.
Proof.
  intros H. unfold switch. destruct (constraints st !! c); [|reflexivity].
  simpl. now rewrite lookup_insert_ne by congruence.
Qed.

Lemma constraints_of_switch (c : nat) (b : bool) (st : store) (q : nat) :
  constraints_of (switch c b st) q = constraints_of st q.
Proof. unfold constraints_of. now rewrite parameters_switch. Qed.

Lemma value_of_switch (c : nat) (b : bool) (st : store) (q : nat) :
  value_of (switch c b st) q = value_of st q.
Proof. unfold value_of. now rewrite parameters_switch. Qed.

Lemma wired_switch (c : nat) (b : bool) (st : store) (d i : nat)
    (on : bool) key ikey fn l :
  constraints st !! c = Some (mirror d i on) ->
  wired st key ikey fn l -> wired (switch c b st) key ikey fn l.
Proof.
  intros Hc. apply wired_agree.
  - intros q _. apply constraints_of_switch.
  - intros c' x Hc' Hr. rewrite constraints_switch_ne; [exact Hc'|].
    intros ->. rewrite Hc in Hc'. injection Hc' as <-. discriminate.
Qed.

Lemma constraints_flag (p : nat) (b : bool) (st : store) :
  constraints (flag p b st) = constraints st.
Proof. unfold flag. now destruct (parameters st !! p). Qed.

Lemma next_flag (p : nat) (b : bool) (st : store) :
  next (flag p b st) = next st.
Proof. unfold flag. now destruct (parameters st !! p). Qed.

Lemma parameters_flag_ne (p q : nat) (b : bool) (st : store) :
  q <> p -> parameters (flag p b st) !! q = parameters st !! q.
Proof.
  intros H. unfold flag. destruct (parameters st !! p); [|reflexivity].
  simpl. now rewrite lookup_insert_ne by congruence.
Qed.

Lemma parameters_flag_eq (p : nat) (b : bool) (st : store) :
  parameters (flag p b st) !! p = with_enabled b <$> parameters st !! p.
Proof.
  unfold flag. destruct (parameters st !! p) as [par|] eqn:Hp; simpl.
  - now rewrite lookup_insert_eq.
  - now rewrite Hp.
Qed.

Lemma constraints_of_flag (p q : nat) (b : bool) (st : store) :
  constraints_of (flag p b st) q = constraints_of st q.
Proof.
  unfold constraints_of. destruct (decide (q = p)) as [->|Hne].
  - rewrite parameters_flag_eq. now destruct (parameters st !! p).
  - now rewrite parameters_flag_ne.
Qed.

Lemma value_of_flag (p q : nat) (b : bool) (st : store) :
  value_of (flag p b st) q = value_of st q.
Proof.
  unfold value_of. destruct (decide (q = p)) as [->|Hne].
  - rewrite parameters_flag_eq. now destruct (parameters st !! p).
  - now rewrite parameters_flag_ne.
Qed.

Lemma wired_flag (p : nat) (b : bool) (st : store) key ikey fn l :
  wired st key ikey fn l -> wired (flag p b st) key ikey fn l.
Proof.
  apply wired_agree.
  - intros q _. apply constraints_of_flag.
  - intros c x Hc _. now rewrite constraints_flag.
Qed.

Lemma set_parameter_enabled_Ok (p : nat) (x : bool) (st : store) cs :
  constraints_of st p = Some cs ->
  set_parameter_enabled p x st = (Ok tt, flag p x st).
Proof.
  intros (par & Hp & _)%constraints_of_Some.
  unfold set_parameter_enabled, bind, get_parameter, flag. now rewrite Hp.
Qed.

Lemma set_constraint_enabled_same (c : nat) (x : constraint) (st : store) :
  constraints st !! c = Some x ->
  set_constraint_enabled c (c_enabled x) st = (Ok tt, st).
Proof.
  intros H. unfold set_constraint_enabled, bind, get_constraint.
  rewrite H. now rewrite Bool.eqb_reflx.
Qed.

Lemma set_constraint_enabled_off (c : nat) (x : constraint) (st : store) :
  constraints st !! c = Some x -> c_enabled x = true ->
  set_constraint_enabled c false st = (Ok tt, switch c false st).
Proof.
  intros H He. unfold set_constraint_enabled, bind, get_constraint.
  rewrite H, He. cbn [Bool.eqb]. unfold atomically, switch. now rewrite H.
Qed.

Lemma set_constraint_enabled_on (c : nat) (x : constraint)
    (st st' : store) :
  constraints st !! c = Some x -> c_enabled x = false ->
  run_constraint (propagate recursion_limit true) c (switch c true st)
  = Ok st' ->
  set_constraint_enabled c true st = (Ok tt, st').
Proof.
  intros H He Hrun. unfold set_constraint_enabled, bind, get_constraint.
  rewrite H, He. cbn [Bool.eqb]. unfold atomically.
  unfold switch in Hrun. rewrite H in Hrun. now rewrite Hrun.
Qed.

(** Enabling the mirror constraint of a layer pushes the value of the
    shared parameter into the layer. *)
Lemma enable_mirror (d : nat) (c sp : nat) (st : store) l cs :
  recursion_limit = S (S d) ->
  constraints st !! c = Some (mirror (apm l) sp false) ->
  constraints_of st sp = Some cs ->
  wired st "apm" "iapm" apm_to_sld_fn l ->
  admitted st true (apm l) (val st sp) ->
  lenient st (m_sld l) ->
  lenient st (m_isld l) ->
  set_constraint_enabled c true st
  = (Ok tt, after_apm l (val st sp) (switch c true st)).
Proof.
  intros Hd Hc Hcs Hw Ha Ls Li.
  apply (set_constraint_enabled_on _ _ _ _ Hc eq_refl).
  rewrite (run_mirror _ c (apm l) sp _ cs);
    [|now rewrite (constraints_switch_eq _ _ _ _ Hc)
     |now rewrite constraints_of_switch].
  assert (Hv : val (switch c true st) sp = val st sp).
  { unfold val. now rewrite value_of_switch. }
  rewrite Hv, Hd.
  apply write_layer_apm.
  - exact (wired_switch _ _ _ _ _ _ _ _ _ _ Hc Hw).
  - apply (admitted_agree st); [now rewrite parameters_switch|assumption].
  - apply (lenient_agree st); [now rewrite parameters_switch|assumption].
  - apply (lenient_agree st); [now rewrite parameters_switch|assumption].
Qed.

Lemma assembled_agree (st st' : store) (s : t) :
  (forall q, q ∈ ids (layer1_of s) ++ ids (layer2_of s) ->
             constraints_of st' q = constraints_of st q) ->
  (forall c x, constraints st !! c = Some x ->
               c_rule x = Functional apm_to_sld_fn ->
               constraints st' !! c = Some x) ->
  assembled st s -> assembled st' s.
Proof.
  intros Hp Hc (W1 & W2 & Hnd).
  split; [|split]; [apply (wired_agree st); auto..|exact Hnd].
  - intros q Hq. apply Hp. apply elem_of_app. now left.
  - intros q Hq. apply Hp. apply elem_of_app. now right.
Qed.

Lemma switch_keeps_functional (c : nat) (b : bool) (st : store)
    (d i : nat) (on : bool) (c' : nat) (x : constraint) fn :
  constraints st !! c = Some (mirror d i on) ->
  constraints st !! c' = Some x -> c_rule x = Functional fn ->
  constraints (switch c b st) !! c' = Some x.
Proof.
  intros Hc Hc' Hr. rewrite constraints_switch_ne; [exact Hc'|].
  intros ->. rewrite Hc in Hc'. injection Hc' as <-. discriminate.
Qed.

(** The three parameters a write into a layer's area per molecule
    changes are among the parameters the shared parameter reaches. *)
Lemma not_reached_layer1 (s : t) (sp q : nat) :
  q ∉ reached s sp ->
  q ∉ [apm (layer1_of s); m_sld (layer1_of s); m_isld (layer1_of s)].
Proof. unfold reached. rewrite !not_elem_of_cons. tauto. Qed.

Lemma not_reached_layer2 (s : t) (sp q : nat) :
  q ∉ reached s sp ->
  q ∉ [apm (layer2_of s); m_sld (layer2_of s); m_isld (layer2_of s)].
Proof. unfold reached. rewrite !not_elem_of_cons. tauto. Qed.

Lemma not_reached_shared (s : t) (sp q : nat) : q ∉ reached s sp -> q <> sp.
Proof. unfold reached. rewrite !not_elem_of_cons. tauto. Qed.

(** An assignment to [constrain_apm] once the shared parameter exists. *)
Lemma set_constrain_apm_again (st : store) (s : t) (sp : nat)
    (on x : bool) :
  2 <= recursion_limit ->
  constrained st s sp on ->
  (on = false -> x = true ->
   admitted st true (apm (layer1_of s)) (val st sp)
   /\ admitted st true (apm (layer2_of s)) (val st sp)
   /\ lenient st (m_sld (layer1_of s))
   /\ lenient st (m_isld (layer1_of s))
   /\ lenient st (m_sld (layer2_of s))
   /\ lenient st (m_isld (layer2_of s))) ->
  exists st',
    set_constrain_apm x (s, st) = (Ok tt, (s, st'))
    /\ constrained st' s sp x
    /\ next st' = next st
    /\ parameters st' !! sp = with_enabled x <$> parameters st !! sp
    /\ (forall q, q ∉ reached s sp ->
                  parameters st' !! q = parameters st !! q)
    /\ (forall kcs c, constraints_of st sp = Some kcs ->
                      c ∉ map snd kcs ->
                      constraints st' !! c = constraints st !! c)
    /\ value_of st' sp = value_of st sp
    /\ (if negb on && x
        then pushed st st' (layer1_of s) (val st sp)
             /\ pushed st st' (layer2_of s) (val st sp)
        else forall q, value_of st' q = value_of st q).
Proof.
  intros Hlim Hcon Hpush.
  destruct recursion_limit as [|[|d]] eqn:Hd; [lia..|].
  pose proof Hcon as
    (Hsp & (c1 & c2 & Hcs & Hc1 & Hc2 & Hne) & Hasm & Hfresh).
  pose proof Hasm as (W1 & W2 & Hnd).
  set (l1 := layer1_of s) in *. set (l2 := layer2_of s) in *.
  assert (F1 : sp ∉ [apm l1; m_sld l1; m_isld l1]).
  { intros H. apply Hfresh. apply elem_of_app. left. unfold ids.
    revert H. rewrite !elem_of_cons. tauto. }
  assert (F2 : sp ∉ [apm l2; m_sld l2; m_isld l2]).
  { intros H. apply Hfresh. apply elem_of_app. right. unfold ids.
    revert H. rewrite !elem_of_cons. tauto. }
  assert (N21 : forall q, q ∈ ids l2 -> q ∉ [apm l1; m_sld l1; m_isld l1]).
  { apply NoDup_app_inv in Hnd as (_ & _ & N). intros q H2 H1.
    apply (N q); [|exact H2]. unfold ids. revert H1.
    rewrite !elem_of_cons. tauto. }
  assert (N12 : forall q, q ∈ [apm l2; m_sld l2; m_isld l2] ->
                          q ∉ [apm l1; m_sld l1; m_isld l1]).
  { intros q H2. apply N21. unfold ids. revert H2.
    rewrite !elem_of_cons. tauto. }
  assert (M1 : forall q, q ∈ [apm l1; m_sld l1; m_isld l1] ->
                         q ∉ [apm l2; m_sld l2; m_isld l2]).
  { intros q H1 H2. exact (N12 _ H2 H1). }
  assert (Hothers : forall kcs c, constraints_of st sp = Some kcs ->
                                  c ∉ map snd kcs -> c <> c1 /\ c <> c2).
  { intros kcs c Hk Hc. rewrite Hcs in Hk. injection Hk as <-.
    cbn [map snd] in Hc. rewrite !not_elem_of_cons in Hc. tauto. }
  unfold set_constrain_apm, self_area_per_molecule.
  erewrite bind_Ok; [|reflexivity]. cbn [fst]. rewrite Hsp.
  cbn [hasattr negb].
  erewrite bind_Ok; [|reflexivity].
  erewrite bind_Ok;
    [|erewrite bind_Ok; [|reflexivity]; cbn [fst]; rewrite Hsp; reflexivity].
  erewrite bind_Ok;
    [|apply on_store_run;
      apply (get_user_constraint_Ok _ _ c1 _ _ Hcs); reflexivity].
  destruct on, x.
  - (* enabled, assigned True *)
    erewrite bind_Ok;
      [|apply on_store_run;
        apply (set_constraint_enabled_same _ _ _ Hc1)].
    erewrite bind_Ok;
      [|apply on_store_run;
        apply (get_user_constraint_Ok _ _ c2 _ _ Hcs); reflexivity].
    erewrite bind_Ok;
      [|apply on_store_run;
        apply (set_constraint_enabled_same _ _ _ Hc2)].
    erewrite on_store_run; [|apply (set_parameter_enabled_Ok _ _ _ _ Hcs)].
    eexists. split; [reflexivity|].
    split; [|split; [|split; [|split; [|split; [|split]]]]].
    + split; [exact Hsp|]. split; [|split; [|exact Hfresh]].
      * exists c1, c2. now rewrite constraints_of_flag, constraints_flag.
      * apply (assembled_agree st); [| |exact Hasm].
        -- intros q _. apply constraints_of_flag.
        -- intros c y Hc _. now rewrite constraints_flag.
    + apply next_flag.
    + apply parameters_flag_eq.
    + intros q Hq%not_reached_shared. now apply parameters_flag_ne.
    + intros kcs c _ _. now rewrite constraints_flag.
    + apply value_of_flag.
    + intros q. apply value_of_flag.
  - (* enabled, assigned False *)
    erewrite bind_Ok;
      [|apply on_store_run;
        apply (set_constraint_enabled_off _ _ _ Hc1 eq_refl)].
    erewrite bind_Ok;
      [|apply on_store_run;
        apply (get_user_constraint_Ok _ _ c2 _ [("apm1", c1); ("apm2", c2)]);
        [now rewrite constraints_of_switch|reflexivity]].
    assert (Hc2' : constraints (switch c1 false st) !! c2
                   = Some (mirror (apm l2) sp true)).
    { now rewrite constraints_switch_ne by congruence. }
    erewrite bind_Ok;
      [|apply on_store_run;
        apply (set_constraint_enabled_off _ _ _ Hc2' eq_refl)].
    erewrite on_store_run;
      [|apply (set_parameter_enabled_Ok _ _ _ [("apm1", c1); ("apm2", c2)]);
        now rewrite !constraints_of_switch].
    eexists. split; [reflexivity|].
    split; [|split; [|split; [|split; [|split; [|split]]]]].
    + split; [exact Hsp|]. split; [|split; [|exact Hfresh]].
      * exists c1, c2.
        rewrite constraints_of_flag, !constraints_of_switch, constraints_flag.
        split; [exact Hcs|]. split; [|split; [|exact Hne]].
        -- rewrite constraints_switch_ne by congruence.
           now rewrite (constraints_switch_eq _ _ _ _ Hc1).
        -- now rewrite (constraints_switch_eq _ _ _ _ Hc2').
      * apply (assembled_agree st); [| |exact Hasm].
        -- intros q _.
           now rewrite constraints_of_flag, !constraints_of_switch.
        -- intros c y Hc Hr. rewrite constraints_flag.
           eapply switch_keeps_functional; [exact Hc2'| |exact Hr].
           eapply switch_keeps_functional; [exact Hc1|exact Hc|exact Hr].
    + now rewrite next_flag, !next_switch.
    + now rewrite parameters_flag_eq, !parameters_switch.
    + intros q Hq%not_reached_shared.
      rewrite parameters_flag_ne by assumption.
      now rewrite !parameters_switch.
    + intros kcs c Hk Hc. destruct (Hothers kcs c Hk Hc) as [X1 X2].
      rewrite constraints_flag.
      now rewrite !constraints_switch_ne by assumption.
    + now rewrite value_of_flag, !value_of_switch.
    + intros q. now rewrite value_of_flag, !value_of_switch.
  - (* disabled, assigned True *)
    destruct (Hpush eq_refl eq_refl) as (A1 & A2 & L1 & L1' & L2 & L2').
    set (v := val st sp) in *.
    erewrite bind_Ok;
      [|apply on_store_run;
        apply (enable_mirror d c1 sp st l1 _ Hd Hc1 Hcs W1 A1 L1 L1')].
    fold v.
    set (st1 := after_apm l1 v (switch c1 true st)).
    assert (Hcs1 : constraints_of st1 sp = Some [("apm1", c1); ("apm2", c2)]).
    { unfold st1. now rewrite constraints_of_after_apm, constraints_of_switch. }
    assert (Hc2' : constraints st1 !! c2 = Some (mirror (apm l2) sp false)).
    { unfold st1. rewrite constraints_after_apm.
      now rewrite constraints_switch_ne by congruence. }
    assert (Hv1 : val st1 sp = v).
    { unfold val, st1. rewrite value_of_after_apm_ne by exact F1.
      now rewrite value_of_switch. }
    assert (P1 : forall q, q ∈ ids l2 ->
                           parameters st1 !! q = parameters st !! q).
    { intros q Hq. unfold st1.
      rewrite parameters_after_apm_ne by (now apply N21).
      now rewrite parameters_switch. }
    assert (I2 : forall q, q ∈ [apm l2; m_sld l2; m_isld l2] -> q ∈ ids l2).
    { intros q. unfold ids. rewrite !elem_of_cons. tauto. }
    assert (W11 : wired (switch c1 true st) "apm" "iapm" apm_to_sld_fn l1)
      by exact (wired_switch _ _ _ _ _ _ _ _ _ _ Hc1 W1).
    assert (W21 : wired st1 "apm" "iapm" apm_to_sld_fn l2).
    { unfold st1. apply wired_after_apm.
      exact (wired_switch _ _ _ _ _ _ _ _ _ _ Hc1 W2). }
    assert (W22 : wired (switch c2 true st1) "apm" "iapm" apm_to_sld_fn l2)
      by exact (wired_switch _ _ _ _ _ _ _ _ _ _ Hc2' W21).
    erewrite bind_Ok;
      [|apply on_store_run;
        apply (get_user_constraint_Ok _ _ c2 _ _ Hcs1); reflexivity].
    erewrite bind_Ok;
      [|apply on_store_run;
        apply (enable_mirror d c2 sp st1 l2 _ Hd Hc2' Hcs1);
        [exact W21
        |rewrite Hv1; apply (admitted_agree st);
         [apply P1, I2; rewrite !elem_of_cons; tauto|exact A2]
        |apply (lenient_agree st);
         [apply P1, I2; rewrite !elem_of_cons; tauto|exact L2]
        |apply (lenient_agree st);
         [apply P1, I2; rewrite !elem_of_cons; tauto|exact L2']]].
    rewrite Hv1.
    set (st2 := after_apm l2 v (switch c2 true st1)).
    erewrite on_store_run;
      [|apply (set_parameter_enabled_Ok _ _ _ [("apm1", c1); ("apm2", c2)]);
        unfold st2;
        now rewrite constraints_of_after_apm, constraints_of_switch].
    eexists. split; [reflexivity|].
    assert (K1 : constraints st2 !! c1 = Some (mirror (apm l1) sp true)).
    { unfold st2. rewrite constraints_after_apm.
      rewrite constraints_switch_ne by congruence.
      unfold st1. rewrite constraints_after_apm.
      now rewrite (constraints_switch_eq _ _ _ _ Hc1). }
    assert (K2 : constraints st2 !! c2 = Some (mirror (apm l2) sp true)).
    { unfold st2. rewrite constraints_after_apm.
      now rewrite (constraints_switch_eq _ _ _ _ Hc2'). }
    assert (V1 : forall q, q ∈ ids l2 -> val st1 q = val st q).
    { intros q Hq. unfold val, value_of. now rewrite P1. }
    split; [|split; [|split; [|split; [|split; [|split]]]]].
    + split; [exact Hsp|]. split; [|split; [|exact Hfresh]].
      * exists c1, c2. rewrite constraints_of_flag, constraints_flag.
        unfold st2 at 1.
        rewrite constraints_of_after_apm, constraints_of_switch.
        auto.
      * apply (assembled_agree st); [| |exact Hasm].
        -- intros q _. rewrite constraints_of_flag. unfold st2, st1.
           now rewrite !constraints_of_after_apm, !constraints_of_switch,
             ?constraints_of_after_apm, ?constraints_of_switch.
        -- intros c y Hc Hr. rewrite constraints_flag. unfold st2.
           rewrite constraints_after_apm.
           eapply switch_keeps_functional; [exact Hc2'| |exact Hr].
           unfold st1. rewrite constraints_after_apm.
           eapply switch_keeps_functional; [exact Hc1|exact Hc|exact Hr].
    + rewrite next_flag. unfold st2, st1.
      now rewrite !next_after_apm, !next_switch, ?next_after_apm,
        ?next_switch.
    + rewrite parameters_flag_eq. unfold st2.
      rewrite parameters_after_apm_ne by exact F2.
      rewrite parameters_switch. unfold st1.
      rewrite parameters_after_apm_ne by exact F1.
      now rewrite parameters_switch.
    + intros q Hq. rewrite parameters_flag_ne
        by (now apply not_reached_shared in Hq).
      unfold st2.
      rewrite parameters_after_apm_ne by (now apply not_reached_layer2 in Hq).
      rewrite parameters_switch. unfold st1.
      rewrite parameters_after_apm_ne by (now apply not_reached_layer1 in Hq).
      now rewrite parameters_switch.
    + intros kcs c Hk Hc. destruct (Hothers kcs c Hk Hc) as [X1 X2].
      rewrite constraints_flag. unfold st2.
      rewrite constraints_after_apm.
      rewrite constraints_switch_ne by assumption.
      unfold st1. rewrite constraints_after_apm.
      now rewrite constraints_switch_ne by assumption.
    + rewrite value_of_flag. unfold st2.
      rewrite value_of_after_apm_ne by exact F2.
      rewrite value_of_switch. unfold st1.
      rewrite value_of_after_apm_ne by exact F1.
      now rewrite value_of_switch.
    + cbn [negb andb]. split; (split; [|split]).
      * rewrite value_of_flag. unfold st2.
        rewrite value_of_after_apm_ne
          by (apply M1; rewrite !elem_of_cons; tauto).
        rewrite value_of_switch. unfold st1.
        exact (value_of_after_apm_apm _ _ _ "apm" "iapm" apm_to_sld_fn W11).
      * rewrite value_of_flag. unfold st2.
        rewrite value_of_after_apm_ne
          by (apply M1; rewrite !elem_of_cons; tauto).
        rewrite value_of_switch. unfold st1.
        rewrite (value_of_after_apm_sld _ _ _ "apm" "iapm" W11).
        unfold val. now rewrite !value_of_switch.
      * rewrite value_of_flag. unfold st2.
        rewrite value_of_after_apm_ne
          by (apply M1; rewrite !elem_of_cons; tauto).
        rewrite value_of_switch. unfold st1.
        rewrite (value_of_after_apm_isld _ _ _ "apm" "iapm" W11).
        unfold val. now rewrite !value_of_switch.
      * rewrite value_of_flag. unfold st2.
        exact (value_of_after_apm_apm _ _ _ "apm" "iapm" apm_to_sld_fn W22).
      * rewrite value_of_flag. unfold st2.
        rewrite (value_of_after_apm_sld _ _ _ "apm" "iapm" W22).
        assert (E : forall q, q ∈ ids l2 ->
                              val (switch c2 true st1) q = val st q).
        { intros q Hq. rewrite <- (V1 q Hq). unfold val.
          now rewrite value_of_switch. }
        rewrite !E by (unfold ids; rewrite !elem_of_cons; tauto).
        reflexivity.
      * rewrite value_of_flag. unfold st2.
        rewrite (value_of_after_apm_isld _ _ _ "apm" "iapm" W22).
        assert (E : forall q, q ∈ ids l2 ->
                              val (switch c2 true st1) q = val st q).
        { intros q Hq. rewrite <- (V1 q Hq). unfold val.
          now rewrite value_of_switch. }
        rewrite !E by (unfold ids; rewrite !elem_of_cons; tauto).
        reflexivity.
  - (* disabled, assigned False *)
    erewrite bind_Ok;
      [|apply on_store_run;
        apply (set_constraint_enabled_same _ _ _ Hc1)].
    erewrite bind_Ok;
      [|apply on_store_run;
        apply (get_user_constraint_Ok _ _ c2 _ _ Hcs); reflexivity].
    erewrite bind_Ok;
      [|apply on_store_run;
        apply (set_constraint_enabled_same _ _ _ Hc2)].
    erewrite on_store_run; [|apply (set_parameter_enabled_Ok _ _ _ _ Hcs)].
    eexists. split; [reflexivity|].
    split; [|split; [|split; [|split; [|split; [|split]]]]].
    + split; [exact Hsp|]. split; [|split; [|exact Hfresh]].
      * exists c1, c2. now rewrite constraints_of_flag, constraints_flag.
      * apply (assembled_agree st); [| |exact Hasm].
        -- intros q _. apply constraints_of_flag.
        -- intros c y Hc _. now rewrite constraints_flag.
    + apply next_flag.
    + apply parameters_flag_eq.
    + intros q Hq%not_reached_shared. now apply parameters_flag_ne.
    + intros kcs c _ _. now rewrite constraints_flag.
    + apply value_of_flag.
    + intros q. apply value_of_flag.
Qed.

(** The first assignment to [constrain_apm]. *)
Lemma set_constrain_apm_first (st : store) (s : t) (x : bool) :
  2 <= recursion_limit ->
  area_per_molecule s = None ->
  assembled st s ->
  well_formed st ->
  admitted st false (apm (layer2_of s)) (val st (apm (layer1_of s))) ->
  lenient st (m_sld (layer2_of s)) ->
  lenient st (m_isld (layer2_of s)) ->
  exists st',
    set_constrain_apm x (s, st) = (Ok tt, (sharing (next st) s, st'))
    /\ constrained st' (sharing (next st) s) (next st) x
    /\ next st' = S (S (S (next st)))
    /\ enabled <$> parameters st' !! next st = Some x
    /\ value_of st' (next st) = Some (val st (apm (layer1_of s)))
    /\ value_of st' (apm (layer1_of s)) = Some (val st (apm (layer1_of s)))
    /\ pushed st st' (layer2_of s) (val st (apm (layer1_of s)))
    /\ (forall q, q < next st ->
                  q ∉ [apm (layer2_of s); m_sld (layer2_of s);
                       m_isld (layer2_of s)] ->
                  value_of st' q = value_of st q)
    /\ (forall c, c < next st -> constraints st' !! c = constraints st !! c).
Proof.
  intros Hlim Hnone Hasm Hwf A2 L2 L2'.
  destruct recursion_limit as [|[|d]] eqn:Hd; [lia..|].
  pose proof Hasm as (W1 & W2 & Hnd).
  set (l1 := layer1_of s) in *. set (l2 := layer2_of s) in *.
  set (n := next st) in *. set (v0 := val st (apm l1)) in *.
  assert (O1 : forall q, q ∈ ids l1 -> q < n)
    by exact (wired_older _ _ _ _ _ Hwf W1).
  assert (O2 : forall q, q ∈ ids l2 -> q < n)
    by exact (wired_older _ _ _ _ _ Hwf W2).
  assert (Oc : forall c y, constraints st !! c = Some y -> c < n).
  { intros c y Hc. exact (proj2 Hwf _ _ Hc). }
  assert (I1 : forall q, q ∈ [apm l1; m_sld l1; m_isld l1] -> q ∈ ids l1).
  { intros q. unfold ids. rewrite !elem_of_cons. tauto. }
  assert (I2 : forall q, q ∈ [apm l2; m_sld l2; m_isld l2] -> q ∈ ids l2).
  { intros q. unfold ids. rewrite !elem_of_cons. tauto. }
  assert (N12 : forall q, q ∈ ids l1 -> q ∉ ids l2).
  { apply NoDup_app_inv in Hnd as (_ & _ & N). exact N. }
  assert (E1 : apm l1 ∈ [apm l1; m_sld l1; m_isld l1])
    by (rewrite !elem_of_cons; tauto).
  assert (E2 : apm l2 ∈ [apm l2; m_sld l2; m_isld l2])
    by (rewrite !elem_of_cons; tauto).
  assert (E2s : m_sld l2 ∈ [apm l2; m_sld l2; m_isld l2])
    by (rewrite !elem_of_cons; tauto).
  assert (E2i : m_isld l2 ∈ [apm l2; m_sld l2; m_isld l2])
    by (rewrite !elem_of_cons; tauto).
  assert (Ha1 : value_of st (apm l1) = Some v0).
  { destruct W1 as (c & ic & _ & _ & _ & Hapm & _).
    exact (value_of_val _ _ _ Hapm). }
  (* the new parameter *)
  set (P0 := {| p_name := "area_per_molecule"; raw_value := v0;
                units := o_units (e_options (LayerApm.d_area_per_molecule
                                               LayerApm.LAYERAPM_DETAILS));
                p_min := o_min (e_options (LayerApm.d_area_per_molecule
                                             LayerApm.LAYERAPM_DETAILS));
                p_max := o_max (e_options (LayerApm.d_area_per_molecule
                                             LayerApm.LAYERAPM_DETAILS));
                fixed := o_fixed (e_options (LayerApm.d_area_per_molecule
                                               LayerApm.LAYERAPM_DETAILS));
                enabled := true; user_constraints := [] |}).
  set (st1 := {| parameters := <[n := P0]> (parameters st);
                 constraints := constraints st; next := S n |}).
  assert (P1 : forall q, q <> n -> parameters st1 !! q = parameters st !! q).
  { intros q Hq. unfold st1. cbn [parameters].
    now rewrite lookup_insert_ne by congruence. }
  assert (CO1 : forall q, q <> n -> constraints_of st1 q = constraints_of st q).
  { intros q Hq. unfold constraints_of. now rewrite P1. }
  assert (W11 : wired st1 "apm" "iapm" apm_to_sld_fn l1).
  { apply (wired_agree st); [|auto|exact W1].
    intros q Hq%O1. apply CO1. lia. }
  assert (W12 : wired st1 "apm" "iapm" apm_to_sld_fn l2).
  { apply (wired_agree st); [|auto|exact W2].
    intros q Hq%O2. apply CO1. lia. }
  set (st2 := after_apm l2 v0 st1).
  assert (Hn2 : n ∉ [apm l2; m_sld l2; m_isld l2]).
  { intros H%I2%O2. lia. }
  assert (Hn1 : n ∉ [apm l1; m_sld l1; m_isld l1]).
  { intros H%I1%O1. lia. }
  assert (Hwrite : propagate (S (S d)) false (apm l2) v0 st1 = Ok st2).
  { apply write_layer_apm; [exact W12|..].
    - apply (admitted_agree st); [|exact A2]. apply P1.
      specialize (O2 _ (I2 _ E2)). lia.
    - apply (lenient_agree st); [|exact L2]. apply P1.
      specialize (O2 _ (I2 _ E2s)). lia.
    - apply (lenient_agree st); [|exact L2']. apply P1.
      specialize (O2 _ (I2 _ E2i)). lia. }
  assert (W21 : wired st2 "apm" "iapm" apm_to_sld_fn l1)
    by (now apply wired_after_apm).
  assert (W22 : wired st2 "apm" "iapm" apm_to_sld_fn l2)
    by (now apply wired_after_apm).
  assert (C2 : constraints st2 = constraints st).
  { unfold st2. now rewrite constraints_after_apm. }
  assert (Nx2 : next st2 = S n).
  { unfold st2. now rewrite next_after_apm. }
  assert (P2n : parameters st2 !! n = Some P0).
  { unfold st2. rewrite parameters_after_apm_ne by exact Hn2.
    unfold st1. cbn [parameters]. apply lookup_insert_eq. }
  set (st3 := {| parameters := parameters st2;
                 constraints :=
                   <[S n := {| dependent := apm l1; independents := [n];
                               c_rule := ObjectMirror "";
                               c_enabled := true |}]> (constraints st2);
                 next := S (S n) |}).
  assert (W32 : wired st3 "apm" "iapm" apm_to_sld_fn l2).
  { apply (wired_agree st2); [reflexivity| |exact W22].
    intros c y Hc _. unfold st3. cbn [constraints].
    rewrite lookup_insert_ne; [exact Hc|].
    rewrite C2 in Hc. apply Oc in Hc. lia. }
  set (st4 := {| parameters := parameters st3;
                 constraints :=
                   <[S (S n) := {| dependent := apm l2; independents := [n];
                                   c_rule := ObjectMirror "";
                                   c_enabled := true |}]> (constraints st3);
                 next := S (S (S n)) |}).
  set (P5 := with_user_constraints
               (dict_set "apm1" (S n) (user_constraints P0)) P0).
  set (st5 := put_parameter n P5 st4).
  set (P6 := with_user_constraints
               (dict_set "apm2" (S (S n)) (user_constraints P5)) P5).
  set (st6 := put_parameter n P6 st5).
  assert (Hblock :
    set_constrain_apm x (s, st) = set_constrain_apm x (sharing n s, st6)).
  { symmetry. unfold set_constrain_apm at 1.
    erewrite bind_Ok; [|reflexivity]. cbn [fst sharing area_per_molecule].
    cbn [hasattr negb].
    erewrite bind_Ok; [|reflexivity].
    symmetry. unfold set_constrain_apm at 1.
    erewrite (bind_Ok _ _ (s, st)); [|reflexivity]. cbn [fst].
    rewrite Hnone. cbn [hasattr negb].
    erewrite (bind_Ok _ _ (s, st) (sharing n s, st6) tt); [reflexivity|].
    { change (LayerApm.area_per_molecule (layer1 s)) with (apm l1).
      change (LayerApm.area_per_molecule (layer2 s)) with (apm l2).
      erewrite bind_Ok; [|apply on_store_run, get_value_Ok; exact Ha1].
      erewrite bind_Ok; [|apply on_store_run; reflexivity].
      fold n. fold P0. fold st1.
      erewrite bind_Ok; [|reflexivity].
      cbn [fst snd].
      erewrite bind_Ok;
        [|apply on_store_run, get_value_Ok; unfold value_of;
          rewrite P1; [exact Ha1|specialize (O1 _ (I1 _ E1)); lia]].
      erewrite bind_Ok;
        [|apply on_store_run, set_value_Ok; rewrite Hd; exact Hwrite].
      unfold ObjConstraint.
      erewrite bind_Ok;
        [|apply on_store_run, new_constraint_Ok; rewrite Hd;
          cbn [existsb];
          rewrite (reaches_from_apm d st2 "apm" "iapm" apm_to_sld_fn l1 n
                     W21 Hn1);
          reflexivity].
      rewrite Nx2. fold st3.
      erewrite bind_Ok;
        [|apply on_store_run, new_constraint_Ok; rewrite Hd;
          cbn [existsb];
          rewrite (reaches_from_apm d st3 "apm" "iapm" apm_to_sld_fn l2 n
                     W32 Hn2);
          reflexivity].
      cbn [next st3]. fold st3. fold st4.
      erewrite bind_Ok;
        [|apply on_store_run;
          apply (set_user_constraint_Ok n "apm1" (S n) st4 P0);
          exact P2n].
      fold P5. fold st5.
      apply on_store_run.
      apply (set_user_constraint_Ok n "apm2" (S (S n)) st5 P5).
      unfold st5. cbn [parameters put_parameter]. apply lookup_insert_eq. } }
  (* what the block leaves behind *)
  assert (P6q : forall q, q <> n -> parameters st6 !! q = parameters st2 !! q).
  { intros q Hq. unfold st6, st5, st4, st3.
    cbn [parameters put_parameter].
    now rewrite !lookup_insert_ne by congruence. }
  assert (P6n : parameters st6 !! n = Some P6).
  { unfold st6. cbn [parameters put_parameter]. apply lookup_insert_eq. }
  assert (C6 : forall c y, constraints st !! c = Some y ->
                           constraints st6 !! c = Some y).
  { intros c y Hc. pose proof (Oc _ _ Hc).
    unfold st6, st5, st4, st3. cbn [constraints put_parameter].
    rewrite !lookup_insert_ne by lia. now rewrite C2. }
  assert (CO6 : forall q, q < n -> constraints_of st6 q = constraints_of st q).
  { intros q Hq. unfold constraints_of. rewrite P6q by lia.
    change (constraints_of st2 q = constraints_of st q).
    unfold st2. rewrite constraints_of_after_apm. apply CO1. lia. }
  assert (Hcon6 : constrained st6 (sharing n s) n true).
  { split; [reflexivity|]. split; [|split].
    - exists (S n), (S (S n)).
      split; [unfold constraints_of; rewrite P6n; reflexivity|].
      split; [|split; [|lia]].
      + unfold st6, st5, st4, st3. cbn [constraints put_parameter].
        rewrite lookup_insert_ne by lia. apply lookup_insert_eq.
      + unfold st6, st5, st4. cbn [constraints put_parameter].
        apply lookup_insert_eq.
    - apply (assembled_agree st); [| |exact Hasm].
      + intros q [Hq%O1|Hq%O2]%elem_of_app; now apply CO6.
      + intros c y Hc _. now apply C6.
    - intros [Hq%O1|Hq%O2]%elem_of_app; lia. }
  destruct (set_constrain_apm_again st6 (sharing n s) n true x)
    as (st' & Hrun & Hcon & Hnx & Hpsp & Hfr & Hcfr & Hvn & Hvals);
    [rewrite Hd; lia|exact Hcon6|discriminate|].
  cbn [negb andb] in Hvals.
  exists st'. rewrite Hblock.
  split; [exact Hrun|]. split; [exact Hcon|].
  assert (V6 : forall q, q <> n -> value_of st6 q = value_of st2 q).
  { intros q Hq. unfold value_of. now rewrite P6q. }
  assert (V1 : forall q, q < n -> val st1 q = val st q).
  { intros q Hq. unfold val, value_of. rewrite P1 by lia. reflexivity. }
  assert (T2 : forall q, q ∈ ids l2 -> q < n) by exact O2.
  split; [|split; [|split; [|split; [|split; [|split]]]]].
  - rewrite Hnx. reflexivity.
  - rewrite Hpsp, P6n. reflexivity.
  - rewrite Hvals. unfold value_of. rewrite P6n. reflexivity.
  - rewrite Hvals, V6 by (specialize (O1 _ (I1 _ E1)); lia).
    unfold st2. rewrite value_of_after_apm_ne.
    + unfold value_of. rewrite P1; [exact Ha1|].
      specialize (O1 _ (I1 _ E1)). lia.
    + intros H%I2. exact (N12 _ (I1 _ E1) H).
  - split; [|split].
    + rewrite Hvals, V6 by (specialize (O2 _ (I2 _ E2)); lia).
      unfold st2.
      now apply (value_of_after_apm_apm _ _ _ "apm" "iapm" apm_to_sld_fn).
    + rewrite Hvals, V6 by (specialize (O2 _ (I2 _ E2s)); lia).
      unfold st2. rewrite (value_of_after_apm_sld _ _ _ "apm" "iapm" W12).
      rewrite !V1 by (apply T2; unfold ids; rewrite !elem_of_cons; tauto).
      reflexivity.
    + rewrite Hvals, V6 by (specialize (O2 _ (I2 _ E2i)); lia).
      unfold st2. rewrite (value_of_after_apm_isld _ _ _ "apm" "iapm" W12).
      rewrite !V1 by (apply T2; unfold ids; rewrite !elem_of_cons; tauto).
      reflexivity.
  - intros q Hq Hq2. rewrite Hvals, V6 by lia.
    unfold st2. rewrite value_of_after_apm_ne by exact Hq2.
    unfold value_of. rewrite P1 by lia. reflexivity.
  - intros c Hc.
    rewrite (Hcfr [("apm1", S n); ("apm2", S (S n))] c).
    + unfold st6, st5, st4, st3. cbn [constraints put_parameter].
      rewrite !lookup_insert_ne by lia. now rewrite C2.
    + unfold constraints_of. rewrite P6n. reflexivity.
    + cbn [map snd]. rewrite !not_elem_of_cons.
      repeat split; try lia. apply not_elem_of_nil.
Qed.

(** C10, amended: before any assignment the getter answers False. The
    first assignment, of either boolean [x], creates one parameter and two
    constraints: the shared parameter, with the value of layer 1's area per
    molecule and the enabled flag [x], linked to both layers; it writes
    that value into layer 2's area per molecule, so that the sld and isld of
    layer 2's material are recomputed, and leaves every other older
    parameter's value and every older constraint as they were. Every later
    assignment of [x] creates nothing and keeps the wiring; it sets the
    enabled flag of the shared parameter to [x] and changes nothing else of
    it, and changes no constraint but the two registered on the shared
    parameter; it leaves every value as it was unless it enables
    constraints that were disabled, in which case the area per molecule of
    both layers takes the value of the shared parameter and the sld and
    isld of both materials are recomputed from it. After any assignment of
    [x] the getter answers [x]. *)
Theorem constrain_apm_assignments :
  2 <= recursion_limit ->
  (forall (l1 l2 : LayerApm.t) (name : string) (st : store),
     fst (constrain_apm (init l1 l2 name, st)) = Ok false)
  /\ (forall (st : store) (s : t) (x : bool),
        area_per_molecule s = None ->
        assembled st s ->
        well_formed st ->
        admitted st false (apm (layer2_of s)) (val st (apm (layer1_of s))) ->
        lenient st (m_sld (layer2_of s)) ->
        lenient st (m_isld (layer2_of s)) ->
        exists st',
          set_constrain_apm x (s, st) = (Ok tt, (sharing (next st) s, st'))
          /\ constrained st' (sharing (next st) s) (next st) x
          /\ next st' = S (S (S (next st)))
          /\ enabled <$> parameters st' !! next st = Some x
          /\ value_of st' (next st) = Some (val st (apm (layer1_of s)))
          /\ value_of st' (apm (layer1_of s))
             = Some (val st (apm (layer1_of s)))
          /\ pushed st st' (layer2_of s) (val st (apm (layer1_of s)))
          /\ (forall q, q < next st ->
                        q ∉ [apm (layer2_of s); m_sld (layer2_of s);
                             m_isld (layer2_of s)] ->
                        value_of st' q = value_of st q)
          /\ (forall c, c < next st ->
                        constraints st' !! c = constraints st !! c)
          /\ fst (constrain_apm (sharing (next st) s, st')) = Ok x)
  /\ (forall (st : store) (s : t) (sp : nat) (on x : bool),
        constrained st s sp on ->
        (on = false -> x = true ->
         admitted st true (apm (layer1_of s)) (val st sp)
         /\ admitted st true (apm (layer2_of s)) (val st sp)
         /\ lenient st (m_sld (layer1_of s))
         /\ lenient st (m_isld (layer1_of s))
         /\ lenient st (m_sld (layer2_of s))
         /\ lenient st (m_isld (layer2_of s))) ->
        exists st',
          set_constrain_apm x (s, st) = (Ok tt, (s, st'))
          /\ constrained st' s sp x
          /\ next st' = next st
          /\ enabled <$> parameters st' !! sp = Some x
          /\ parameters st' !! sp = with_enabled x <$> parameters st !! sp
          /\ (forall q, q ∉ reached s sp ->
                        parameters st' !! q = parameters st !! q)
          /\ (forall kcs c, constraints_of st sp = Some kcs ->
                            c ∉ map snd kcs ->
                            constraints st' !! c = constraints st !! c)
          /\ value_of st' sp = value_of st sp
          /\ (if negb on && x
              then pushed st st' (layer1_of s) (val st sp)
                   /\ pushed st st' (layer2_of s) (val st sp)
              else forall q, value_of st' q = value_of st q)
          /\ fst (constrain_apm (s, st')) = Ok x).
Proof.
  intros Hlim. split; [|split].
  - reflexivity.
  - intros st s x Hnone Hasm Hwf A2 L2 L2'.
    destruct (set_constrain_apm_first st s x Hlim Hnone Hasm Hwf A2 L2 L2')
      as (st' & H1 & H2 & H3 & H4 & H5 & H6 & H7 & H8 & H9).
    exists st'. repeat (split; [assumption|]).
    now rewrite (constrain_apm_reads _ _ _ _ H2).
  - intros st s sp on x Hcon Hpush.
    destruct (set_constrain_apm_again st s sp on x Hlim Hcon Hpush)
      as (st' & H1 & H2 & H3 & H4 & H5 & H6 & H7 & H8).
    exists st'. do 3 (split; [assumption|]).
    split.
    { destruct Hcon as (_ & (c1 & c2 & Hcs & _) & _).
      apply constraints_of_Some in Hcs as (par & Hp & _).
      rewrite H4, Hp. reflexivity. }
    repeat (split; [assumption|]).
    now rewrite (constrain_apm_reads _ _ _ _ H2).
Qed.

End ConstrainApm.

(** ** The surfactant of the examples *)

Section Dppc.
Import Wiring Examples.
#[local] Existing Instance externals.

Lemma dppc_built : fst (surfactant empty_store) = Ok dppc.
Proof. vm_compute. reflexivity. Qed.

Lemma dppc_assembled : assembled dppc_store dppc.
Proof.
  split; [|split].
  - exists 10, 11. repeat split; try (vm_compute; reflexivity).
    vm_compute. all_distinct.
  - exists 22, 23. repeat split; try (vm_compute; reflexivity).
    vm_compute. all_distinct.
  - vm_compute. all_distinct.
Qed.

Lemma dppc_constrained_is :
  SurfactantLayer.set_constrain_apm true (dppc, dppc_store)
  = (Ok tt, dppc_constrained)
  /\ fst dppc_constrained
     = {| SurfactantLayer.layer1 := boron; SurfactantLayer.layer2 := tail;
          SurfactantLayer.name := "DPPC";
          SurfactantLayer.area_per_molecule := Some 24;
          SurfactantLayer.roughness := None |}.
Proof. split; vm_compute; reflexivity. Qed.

Lemma dppc_released_constrained :
  constrained dppc_released (fst dppc_constrained) 24 true.
Proof.
  split; [vm_compute; reflexivity|]. split; [|split].
  - exists 25, 26. repeat split; try (vm_compute; reflexivity). lia.
  - split; [|split].
    + exists 10, 11. repeat split; try (vm_compute; reflexivity).
      vm_compute. all_distinct.
    + exists 22, 23. repeat split; try (vm_compute; reflexivity).
      vm_compute. all_distinct.
    + vm_compute. all_distinct.
  - apply (bool_decide_unpack _). vm_compute. exact I.
Qed.

(** C1, counterexample: with [constrain_apm] enabled, the caller writes 60
    into the area per molecule of layer 1; the write returns, layer 1
    holds 60 and layer 2 of the same assembly still holds 30. *)
Lemma write_to_layer1_does_not_reach_layer2 :
  let s := fst dppc_constrained in
  let st := snd dppc_constrained in
  fst (SurfactantLayer.constrain_apm (s, st)) = Ok true
  /\ exists st',
       set_value (apm (layer1_of s)) 60 st = (Ok tt, st')
       /\ value_of st' (apm (layer1_of s)) = Some 60%Q
       /\ value_of st' (apm (layer2_of s)) = Some 30%Q
       /\ ~ (30 == 60)%Q.
Proof.
  split; [vm_compute; reflexivity|].
  eexists. split; [vm_compute; reflexivity|].
  split; [vm_compute; reflexivity|]. split; [vm_compute; reflexivity|].
  intros H. vm_compute in H. discriminate.
Qed.

(** C1, witness: the shared parameter of the example surfactant is set to
    40. *)
Lemma write_shared_area_per_molecule_witness :
  let s := fst dppc_constrained in
  exists st',
    set_value 24 40 dppc_released = (Ok tt, st')
    /\ value_of st' 24 = Some 40%Q
    /\ value_of st' (apm (layer1_of s)) = Some 40%Q
    /\ value_of st' (apm (layer2_of s)) = Some 40%Q
    /\ (forall q, q ∉ reached s 24 ->
                  parameters st' !! q = parameters dppc_released !! q)
    /\ constraints st' = constraints dppc_released.
Proof.
  intros s.
  apply (write_shared_area_per_molecule dppc_released s 24 40).
  - simpl. lia.
  - exact dppc_released_constrained.
  - eexists. split; vm_compute; reflexivity.
  - eexists. split; vm_compute; reflexivity.
  - eexists. split; vm_compute; reflexivity.
  - eexists. split; [vm_compute; reflexivity|intros w; reflexivity].
  - eexists. split; [vm_compute; reflexivity|intros w; reflexivity].
  - eexists. split; [vm_compute; reflexivity|intros w; reflexivity].
  - eexists. split; [vm_compute; reflexivity|intros w; reflexivity].
Defined.

(** With cross-contrast constraints the write does reach the other
    assembly: after [dppc.constain_multiple_contrast(other)], writing 40
    into the shared parameter of [other] sets the area per molecule of
    layer 1 of [dppc], which held 30. *)
Lemma cross_contrast_reaches_the_constrained_assembly :
  value_of crossed (apm (layer1_of dppc)) = Some 30%Q
  /\ exists st',
       set_value other_shared 40 crossed = (Ok tt, st')
       /\ value_of st' (apm (layer1_of (fst other_constrained))) = Some 40%Q
       /\ value_of st' (apm (layer1_of dppc)) = Some 40%Q.
Proof.
  split; [vm_compute; reflexivity|].
  eexists. split; [vm_compute; reflexivity|].
  split; vm_compute; reflexivity.
Qed.

Lemma dppc_well_formed : well_formed dppc_store.
Proof. split; apply (bool_decide_unpack _); vm_compute; exact I. Qed.

(** C10, counterexample: [constrain_apm = False], then the caller writes
    60 into layer 1's area per molecule, then [constrain_apm = True]: the
    later assignment rewrites layer 1's value from 60 to the 30 of the
    shared parameter. *)
Lemma later_assignment_rewrites_layer1 :
  let s := fst dppc_unconstrained in
  SurfactantLayer.set_constrain_apm false (dppc, dppc_store)
  = (Ok tt, dppc_unconstrained)
  /\ set_value (apm (layer1_of s)) 60 (snd dppc_unconstrained)
     = (Ok tt, dppc_diverged)
  /\ value_of dppc_diverged (apm (layer1_of s)) = Some 60%Q
  /\ SurfactantLayer.set_constrain_apm true (s, dppc_diverged)
     = (Ok tt, dppc_reconstrained)
  /\ value_of (snd dppc_reconstrained) (apm (layer1_of s)) = Some 30%Q
  /\ ~ (30 == 60)%Q.
Proof.
  intros s. do 5 (split; [vm_compute; reflexivity|]).
  intros H. vm_compute in H. discriminate.
Qed.

Lemma dppc_diverged_constrained :
  constrained dppc_diverged (fst dppc_unconstrained) 24 false.
Proof.
  split; [vm_compute; reflexivity|]. split; [|split].
  - exists 25, 26. repeat split; try (vm_compute; reflexivity). lia.
  - split; [|split].
    + exists 10, 11. repeat split; try (vm_compute; reflexivity).
      vm_compute. all_distinct.
    + exists 22, 23. repeat split; try (vm_compute; reflexivity).
      vm_compute. all_distinct.
    + vm_compute. all_distinct.
  - apply (bool_decide_unpack _). vm_compute. exact I.
Qed.

(** C10, witness: the first assignment, of True, on the example
    surfactant; and a later assignment, of True, once the caller has
    assigned False instead and written 60 into layer 1's area per
    molecule. *)
Lemma constrain_apm_assignments_witness :
  2 <= recursion_limit
  /\ (exists st',
        SurfactantLayer.set_constrain_apm true (dppc, dppc_store)
        = (Ok tt, (sharing (next dppc_store) dppc, st'))
        /\ constrained st' (sharing (next dppc_store) dppc)
             (next dppc_store) true
        /\ next st' = S (S (S (next dppc_store)))
        /\ enabled <$> parameters st' !! next dppc_store = Some true
        /\ value_of st' (next dppc_store)
           = Some (val dppc_store (apm (layer1_of dppc)))
        /\ value_of st' (apm (layer1_of dppc))
           = Some (val dppc_store (apm (layer1_of dppc)))
        /\ pushed dppc_store st' (layer2_of dppc)
             (val dppc_store (apm (layer1_of dppc)))
        /\ (forall q, q < next dppc_store ->
                      q ∉ [apm (layer2_of dppc); m_sld (layer2_of dppc);
                           m_isld (layer2_of dppc)] ->
                      value_of st' q = value_of dppc_store q)
        /\ (forall c, c < next dppc_store ->
                      constraints st' !! c = constraints dppc_store !! c)
        /\ fst (SurfactantLayer.constrain_apm
                  (sharing (next dppc_store) dppc, st')) = Ok true)
  /\ (let s := fst dppc_unconstrained in
      exists st',
        SurfactantLayer.set_constrain_apm true (s, dppc_diverged)
        = (Ok tt, (s, st'))
        /\ constrained st' s 24 true
        /\ next st' = next dppc_diverged
        /\ enabled <$> parameters st' !! 24 = Some true
        /\ parameters st' !! 24
           = with_enabled true <$> parameters dppc_diverged !! 24
        /\ (forall q, q ∉ reached s 24 ->
                      parameters st' !! q = parameters dppc_diverged !! q)
        /\ (forall kcs c, constraints_of dppc_diverged 24 = Some kcs ->
                          c ∉ map snd kcs ->
                          constraints st' !! c
                          = constraints dppc_diverged !! c)
        /\ value_of st' 24 = value_of dppc_diverged 24
        /\ (pushed dppc_diverged st' (layer1_of s) (val dppc_diverged 24)
            /\ pushed dppc_diverged st' (layer2_of s)
                 (val dppc_diverged 24))
        /\ fst (SurfactantLayer.constrain_apm (s, st')) = Ok true).
Proof.
  assert (H : 2 <= recursion_limit) by (simpl; lia).
  split; [exact H|]. split.
  - apply (proj1 (proj2 (constrain_apm_assignments H))).
    + reflexivity.
    + exact dppc_assembled.
    + exact dppc_well_formed.
    + eexists. split; vm_compute; reflexivity.
    + eexists. split; [vm_compute; reflexivity|intros w; reflexivity].
    + eexists. split; [vm_compute; reflexivity|intros w; reflexivity].
  - intros s.
    apply (proj2 (proj2 (constrain_apm_assignments H))
             dppc_diverged s 24 false true).
    + exact dppc_diverged_constrained.
    + intros _ _.
      split; [eexists; split; vm_compute; reflexivity|].
      split; [eexists; split; vm_compute; reflexivity|].
      repeat split;
        (eexists; split; [vm_compute; reflexivity|intros w; reflexivity]).
Defined.

(** C3, witness: the example surfactant, whose roughness has never been
    made conformal. *)
Lemma constrain_solvent_roughness_needs_conformal_witness :
  fst (SurfactantLayer.conformal_roughness (dppc, dppc_store)) = Ok false
  /\ SurfactantLayer.constrain_solvent_roughness 2 (dppc, dppc_store)
     = (Error
          (ValueError "Roughness must be conformal to use this function."),
        (dppc, dppc_store)).
Proof.
  split; [reflexivity|].
  apply (constrain_solvent_roughness_needs_conformal dppc dppc_store 2).
  reflexivity.
Defined.

End Dppc.

(** * Further properties of the sample code *)

Ltac not_among :=
  rewrite ?not_elem_of_cons;
  repeat split; first [congruence | apply not_elem_of_nil | assumption | lia].

(** ** Mirror constraints of a shared parameter *)

Section SharedMirrors.
Context {ext : Externals}.
Import Wiring Sharing.

Lemma assign_all_cons (p : nat) (ps : list nat) (v : Q) (st : store) :
  assign_all (p :: ps) v st = assign_all ps v (assign p v st).
Proof. reflexivity. Qed.

Lemma parameters_assign_all_ne (ps : list nat) (v : Q) (st : store) (q : nat) :
  q ∉ ps -> parameters (assign_all ps v st) !! q = parameters st !! q.
Proof.
  revert st. induction ps as [|p ps IH]; intros st Hq; [reflexivity|].
  rewrite not_elem_of_cons in Hq. destruct Hq as [Hne Hq].
  rewrite assign_all_cons, IH by assumption.
  now apply parameters_assign_ne.
Qed.

Lemma constraints_assign_all (ps : list nat) (v : Q) (st : store) :
  constraints (assign_all ps v st) = constraints st.
Proof.
  revert st. induction ps as [|p ps IH]; intros st; [reflexivity|].
  now rewrite assign_all_cons, IH, constraints_assign.
Qed.

Lemma constraints_of_assign_all (ps : list nat) (v : Q) (st : store)
    (q : nat) :
  constraints_of (assign_all ps v st) q = constraints_of st q.
Proof.
  revert st. induction ps as [|p ps IH]; intros st; [reflexivity|].
  now rewrite assign_all_cons, IH, constraints_of_assign.
Qed.

Lemma next_assign_all (ps : list nat) (v : Q) (st : store) :
  next (assign_all ps v st) = next st.
Proof.
  revert st. induction ps as [|p ps IH]; intros st; [reflexivity|].
  now rewrite assign_all_cons, IH, next_assign.
Qed.

Lemma value_of_assign_all_in (ps : list nat) (v : Q) (st : store) (q : nat) :
  q ∈ ps -> (forall p, p ∈ ps -> exists cs, constraints_of st p = Some cs) ->
  value_of (assign_all ps v st) q = Some v.
Proof.
  revert st. induction ps as [|p ps IH]; intros st Hq Hall.
  - now apply elem_of_nil in Hq.
  - rewrite assign_all_cons.
    destruct (decide (q ∈ ps)) as [Hin|Hnin].
    + apply IH; [assumption|]. intros p' Hp'.
      rewrite constraints_of_assign. apply Hall. now right.
    + apply elem_of_cons in Hq as [->|Hq]; [|contradiction].
      unfold value_of. rewrite parameters_assign_all_ne by assumption.
      destruct (Hall p) as [cs Hcs]; [now left|].
      apply (value_of_assign_eq _ _ _ _ (value_of_val _ _ _ Hcs)).
Qed.

Lemma live_cons (l : link) (links : list link) :
  live (l :: links)
  = if lk_on l then lk_dep l :: live links else live links.
Proof. unfold live. simpl. now destruct (lk_on l). Qed.

Lemma live_subseteq (links : list link) (q : nat) :
  q ∈ live links -> q ∈ map lk_dep links.
Proof.
  induction links as [|l links IH]; [easy|].
  rewrite live_cons. simpl. destruct (lk_on l).
  - rewrite !elem_of_cons. intros [->|H]; [now left|right; auto].
  - intros H. right. auto.
Qed.

(** The constraints of a written shared parameter, run in order: each
    enabled link writes the value into its dependent, a disabled link does
    nothing. *)
Lemma run_links (d : nat) (sp : nat) (v : Q) (links : list link) :
  forall (cs : list nat) (st : store) cs0,
    Forall2
      (fun c l => constraints st !! c = Some (mirror (lk_dep l) sp (lk_on l)))
      cs links ->
    constraints_of st sp = Some cs0 ->
    val st sp = v ->
    NoDup (sp :: map lk_dep links) ->
    Forall (fun l => leaf st (lk_dep l)) links ->
    Forall (fun q => admitted st true q v) (live links) ->
    run_constraints (propagate (S d) true) (zip (map lk_key links) cs) st
    = Ok (assign_all (live links) v st).
Proof.
  induction links as [|l links IH]; intros cs st cs0 Hcs Hsp Hv Hnd Hleaf Hadm.
  - reflexivity.
  - apply Forall2_cons_inv_r in Hcs as (c & cs' & Hc & Hrest & ->).
    apply Forall_cons in Hleaf as [Hl Hleaf'].
    apply NoDup_cons in Hnd as [Hsp_notin Hnd].
    simpl in Hsp_notin, Hnd. rewrite not_elem_of_cons in Hsp_notin.
    destruct Hsp_notin as [Hne Hsp_notin].
    apply NoDup_cons in Hnd as [Hl_notin Hnd].
    cbn [map zip zip_with run_constraints].
    rewrite live_cons in *. destruct (lk_on l) eqn:Hon.
    + apply Forall_cons in Hadm as [(par & Hp & Ha) Hadm'].
      rewrite (run_mirror _ _ _ _ _ _ Hc Hsp), Hv.
      destruct (constraints_of_Some _ _ _ Hl) as (par' & Hp' & Hcs').
      assert (par' = par) by congruence. subst par'.
      rewrite (propagate_leaf d true _ _ _ par Hp Hcs' Ha).
      rewrite assign_all_cons.
      apply (IH cs' _ cs0).
      * eapply Forall2_impl; [exact Hrest|]. intros c' l'' H.
        now rewrite constraints_assign.
      * now rewrite constraints_of_assign.
      * now rewrite val_assign_ne by congruence.
      * apply NoDup_cons. split; assumption.
      * eapply Forall_impl; [exact Hleaf'|]. intros l'' H. unfold leaf.
        now rewrite constraints_of_assign.
      * rewrite Forall_forall in Hadm' |- *. intros q Hq.
        apply admitted_assign_ne; [|now apply Hadm'].
        intros ->. apply Hl_notin. now apply live_subseteq.
    + rewrite (run_disabled _ _ _ _ Hc) by reflexivity.
      apply (IH cs' _ cs0); try assumption.
      apply NoDup_cons. split; assumption.
Qed.

(** The write of a shared parameter: the value goes into the shared
    parameter and into the dependent of each enabled link. *)
Lemma write_fanned (d : nat) (b : bool) (st : store) (sp : nat)
    (links : list link) (v : Q) :
  fanned st sp links ->
  admitted st b sp v ->
  Forall (fun q => admitted st true q v) (live links) ->
  propagate (S (S d)) b sp v st
  = Ok (assign_all (live links) v (assign sp v st)).
Proof.
  intros (cs & Hsp & Hcs & Hndc & Hnd & Hleaf) (par & Hp & Ha) Hadm.
  rewrite (propagate_unfold _ _ _ _ _ par Hp Ha).
  destruct (constraints_of_Some _ _ _ Hsp) as (par' & Hp' & Hcs').
  assert (par' = par) by congruence. subst par'. rewrite Hcs'.
  apply (run_links d sp v links cs _ (zip (map lk_key links) cs)).
  - eapply Forall2_impl; [exact Hcs|]. intros c l H.
    now rewrite constraints_assign.
  - now rewrite constraints_of_assign.
  - apply (val_assign_eq _ _ _ _ Hsp).
  - exact Hnd.
  - eapply Forall_impl; [exact Hleaf|]. intros l H. unfold leaf.
    now rewrite constraints_of_assign.
  - rewrite Forall_forall in Hadm |- *. intros q Hq.
    apply admitted_assign_ne; [|now apply Hadm].
    intros ->. apply NoDup_cons in Hnd as [Hn _]. apply Hn.
    now apply live_subseteq.
Qed.

End SharedMirrors.

(** ** Conformal roughness *)

Section ConformalRoughness.
Context {ext : Externals}.
Import Wiring Sharing SurfactantLayer.

(** An assignment to [enabled] of a mirror constraint whose dependent
    carries no constraint: enabling a disabled constraint writes the value
    of the shared parameter into the dependent, every other assignment
    changes no value. *)
Lemma toggle_mirror (c dep sp : nat) (on x : bool) (st : store) cs :
  1 <= recursion_limit ->
  constraints st !! c = Some (mirror dep sp on) ->
  constraints_of st sp = Some cs ->
  leaf st dep -> dep <> sp ->
  (on = false -> x = true -> admitted st true dep (val st sp)) ->
  exists st',
    set_constraint_enabled c x st = (Ok tt, st')
    /\ constraints st' = <[c := mirror dep sp x]> (constraints st)
    /\ next st' = next st
    /\ (forall q, q <> dep -> parameters st' !! q = parameters st !! q)
    /\ leaf st' dep
    /\ value_of st' dep
       = Some (if negb on && x then val st sp else val st dep).
Proof.
  intros Hlim Hc Hsp Hleaf Hne Hadm.
  destruct recursion_limit as [|d] eqn:Hd; [lia|].
  destruct on, x; cbn [negb andb].
  - exists st. split; [exact (set_constraint_enabled_same _ _ _ Hc)|].
    split; [now rewrite insert_id|]. split; [reflexivity|].
    split; [reflexivity|]. split; [exact Hleaf|].
    exact (value_of_val _ _ _ Hleaf).
  - exists (switch c false st).
    split; [exact (set_constraint_enabled_off _ _ _ Hc eq_refl)|].
    split; [unfold switch; now rewrite Hc|].
    split; [apply next_switch|].
    split; [intros q _; now rewrite parameters_switch|].
    split; [unfold leaf; now rewrite constraints_of_switch|].
    rewrite value_of_switch. exact (value_of_val _ _ _ Hleaf).
  - destruct (Hadm eq_refl eq_refl) as (par & Hp & Ha).
    exists (assign dep (val st sp) (switch c true st)).
    split.
    { apply (set_constraint_enabled_on _ _ _ _ Hc eq_refl).
      rewrite (run_mirror _ c dep sp _ cs);
        [|now rewrite (constraints_switch_eq _ _ _ _ Hc)
         |now rewrite constraints_of_switch].
      assert (Hv : val (switch c true st) sp = val st sp).
      { unfold val. now rewrite value_of_switch. }
      rewrite Hv, Hd.
      destruct (constraints_of_Some _ _ _ Hleaf) as (par' & Hp' & Hcs').
      assert (par' = par) by congruence. subst par'.
      apply (propagate_leaf d true _ _ _ par);
        [now rewrite parameters_switch|assumption..]. }
    split; [rewrite constraints_assign; unfold switch; now rewrite Hc|].
    split; [now rewrite next_assign, next_switch|].
    split.
    { intros q Hq. rewrite parameters_assign_ne by assumption.
      now rewrite parameters_switch. }
    split; [unfold leaf; now rewrite constraints_of_assign,
                             constraints_of_switch|].
    apply (value_of_assign_eq _ _ (val st dep)).
    rewrite value_of_switch. exact (value_of_val _ _ _ Hleaf).
  - exists st. split; [exact (set_constraint_enabled_same _ _ _ Hc)|].
    split; [now rewrite insert_id|]. split; [reflexivity|].
    split; [reflexivity|]. split; [exact Hleaf|].
    exact (value_of_val _ _ _ Hleaf).
Qed.

(** What [fanned] says of a shared roughness. *)
Lemma fanned_roughness_inv (st : store) (s : t) (sp : nat) (on1 on2 : bool)
    (rest : list link) :
  fanned st sp (roughness_links s on1 on2 ++ rest) ->
  exists c1 c2 cs',
    constraints_of st sp
    = Some (("roughness1", c1) :: ("roughness2", c2)
            :: zip (map lk_key rest) cs')
    /\ constraints st !! c1
       = Some (mirror (LayerApm.roughness (layer1 s)) sp on1)
    /\ constraints st !! c2
       = Some (mirror (LayerApm.roughness (layer2 s)) sp on2)
    /\ Forall2
         (fun c l =>
            constraints st !! c = Some (mirror (lk_dep l) sp (lk_on l)))
         cs' rest
    /\ NoDup (c1 :: c2 :: cs')
    /\ NoDup (sp :: LayerApm.roughness (layer1 s)
              :: LayerApm.roughness (layer2 s) :: map lk_dep rest)
    /\ leaf st (LayerApm.roughness (layer1 s))
    /\ leaf st (LayerApm.roughness (layer2 s))
    /\ Forall (fun l => leaf st (lk_dep l)) rest.
Proof.
  intros (cs & Hsp & Hcs & Hndc & Hnd & Hleaf).
  cbn [roughness_links app] in Hcs, Hleaf, Hnd, Hsp.
  apply Forall2_cons_inv_r in Hcs as (c1 & cs1 & Hc1 & Hcs & ->).
  apply Forall2_cons_inv_r in Hcs as (c2 & cs' & Hc2 & Hcs & ->).
  apply Forall_cons in Hleaf as [L1 Hleaf].
  apply Forall_cons in Hleaf as [L2 Hleaf].
  exists c1, c2, cs'. cbn [lk_dep lk_on lk_key map] in *.
  repeat (split; [assumption|]). assumption.
Qed.

(** The getter answers whether both constraints are enabled. *)
Lemma conformal_roughness_answers (st : store) (s : t) (sp : nat)
    (on1 on2 : bool) (rest : list link) :
  roughness s = Some sp ->
  fanned st sp (roughness_links s on1 on2 ++ rest) ->
  conformal_roughness (s, st) = (Ok (on1 && on2), (s, st)).
Proof.
  intros Hr (c1 & c2 & cs' & Hsp & Hc1 & Hc2 & _)%fanned_roughness_inv.
  unfold conformal_roughness, self_roughness.
  erewrite bind_Ok; [|reflexivity]. cbn [fst]. rewrite Hr. cbn [hasattr].
  erewrite bind_Ok;
    [|erewrite bind_Ok; [|reflexivity]; cbn [fst]; rewrite Hr; reflexivity].
  erewrite bind_Ok;
    [|apply on_store_run;
      apply (get_user_constraint_Ok _ _ c1 _ _ Hsp); reflexivity].
  erewrite bind_Ok;
    [|apply on_store_run; apply (constraint_enabled_Ok _ _ _ Hc1)].
  cbn [mirror c_enabled]. destruct on1; [|reflexivity].
  erewrite bind_Ok;
    [|apply on_store_run;
      apply (get_user_constraint_Ok _ _ c2 _ _ Hsp); reflexivity].
  erewrite on_store_run; [|apply (constraint_enabled_Ok _ _ _ Hc2)].
  reflexivity.
Qed.

(** An assignment to [conformal_roughness] once the shared roughness
    exists. *)
Lemma set_conformal_roughness_again (st : store) (s : t) (sp : nat)
    (on1 on2 x : bool) (rest : list link) :
  1 <= recursion_limit ->
  roughness s = Some sp ->
  fanned st sp (roughness_links s on1 on2 ++ rest) ->
  (on1 = false -> x = true ->
   admitted st true (LayerApm.roughness (layer1 s)) (val st sp)) ->
  (on2 = false -> x = true ->
   admitted st true (LayerApm.roughness (layer2 s)) (val st sp)) ->
  exists st',
    set_conformal_roughness x (s, st) = (Ok tt, (s, st'))
    /\ fanned st' sp (roughness_links s x x ++ rest)
    /\ next st' = next st
    /\ (forall q,
          q ∉ [LayerApm.roughness (layer1 s); LayerApm.roughness (layer2 s)] ->
          parameters st' !! q = parameters st !! q)
    /\ value_of st' (LayerApm.roughness (layer1 s))
       = Some (if negb on1 && x then val st sp
               else val st (LayerApm.roughness (layer1 s)))
    /\ value_of st' (LayerApm.roughness (layer2 s))
       = Some (if negb on2 && x then val st sp
               else val st (LayerApm.roughness (layer2 s)))
    /\ (forall kcs c, constraints_of st sp = Some kcs ->
                      c ∉ map snd kcs ->
                      constraints st' !! c = constraints st !! c).
Proof.
  intros Hlim Hr Hfan A1 A2.
  destruct (fanned_roughness_inv _ _ _ _ _ _ Hfan)
    as (c1 & c2 & cs' & Hsp & Hc1 & Hc2 & Hcs & Hndc & Hnd & L1 & L2 & Hleaf).
  set (r1 := LayerApm.roughness (layer1 s)) in *.
  set (r2 := LayerApm.roughness (layer2 s)) in *.
  assert (Hd1 : r1 <> sp /\ r2 <> sp /\ r1 <> r2
                /\ (r1 ∉ map lk_dep rest) /\ (r2 ∉ map lk_dep rest)
                /\ (sp ∉ map lk_dep rest)).
  { apply NoDup_cons in Hnd as [Hn1 Hnd].
    apply NoDup_cons in Hnd as [Hn2 Hnd].
    apply NoDup_cons in Hnd as [Hn3 Hnd].
    apply not_elem_of_cons in Hn1 as [? Hn1].
    apply not_elem_of_cons in Hn1 as [? Hn1].
    apply not_elem_of_cons in Hn2 as [? Hn2].
    repeat split; congruence || assumption. }
  destruct Hd1 as (D1 & D2 & D12 & D1r & D2r & Dsr).
  assert (Hdc : c1 <> c2 /\ (c1 ∉ cs') /\ (c2 ∉ cs')).
  { apply NoDup_cons in Hndc as [Hn1 Hndc].
    apply NoDup_cons in Hndc as [Hn2 Hndc].
    apply not_elem_of_cons in Hn1 as [? Hn1].
    repeat split; congruence || assumption. }
  destruct Hdc as (C12 & C1r & C2r).
  destruct (toggle_mirror c1 r1 sp on1 x st _ Hlim Hc1 Hsp L1 D1 A1)
    as (st1 & Hrun1 & K1 & N1 & P1 & L1' & V1).
  assert (Hsp1 : constraints_of st1 sp = constraints_of st sp).
  { unfold constraints_of. now rewrite P1 by congruence. }
  assert (Hv1 : val st1 sp = val st sp).
  { unfold val, value_of. now rewrite P1 by congruence. }
  assert (Hc2' : constraints st1 !! c2 = Some (mirror r2 sp on2)).
  { rewrite K1. now rewrite lookup_insert_ne by congruence. }
  assert (L2' : leaf st1 r2).
  { unfold leaf, constraints_of. rewrite P1 by congruence. exact L2. }
  destruct (toggle_mirror c2 r2 sp on2 x st1
              (("roughness1", c1) :: ("roughness2", c2)
               :: zip (map lk_key rest) cs') Hlim Hc2')
    as (st2 & Hrun2 & K2 & N2 & P2 & L2'' & V2);
    [now rewrite Hsp1|exact L2'|exact D2| |].
  { intros H1 H2. rewrite Hv1. apply (admitted_agree st); [|now apply A2].
    apply P1. congruence. }
  exists st2. split.
  { unfold set_conformal_roughness, self_roughness.
    erewrite bind_Ok; [|reflexivity]. cbn [fst]. rewrite Hr.
    cbn [hasattr negb].
    erewrite bind_Ok; [|reflexivity].
    erewrite bind_Ok;
      [|erewrite bind_Ok; [|reflexivity]; cbn [fst]; rewrite Hr;
        reflexivity].
    erewrite bind_Ok;
      [|apply on_store_run;
        apply (get_user_constraint_Ok _ _ c1 _ _ Hsp); reflexivity].
    erewrite bind_Ok; [|apply on_store_run; exact Hrun1].
    erewrite bind_Ok;
      [|apply on_store_run;
        apply (get_user_constraint_Ok _ _ c2 _
                 (("roughness1", c1) :: ("roughness2", c2)
                  :: zip (map lk_key rest) cs'));
        [now rewrite Hsp1|reflexivity]].
    apply on_store_run. exact Hrun2. }
  assert (P12 : forall q, q ∉ [r1; r2] ->
                          parameters st2 !! q = parameters st !! q).
  { intros q Hq. rewrite !not_elem_of_cons in Hq.
    rewrite P2, P1 by intuition congruence. reflexivity. }
  split; [|split; [|split; [|split; [|split]]]].
  - exists (c1 :: c2 :: cs'). cbn [roughness_links app map zip zip_with].
    cbn [lk_key lk_dep lk_on]. fold r1 r2.
    split.
    { unfold constraints_of. rewrite P12; [exact Hsp|]. not_among. }
    split.
    { apply Forall2_cons. split.
      { rewrite K2, K1, lookup_insert_ne by congruence.
        apply lookup_insert_eq. }
      apply Forall2_cons. split; [rewrite K2; apply lookup_insert_eq|].
      apply Forall2_same_length_lookup_2.
      { eapply Forall2_length; exact Hcs. }
      intros i c l Hi Hl.
      pose proof (Forall2_lookup_lr _ _ _ _ _ _ Hcs Hi Hl) as Hcl.
      assert (Hin : c ∈ cs') by (eapply list_elem_of_lookup_2; exact Hi).
      assert (c <> c1) by (intros ->; contradiction).
      assert (c <> c2) by (intros ->; contradiction).
      rewrite K2, K1.
      do 2 (rewrite lookup_insert_ne by (apply not_eq_sym; assumption)).
      exact Hcl. }
    split; [exact Hndc|]. split; [exact Hnd|].
    apply Forall_cons. split; [|apply Forall_cons; split].
    + unfold leaf, constraints_of. rewrite P2 by exact D12. exact L1'.
    + exact L2''.
    + rewrite Forall_forall in Hleaf |- *. intros l Hl.
      unfold leaf, constraints_of. rewrite P12; [now apply Hleaf|].
      assert (Hin : lk_dep l ∈ map lk_dep rest).
      { change (lk_dep l ∈ lk_dep <$> rest).
        now apply list_elem_of_fmap_2. }
      assert (lk_dep l <> r1) by (intros E; rewrite E in Hin; contradiction).
      assert (lk_dep l <> r2) by (intros E; rewrite E in Hin; contradiction).
      not_among.
  - congruence.
  - exact P12.
  - unfold value_of. rewrite P2 by exact D12. exact V1.
  - assert (Hv2 : val st1 r2 = val st r2).
    { unfold val, value_of. now rewrite P1 by (apply not_eq_sym; exact D12). }
    now rewrite V2, Hv1, Hv2.
  - intros kcs c Hk Hc. rewrite Hsp in Hk. injection Hk as <-.
    cbn [map snd] in Hc.
    apply not_elem_of_cons in Hc as [? Hc].
    apply not_elem_of_cons in Hc as [? Hc].
    rewrite K2, K1.
    do 2 (rewrite lookup_insert_ne by (apply not_eq_sym; assumption)).
    reflexivity.
Qed.

(** The first assignment to [conformal_roughness]. *)
Lemma set_conformal_roughness_first (st : store) (s : t) (x : bool) :
  1 <= recursion_limit ->
  roughness s = None ->
  leaf st (LayerApm.roughness (layer1 s)) ->
  leaf st (LayerApm.roughness (layer2 s)) ->
  LayerApm.roughness (layer1 s) <> LayerApm.roughness (layer2 s) ->
  well_formed st ->
  admitted st false (LayerApm.roughness (layer2 s))
    (val st (LayerApm.roughness (layer1 s))) ->
  exists st',
    set_conformal_roughness x (s, st)
    = (Ok tt, (with_roughness (next st) s, st'))
    /\ fanned st' (next st) (roughness_links s x x)
    /\ parameters st !! next st = None
    /\ value_of st' (next st) = Some (val st (LayerApm.roughness (layer1 s)))
    /\ value_of st' (LayerApm.roughness (layer1 s))
       = Some (val st (LayerApm.roughness (layer1 s)))
    /\ value_of st' (LayerApm.roughness (layer2 s))
       = Some (val st (LayerApm.roughness (layer1 s)))
    /\ enabled <$> parameters st' !! next st = Some true
    /\ (forall q,
          q < next st ->
          q ∉ [LayerApm.roughness (layer1 s); LayerApm.roughness (layer2 s)] ->
          parameters st' !! q = parameters st !! q)
    /\ (forall c y, constraints st !! c = Some y ->
                    constraints st' !! c = Some y).
Proof.
  intros Hlim Hnone L1 L2 D12 Hwf A2.
  destruct recursion_limit as [|d] eqn:Hd; [lia|].
  set (r1 := LayerApm.roughness (layer1 s)) in *.
  set (r2 := LayerApm.roughness (layer2 s)) in *.
  set (n := next st) in *. set (v0 := val st r1) in *.
  assert (O1 : r1 < n).
  { destruct (constraints_of_Some _ _ _ L1) as (par & Hp & _).
    exact (proj1 Hwf _ _ Hp). }
  assert (O2 : r2 < n).
  { destruct (constraints_of_Some _ _ _ L2) as (par & Hp & _).
    exact (proj1 Hwf _ _ Hp). }
  assert (Oc : forall c y, constraints st !! c = Some y -> c < n).
  { intros c y Hc. exact (proj2 Hwf _ _ Hc). }
  assert (Hfresh : parameters st !! n = None).
  { destruct (parameters st !! n) as [par|] eqn:Hp; [|reflexivity].
    pose proof (proj1 Hwf _ _ Hp). unfold n in *. lia. }
  assert (Hv1 : value_of st r1 = Some v0) by exact (value_of_val _ _ _ L1).
  set (P0 := {| p_name := "roughness"; raw_value := v0;
                units := o_units (e_options (LayerApm.d_roughness
                                               LayerApm.LAYERAPM_DETAILS));
                p_min := o_min (e_options (LayerApm.d_roughness
                                             LayerApm.LAYERAPM_DETAILS));
                p_max := o_max (e_options (LayerApm.d_roughness
                                             LayerApm.LAYERAPM_DETAILS));
                fixed := o_fixed (e_options (LayerApm.d_roughness
                                               LayerApm.LAYERAPM_DETAILS));
                enabled := true; user_constraints := [] |}).
  set (st1 := {| parameters := <[n := P0]> (parameters st);
                 constraints := constraints st; next := S n |}).
  assert (P1 : forall q, q <> n -> parameters st1 !! q = parameters st !! q).
  { intros q Hq. unfold st1. cbn [parameters].
    now rewrite lookup_insert_ne by (apply not_eq_sym; exact Hq). }
  set (st2 := assign r2 v0 st1).
  assert (Hwrite : propagate (S d) false r2 v0 st1 = Ok st2).
  { destruct A2 as (par & Hp & Ha).
    destruct (constraints_of_Some _ _ _ L2) as (par' & Hp' & Hcs').
    assert (par' = par) by congruence. subst par'.
    apply (propagate_leaf d false _ _ _ par); [|assumption..].
    rewrite P1 by lia. exact Hp. }
  assert (P2 : forall q, q <> n -> q <> r2 ->
                         parameters st2 !! q = parameters st !! q).
  { intros q Hq Hq2. unfold st2. rewrite parameters_assign_ne by exact Hq2.
    now apply P1. }
  assert (CO2 : forall q, q <> n -> constraints_of st2 q = constraints_of st q).
  { intros q Hq. unfold st2. rewrite constraints_of_assign.
    unfold constraints_of. now rewrite P1. }
  assert (P2n : parameters st2 !! n = Some P0).
  { unfold st2. rewrite parameters_assign_ne by lia.
    unfold st1. cbn [parameters]. apply lookup_insert_eq. }
  assert (C2 : constraints st2 = constraints st).
  { unfold st2. now rewrite constraints_assign. }
  assert (Nx2 : next st2 = S n).
  { unfold st2. now rewrite next_assign. }
  set (st3 := {| parameters := parameters st2;
                 constraints :=
                   <[S n := {| dependent := r1; independents := [n];
                               c_rule := ObjectMirror "";
                               c_enabled := true |}]> (constraints st2);
                 next := S (S n) |}).
  set (st4 := {| parameters := parameters st3;
                 constraints :=
                   <[S (S n) := {| dependent := r2; independents := [n];
                                   c_rule := ObjectMirror "";
                                   c_enabled := true |}]> (constraints st3);
                 next := S (S (S n)) |}).
  set (P5 := with_user_constraints
               (dict_set "roughness1" (S n) (user_constraints P0)) P0).
  set (st5 := put_parameter n P5 st4).
  set (P6 := with_user_constraints
               (dict_set "roughness2" (S (S n)) (user_constraints P5)) P5).
  set (st6 := put_parameter n P6 st5).
  assert (Hblock :
    set_conformal_roughness x (s, st)
    = set_conformal_roughness x (with_roughness n s, st6)).
  { symmetry. unfold set_conformal_roughness at 1.
    erewrite bind_Ok; [|reflexivity].
    cbn [fst with_roughness roughness]. cbn [hasattr negb].
    erewrite bind_Ok; [|reflexivity].
    symmetry. unfold set_conformal_roughness at 1.
    erewrite (bind_Ok _ _ (s, st)); [|reflexivity]. cbn [fst].
    rewrite Hnone. cbn [hasattr negb].
    erewrite (bind_Ok _ _ (s, st) (with_roughness n s, st6) tt);
      [reflexivity|].
    fold r1 r2.
    erewrite bind_Ok; [|apply on_store_run, get_value_Ok; exact Hv1].
    erewrite bind_Ok; [|apply on_store_run; reflexivity].
    fold n. fold P0. fold st1.
    erewrite bind_Ok; [|reflexivity].
    cbn [fst snd].
    erewrite bind_Ok;
      [|apply on_store_run, get_value_Ok; unfold value_of;
        rewrite P1; [exact Hv1|lia]].
    erewrite bind_Ok;
      [|apply on_store_run, set_value_Ok; rewrite Hd; exact Hwrite].
    unfold ObjConstraint.
    erewrite bind_Ok;
      [|apply on_store_run, new_constraint_Ok; rewrite Hd;
        cbn [existsb];
        rewrite (reaches_leaf d st2 n r1);
        [reflexivity|rewrite CO2 by lia; exact L1|lia]].
    rewrite Nx2. fold st3.
    erewrite bind_Ok;
      [|apply on_store_run, new_constraint_Ok; rewrite Hd;
        cbn [existsb];
        rewrite (reaches_leaf d st3 n r2);
        [reflexivity
        |change (constraints_of st2 r2 = Some []); rewrite CO2 by lia;
         exact L2
        |lia]].
    cbn [next st3]. fold st3. fold st4.
    erewrite bind_Ok;
      [|apply on_store_run;
        apply (set_user_constraint_Ok n "roughness1" (S n) st4 P0);
        exact P2n].
    fold P5. fold st5.
    apply on_store_run.
    apply (set_user_constraint_Ok n "roughness2" (S (S n)) st5 P5).
    unfold st5. cbn [parameters put_parameter]. apply lookup_insert_eq. }
  assert (P6q : forall q, q <> n -> parameters st6 !! q = parameters st2 !! q).
  { intros q Hq. unfold st6, st5, st4, st3.
    cbn [parameters put_parameter].
    now rewrite !lookup_insert_ne by (apply not_eq_sym; exact Hq). }
  assert (P6n : parameters st6 !! n = Some P6).
  { unfold st6. cbn [parameters put_parameter]. apply lookup_insert_eq. }
  assert (C6 : forall c y, constraints st !! c = Some y ->
                           constraints st6 !! c = Some y).
  { intros c y Hc. pose proof (Oc _ _ Hc).
    unfold st6, st5, st4, st3. cbn [constraints put_parameter].
    rewrite !lookup_insert_ne by lia. now rewrite C2. }
  assert (CO6 : forall q, q <> n -> constraints_of st6 q = constraints_of st q).
  { intros q Hq. unfold constraints_of. rewrite P6q by exact Hq.
    now apply CO2. }
  assert (Hfan6 : fanned st6 n
                    (roughness_links (with_roughness n s) true true ++ [])).
  { exists [S n; S (S n)].
    cbn [roughness_links app map zip zip_with lk_key lk_dep lk_on
         with_roughness layer1 layer2].
    fold r1 r2.
    split; [unfold constraints_of; rewrite P6n; reflexivity|].
    split.
    { apply Forall2_cons. split.
      { unfold st6, st5, st4, st3. cbn [constraints put_parameter].
        rewrite lookup_insert_ne by lia. apply lookup_insert_eq. }
      apply Forall2_cons. split; [|apply Forall2_nil_2].
      unfold st6, st5, st4. cbn [constraints put_parameter].
      apply lookup_insert_eq. }
    split; [all_distinct|]. split; [all_distinct; exact D12|].
    apply Forall_cons. split; [|apply Forall_cons; split; [|apply Forall_nil_2]].
    - change (constraints_of st6 r1 = Some []). rewrite CO6 by lia. exact L1.
    - change (constraints_of st6 r2 = Some []). rewrite CO6 by lia.
      exact L2. }
  destruct (set_conformal_roughness_again st6 (with_roughness n s) n
              true true x [])
    as (st' & Hrun & Hfan & Hnx & Hfr & V1 & V2 & Hc);
    [rewrite Hd; lia|reflexivity|exact Hfan6|discriminate..|].
  cbn [negb andb with_roughness layer1 layer2] in V1, V2, Hfr.
  fold r1 r2 in V1, V2, Hfr.
  exists st'. rewrite Hblock.
  split; [exact Hrun|].
  split; [rewrite app_nil_r in Hfan; exact Hfan|].
  split; [exact Hfresh|].
  assert (Hn12 : n ∉ [r1; r2]) by not_among.
  split; [|split; [|split; [|split; [|split]]]].
  - unfold value_of. rewrite Hfr, P6n by exact Hn12. reflexivity.
  - rewrite V1. unfold val, value_of. rewrite P6q, P2 by lia.
    fold (value_of st r1). now rewrite Hv1.
  - rewrite V2. unfold val, value_of. rewrite P6q by lia.
    fold (value_of st2 r2). unfold st2.
    erewrite value_of_assign_eq; [reflexivity|].
    apply (value_of_val _ _ []). unfold constraints_of.
    rewrite P1 by lia. exact L2.
  - rewrite Hfr, P6n by exact Hn12. reflexivity.
  - intros q Hq Hq12. rewrite Hfr by exact Hq12.
    rewrite P6q by lia. apply not_elem_of_cons in Hq12 as [? Hq12].
    apply not_elem_of_cons in Hq12 as [? _]. apply P2; [lia|assumption].
  - intros c y Hcy. pose proof (Oc _ _ Hcy).
    rewrite (Hc [("roughness1", S n); ("roughness2", S (S n))]).
    + now apply C6.
    + unfold constraints_of. rewrite P6n. reflexivity.
    + cbn [map snd]. not_among.
Qed.

(** X1: the first assignment to [conformal_roughness], of either boolean,
    on a surfactant whose two layers have roughness parameters of their own
    without constraints: it creates the shared roughness with the value of
    layer 1's roughness, writes that value into layer 2's roughness,
    registers the two mirror constraints under roughness1 and roughness2 in
    the assigned state, and leaves the shared parameter enabled whatever
    was assigned; no other older parameter and no older constraint
    changes, and the getter then answers what was assigned. *)
Theorem conformal_roughness_first_assignment (st : store) (s : t)
    (x : bool) :
  1 <= recursion_limit ->
  roughness s = None ->
  leaf st (LayerApm.roughness (layer1 s)) ->
  leaf st (LayerApm.roughness (layer2 s)) ->
  LayerApm.roughness (layer1 s) <> LayerApm.roughness (layer2 s) ->
  well_formed st ->
  admitted st false (LayerApm.roughness (layer2 s))
    (val st (LayerApm.roughness (layer1 s))) ->
  exists st',
    set_conformal_roughness x (s, st)
    = (Ok tt, (with_roughness (next st) s, st'))
    /\ fanned st' (next st) (roughness_links s x x)
    /\ parameters st !! next st = None
    /\ value_of st' (next st) = Some (val st (LayerApm.roughness (layer1 s)))
    /\ value_of st' (LayerApm.roughness (layer1 s))
       = Some (val st (LayerApm.roughness (layer1 s)))
    /\ value_of st' (LayerApm.roughness (layer2 s))
       = Some (val st (LayerApm.roughness (layer1 s)))
    /\ enabled <$> parameters st' !! next st = Some true
    /\ (forall q,
          q < next st ->
          q ∉ [LayerApm.roughness (layer1 s); LayerApm.roughness (layer2 s)] ->
          parameters st' !! q = parameters st !! q)
    /\ (forall c y, constraints st !! c = Some y ->
                    constraints st' !! c = Some y)
    /\ conformal_roughness (with_roughness (next st) s, st')
       = (Ok x, (with_roughness (next st) s, st')).
Proof.
  intros Hlim Hnone L1 L2 D12 Hwf A2.
  destruct (set_conformal_roughness_first st s x Hlim Hnone L1 L2 D12 Hwf A2)
    as (st' & H1 & H2 & H3 & H4 & H5 & H6 & H7 & H8 & H9).
  exists st'. repeat (split; [assumption|]).
  rewrite (conformal_roughness_answers st' (with_roughness (next st) s)
             (next st) x x []);
    [now destruct x|reflexivity|].
  rewrite app_nil_r. exact H2.
Qed.

(** X2: a later assignment to [conformal_roughness] creates nothing: it
    puts the two constraints into the assigned state and leaves every
    other link of the shared roughness, every other constraint and every
    parameter but the two layers' roughness as they were. The roughness of
    a layer takes the value of the shared roughness when its constraint
    goes from disabled to enabled and keeps its value otherwise; the getter
    then answers what was assigned. *)
Theorem conformal_roughness_later_assignment (st : store) (s : t) (sp : nat)
    (on1 on2 x : bool) (rest : list link) :
  1 <= recursion_limit ->
  roughness s = Some sp ->
  fanned st sp (roughness_links s on1 on2 ++ rest) ->
  (on1 = false -> x = true ->
   admitted st true (LayerApm.roughness (layer1 s)) (val st sp)) ->
  (on2 = false -> x = true ->
   admitted st true (LayerApm.roughness (layer2 s)) (val st sp)) ->
  exists st',
    set_conformal_roughness x (s, st) = (Ok tt, (s, st'))
    /\ fanned st' sp (roughness_links s x x ++ rest)
    /\ next st' = next st
    /\ (forall q,
          q ∉ [LayerApm.roughness (layer1 s); LayerApm.roughness (layer2 s)] ->
          parameters st' !! q = parameters st !! q)
    /\ value_of st' (LayerApm.roughness (layer1 s))
       = Some (if negb on1 && x then val st sp
               else val st (LayerApm.roughness (layer1 s)))
    /\ value_of st' (LayerApm.roughness (layer2 s))
       = Some (if negb on2 && x then val st sp
               else val st (LayerApm.roughness (layer2 s)))
    /\ (forall kcs c, constraints_of st sp = Some kcs ->
                      c ∉ map snd kcs ->
                      constraints st' !! c = constraints st !! c)
    /\ conformal_roughness (s, st') = (Ok x, (s, st')).
Proof.
  intros Hlim Hr Hfan A1 A2.
  destruct (set_conformal_roughness_again st s sp on1 on2 x rest Hlim Hr Hfan
              A1 A2)
    as (st' & H1 & H2 & H3 & H4 & H5 & H6 & H7).
  exists st'. repeat (split; [assumption|]).
  rewrite (conformal_roughness_answers st' s sp x x rest Hr H2).
  now destruct x.
Qed.

(** A write of a parameter that carries mirror constraints. *)
Lemma set_value_fanned (st : store) (sp : nat) (links : list link) (v : Q) :
  2 <= recursion_limit ->
  fanned st sp links ->
  admitted st false sp v ->
  Forall (fun q => admitted st true q v) (live links) ->
  exists st',
    set_value sp v st = (Ok tt, st')
    /\ value_of st' sp = Some v
    /\ (forall q, q ∈ live links -> value_of st' q = Some v)
    /\ (forall q, q ∉ sp :: live links ->
                  parameters st' !! q = parameters st !! q)
    /\ constraints st' = constraints st
    /\ next st' = next st.
Proof.
  intros Hlim Hfan Ha Hadm.
  destruct recursion_limit as [|[|d]] eqn:Hd; [lia..|].
  unfold set_value, atomically. rewrite Hd.
  rewrite (write_fanned d false st sp links v Hfan Ha Hadm).
  destruct Hfan as (cs & Hsp & Hcs & Hndc & Hnd & Hleaf).
  assert (Hsp_live : sp ∉ live links).
  { intros H%live_subseteq. apply NoDup_cons in Hnd as [Hn _]. now apply Hn. }
  eexists. split; [reflexivity|].
  split; [|split; [|split; [|split]]].
  - unfold value_of. rewrite parameters_assign_all_ne by exact Hsp_live.
    apply (value_of_assign_eq _ _ _ _ (value_of_val _ _ _ Hsp)).
  - intros q Hq. apply value_of_assign_all_in; [exact Hq|].
    intros p Hp%live_subseteq. exists []. rewrite constraints_of_assign.
    rewrite Forall_forall in Hleaf.
    change (p ∈ lk_dep <$> links) in Hp.
    apply list_elem_of_fmap_1 in Hp as (l & -> & Hl). now apply Hleaf.
  - intros q Hq. apply not_elem_of_cons in Hq as [Hq1 Hq2].
    rewrite parameters_assign_all_ne by exact Hq2.
    now apply parameters_assign_ne.
  - now rewrite constraints_assign_all, constraints_assign.
  - now rewrite next_assign_all, next_assign.
Qed.

(** X3: a write of a shared parameter that carries mirror constraints, as
    the shared roughness does: the value goes into the shared parameter and
    into the dependent of every enabled constraint; the dependents of the
    disabled ones, every other parameter and every constraint stay as they
    were. *)
Theorem write_shared_roughness (st : store) (sp : nat) (links : list link)
    (v : Q) :
  2 <= recursion_limit ->
  fanned st sp links ->
  admitted st false sp v ->
  Forall (fun q => admitted st true q v) (live links) ->
  exists st',
    set_value sp v st = (Ok tt, st')
    /\ value_of st' sp = Some v
    /\ (forall q, q ∈ live links -> value_of st' q = Some v)
    /\ (forall q, q ∉ sp :: live links ->
                  parameters st' !! q = parameters st !! q)
    /\ constraints st' = constraints st
    /\ next st' = next st.
Proof. exact (set_value_fanned st sp links v). Qed.

(** X4: called while the roughness is conformal, with a solvent roughness
    that carries no constraint and is none of the three roughness
    parameters, [constrain_solvent_roughness] writes the value of the
    shared roughness into the solvent roughness and registers one new
    mirror constraint under the key solvent_roughness, after the two of
    the layers; a constraint registered under that key by an earlier call
    is replaced, so that the earlier solvent roughness is no longer
    linked. Nothing else changes. *)
Theorem constrain_solvent_roughness_links (st : store) (s : t) (sp : nat)
    (solvent_roughness : nat) (rest : list link) :
  1 <= recursion_limit ->
  roughness s = Some sp ->
  fanned st sp (roughness_links s true true ++ rest) ->
  rest = [] \/ (exists old on, rest = [solvent_link old on]) ->
  leaf st solvent_roughness ->
  solvent_roughness
    ∉ [sp; LayerApm.roughness (layer1 s); LayerApm.roughness (layer2 s)] ->
  well_formed st ->
  admitted st false solvent_roughness (val st sp) ->
  exists st',
    constrain_solvent_roughness solvent_roughness (s, st)
    = (Ok tt, (s, st'))
    /\ fanned st' sp
         (roughness_links s true true ++ [solvent_link solvent_roughness true])
    /\ value_of st' solvent_roughness = Some (val st sp)
    /\ value_of st' sp = value_of st sp
    /\ (forall q, q ∉ [sp; solvent_roughness] ->
                  parameters st' !! q = parameters st !! q)
    /\ (forall c y, constraints st !! c = Some y ->
                    constraints st' !! c = Some y)
    /\ next st' = S (next st).
Proof.
  intros Hlim Hr Hfan Hrest Lsr Hsr Hwf Asr.
  destruct recursion_limit as [|d] eqn:Hd; [lia|].
  pose proof (conformal_roughness_answers _ _ _ _ _ _ Hr Hfan) as Hget.
  destruct (fanned_roughness_inv _ _ _ _ _ _ Hfan)
    as (c1 & c2 & cs' & Hsp & Hc1 & Hc2 & Hcs & Hndc & Hnd & L1 & L2 & Hleaf).
  set (r1 := LayerApm.roughness (layer1 s)) in *.
  set (r2 := LayerApm.roughness (layer2 s)) in *.
  set (sr := solvent_roughness) in *.
  set (n := next st) in *. set (v := val st sp) in *.
  apply not_elem_of_cons in Hsr as [S0 Hsr].
  apply not_elem_of_cons in Hsr as [S1 Hsr].
  apply not_elem_of_cons in Hsr as [S2 _].
  assert (Oc : forall c y, constraints st !! c = Some y -> c < n).
  { intros c y Hc. exact (proj2 Hwf _ _ Hc). }
  pose proof (Oc _ _ Hc1) as O1. pose proof (Oc _ _ Hc2) as O2.
  destruct (constraints_of_Some _ _ _ Hsp) as (par & Hp & Hkcs).
  set (st1 := assign sr v st).
  assert (Hwrite : propagate (S d) false sr v st = Ok st1).
  { destruct Asr as (psr & Hpsr & Ha).
    destruct (constraints_of_Some _ _ _ Lsr) as (psr' & Hpsr' & Hcsr).
    assert (psr' = psr) by congruence. subst psr'.
    now apply (propagate_leaf d false _ _ _ psr). }
  set (st2 := {| parameters := parameters st1;
                 constraints :=
                   <[n := {| dependent := sr; independents := [sp];
                             c_rule := ObjectMirror "";
                             c_enabled := true |}]> (constraints st1);
                 next := S n |}).
  set (kcs' := dict_set "solvent_roughness" n (user_constraints par)).
  set (st3 := put_parameter sp (with_user_constraints kcs' par) st2).
  assert (P1sp : parameters st1 !! sp = Some par).
  { unfold st1. rewrite parameters_assign_ne by (apply not_eq_sym; exact S0).
    exact Hp. }
  exists st3. split.
  { unfold constrain_solvent_roughness.
    erewrite bind_Ok; [|exact Hget]. cbn [andb negb].
    unfold self_roughness.
    erewrite bind_Ok;
      [|erewrite bind_Ok; [|reflexivity]; cbn [fst]; rewrite Hr;
        reflexivity].
    erewrite bind_Ok;
      [|apply on_store_run, get_value_Ok; exact (value_of_val _ _ _ Hsp)].
    fold v.
    erewrite bind_Ok;
      [|apply on_store_run, set_value_Ok; rewrite Hd; exact Hwrite].
    unfold ObjConstraint.
    erewrite bind_Ok;
      [|apply on_store_run, new_constraint_Ok; rewrite Hd; cbn [existsb];
        rewrite (reaches_leaf d st1 sp sr);
        [reflexivity
        |unfold st1; rewrite constraints_of_assign; exact Lsr
        |exact S0]].
    assert (Hn1 : next st1 = n) by (unfold st1; apply next_assign).
    rewrite Hn1. fold st2.
    apply on_store_run.
    apply (set_user_constraint_Ok sp "solvent_roughness" n st2 par).
    exact P1sp. }
  assert (Hk : kcs' = [("roughness1", c1); ("roughness2", c2);
                       ("solvent_roughness", n)]).
  { unfold kcs'. rewrite Hkcs.
    destruct Hrest as [->|(old & on & ->)].
    - destruct cs'; reflexivity.
    - apply Forall2_cons_inv_r in Hcs as (c3 & cs'' & _ & Hcs & ->).
      apply Forall2_nil_inv_r in Hcs as ->. reflexivity. }
  assert (P3 : forall q, q <> sp -> q <> sr ->
                         parameters st3 !! q = parameters st !! q).
  { intros q Hq1 Hq2. unfold st3, st2. cbn [parameters put_parameter].
    rewrite lookup_insert_ne by (apply not_eq_sym; exact Hq1).
    unfold st1. now apply parameters_assign_ne. }
  assert (C3 : forall c, c <> n -> constraints st3 !! c = constraints st !! c).
  { intros c Hc. unfold st3, st2. cbn [constraints put_parameter].
    rewrite lookup_insert_ne by (apply not_eq_sym; exact Hc).
    unfold st1. now rewrite constraints_assign. }
  assert (D : r1 <> sp /\ r2 <> sp /\ r1 <> r2).
  { apply NoDup_cons in Hnd as [Hn1 Hnd].
    apply NoDup_cons in Hnd as [Hn2 Hnd].
    apply not_elem_of_cons in Hn1 as [? Hn1].
    apply not_elem_of_cons in Hn1 as [? Hn1].
    apply not_elem_of_cons in Hn2 as [? Hn2].
    repeat split; congruence || assumption. }
  destruct D as (D1 & D2 & D12).
  split; [|split; [|split; [|split; [|split]]]].
  - exists [c1; c2; n].
    cbn [roughness_links solvent_link app map zip zip_with lk_key lk_dep
         lk_on].
    fold r1 r2 sr.
    split.
    { unfold constraints_of, st3. cbn [parameters put_parameter].
      rewrite lookup_insert_eq. cbn [fmap option_fmap option_map
                                      with_user_constraints user_constraints].
      now rewrite Hk. }
    split.
    { apply Forall2_cons. split; [rewrite C3 by lia; exact Hc1|].
      apply Forall2_cons. split; [rewrite C3 by lia; exact Hc2|].
      apply Forall2_cons. split; [|apply Forall2_nil_2].
      unfold st3, st2. cbn [constraints put_parameter].
      apply lookup_insert_eq. }
    split.
    { apply NoDup_cons in Hndc as [Hn1 Hndc].
      apply not_elem_of_cons in Hn1 as [? _].
      all_distinct. }
    split.
    { repeat (apply NoDup_cons; split; [not_among|]). apply NoDup_nil_2. }
    apply Forall_cons. split; [|apply Forall_cons; split;
                                 [|apply Forall_cons; split;
                                    [|apply Forall_nil_2]]].
    + change (constraints_of st3 r1 = Some []). unfold constraints_of.
      rewrite P3 by (exact D1 || (apply not_eq_sym; exact S1)). exact L1.
    + change (constraints_of st3 r2 = Some []). unfold constraints_of.
      rewrite P3 by (exact D2 || (apply not_eq_sym; exact S2)). exact L2.
    + change (constraints_of st3 sr = Some []). unfold constraints_of, st3, st2.
      cbn [parameters put_parameter].
      rewrite lookup_insert_ne by (apply not_eq_sym; exact S0).
      change (constraints_of st1 sr = Some []). unfold st1.
      rewrite constraints_of_assign. exact Lsr.
  - unfold value_of, st3, st2. cbn [parameters put_parameter].
    rewrite lookup_insert_ne by (apply not_eq_sym; exact S0).
    apply (value_of_assign_eq _ _ _ _ (value_of_val _ _ _ Lsr)).
  - unfold value_of, st3. cbn [parameters put_parameter].
    rewrite lookup_insert_eq, Hp. reflexivity.
  - intros q Hq. apply not_elem_of_cons in Hq as [Hq1 Hq].
    apply not_elem_of_cons in Hq as [Hq2 _]. now apply P3.
  - intros c y Hc. pose proof (Oc _ _ Hc). rewrite C3 by lia. exact Hc.
  - reflexivity.
Qed.

(** X5: the constraint of the solvent roughness is not among those an
    assignment to [conformal_roughness] switches: after
    [conformal_roughness = False] the getter answers False, and a write of
    the shared roughness still goes into the solvent roughness, while the
    roughness of the two layers keeps its value. *)
Theorem solvent_roughness_outlives_conformal_roughness (st : store) (s : t)
    (sp solvent_roughness : nat) (v : Q) :
  2 <= recursion_limit ->
  roughness s = Some sp ->
  fanned st sp
    (roughness_links s true true ++ [solvent_link solvent_roughness true]) ->
  admitted st false sp v ->
  admitted st true solvent_roughness v ->
  exists st1 st2,
    set_conformal_roughness false (s, st) = (Ok tt, (s, st1))
    /\ conformal_roughness (s, st1) = (Ok false, (s, st1))
    /\ set_value sp v st1 = (Ok tt, st2)
    /\ value_of st2 sp = Some v
    /\ value_of st2 solvent_roughness = Some v
    /\ value_of st2 (LayerApm.roughness (layer1 s))
       = value_of st (LayerApm.roughness (layer1 s))
    /\ value_of st2 (LayerApm.roughness (layer2 s))
       = value_of st (LayerApm.roughness (layer2 s)).
Proof.
  intros Hlim Hr Hfan Asp Asr.
  set (sr := solvent_roughness) in *.
  destruct (fanned_roughness_inv _ _ _ _ _ _ Hfan)
    as (c1 & c2 & cs' & Hsp & Hc1 & Hc2 & Hcs & Hndc & Hnd & L1 & L2 & Hleaf).
  set (r1 := LayerApm.roughness (layer1 s)) in *.
  set (r2 := LayerApm.roughness (layer2 s)) in *.
  assert (D : sp <> r1 /\ sp <> r2 /\ sr <> r1 /\ sr <> r2).
  { cbn [map solvent_link lk_dep] in Hnd.
    apply NoDup_cons in Hnd as [Hn1 Hnd].
    apply NoDup_cons in Hnd as [Hn2 Hnd].
    apply NoDup_cons in Hnd as [Hn3 Hnd].
    apply not_elem_of_cons in Hn1 as [? Hn1].
    apply not_elem_of_cons in Hn1 as [? Hn1].
    apply not_elem_of_cons in Hn2 as [? Hn2].
    apply not_elem_of_cons in Hn2 as [? Hn2].
    apply not_elem_of_cons in Hn3 as [? Hn3].
    repeat split; congruence || assumption. }
  destruct D as (D1 & D2 & D3 & D4).
  destruct (set_conformal_roughness_again st s sp true true false
              [solvent_link sr true])
    as (st1 & Hrun & Hfan1 & N1 & Hfr & V1 & V2 & Hc);
    [lia|exact Hr|exact Hfan|discriminate..|].
  cbn [negb andb] in V1, V2. fold r1 r2 in V1, V2, Hfr.
  destruct (set_value_fanned st1 sp
              (roughness_links s false false ++ [solvent_link sr true]) v)
    as (st2 & Hw & Vsp & Vlive & Hfr2 & _); [exact Hlim|exact Hfan1| |  |].
  - apply (admitted_agree st); [|exact Asp]. apply Hfr. not_among.
  - change (Forall (fun q => admitted st1 true q v) [sr]).
    apply Forall_cons. split; [|apply Forall_nil_2].
    apply (admitted_agree st); [|exact Asr]. apply Hfr. not_among.
  - change (live (roughness_links s false false ++ [solvent_link sr true]))
      with [sr] in Vlive, Hfr2.
    exists st1, st2. split; [exact Hrun|].
    split; [exact (conformal_roughness_answers _ _ _ _ _ _ Hr Hfan1)|].
    split; [exact Hw|]. split; [exact Vsp|].
    split; [apply Vlive; now left|].
    split.
    + unfold value_of at 1. rewrite Hfr2 by not_among.
      fold (value_of st1 r1). rewrite V1.
      symmetry. exact (value_of_val _ _ _ L1).
    + unfold value_of at 1. rewrite Hfr2 by not_among.
      fold (value_of st1 r2). rewrite V2.
      symmetry. exact (value_of_val _ _ _ L2).
Qed.

End ConformalRoughness.

(** ** The roughness of the example surfactant *)

Ltac links_by_computation cs :=
  exists cs;
  split; [vm_compute; reflexivity|];
  split;
  [repeat (apply Forall2_cons; split; [vm_compute; reflexivity|]);
   apply Forall2_nil_2|];
  split; [all_distinct|];
  split; [vm_compute; all_distinct|];
  repeat (apply Forall_cons; split; [vm_compute; reflexivity|]);
  apply Forall_nil_2.

Section DppcRoughness.
Import Wiring Sharing Examples.
#[local] Existing Instance externals.

Lemma dppc_conformal_is :
  SurfactantLayer.set_conformal_roughness true (dppc, dppc_store)
  = (Ok tt, dppc_conformal)
  /\ fst dppc_conformal = with_roughness 24 dppc.
Proof. split; vm_compute; reflexivity. Qed.

Lemma dppc_conformal_fanned :
  fanned (snd dppc_conformal) 24
    (roughness_links (fst dppc_conformal) true true ++ []).
Proof. links_by_computation [25; 26]. Qed.

Lemma dppc_conformal_released_fanned :
  fanned dppc_conformal_released 24
    (roughness_links (fst dppc_conformal) true true).
Proof. links_by_computation [25; 26]. Qed.

Lemma with_solvent_roughness_fanned :
  fanned with_solvent_roughness 24
    (roughness_links (fst dppc_conformal) true true ++ []).
Proof. links_by_computation [25; 26]. Qed.

Lemma with_solvent_roughness_well_formed : well_formed with_solvent_roughness.
Proof. split; apply (bool_decide_unpack _); vm_compute; exact I. Qed.

Lemma dppc_solvent_constrained_fanned :
  fanned dppc_solvent_constrained 24
    (roughness_links (fst dppc_conformal) true true
     ++ [solvent_link 27 true]).
Proof. links_by_computation [25; 26; 28]. Qed.

(** X1, witness: [dppc.conformal_roughness = True] on the example
    surfactant. *)
Lemma conformal_roughness_first_assignment_witness :
  let s := dppc in
  let st := dppc_store in
  let x := true in
  exists st',
    SurfactantLayer.set_conformal_roughness x (s, st)
    = (Ok tt, (with_roughness (next st) s, st'))
    /\ fanned st' (next st) (roughness_links s x x)
    /\ parameters st !! next st = None
    /\ value_of st' (next st)
       = Some (val st (LayerApm.roughness (SurfactantLayer.layer1 s)))
    /\ value_of st' (LayerApm.roughness (SurfactantLayer.layer1 s))
       = Some (val st (LayerApm.roughness (SurfactantLayer.layer1 s)))
    /\ value_of st' (LayerApm.roughness (SurfactantLayer.layer2 s))
       = Some (val st (LayerApm.roughness (SurfactantLayer.layer1 s)))
    /\ enabled <$> parameters st' !! next st = Some true
    /\ (forall q,
          q < next st ->
          q ∉ [LayerApm.roughness (SurfactantLayer.layer1 s);
               LayerApm.roughness (SurfactantLayer.layer2 s)] ->
          parameters st' !! q = parameters st !! q)
    /\ (forall c y, constraints st !! c = Some y ->
                    constraints st' !! c = Some y)
    /\ SurfactantLayer.conformal_roughness (with_roughness (next st) s, st')
       = (Ok x, (with_roughness (next st) s, st')).
Proof.
  intros s st x.
  apply (conformal_roughness_first_assignment st s x).
  - simpl. lia.
  - reflexivity.
  - vm_compute. reflexivity.
  - vm_compute. reflexivity.
  - vm_compute. lia.
  - exact dppc_well_formed.
  - eexists. split; vm_compute; reflexivity.
Defined.

(** X2, witness: [dppc.conformal_roughness = False] after it has been
    True. *)
Lemma conformal_roughness_later_assignment_witness :
  let s := fst dppc_conformal in
  let st := snd dppc_conformal in
  let sp := 24 in
  let on1 := true in
  let on2 := true in
  let x := false in
  let rest := [] in
  exists st',
    SurfactantLayer.set_conformal_roughness x (s, st) = (Ok tt, (s, st'))
    /\ fanned st' sp (roughness_links s x x ++ rest)
    /\ next st' = next st
    /\ (forall q,
          q ∉ [LayerApm.roughness (SurfactantLayer.layer1 s);
               LayerApm.roughness (SurfactantLayer.layer2 s)] ->
          parameters st' !! q = parameters st !! q)
    /\ value_of st' (LayerApm.roughness (SurfactantLayer.layer1 s))
       = Some (if negb on1 && x then val st sp
               else val st (LayerApm.roughness (SurfactantLayer.layer1 s)))
    /\ value_of st' (LayerApm.roughness (SurfactantLayer.layer2 s))
       = Some (if negb on2 && x then val st sp
               else val st (LayerApm.roughness (SurfactantLayer.layer2 s)))
    /\ (forall kcs c, constraints_of st sp = Some kcs ->
                      c ∉ map snd kcs ->
                      constraints st' !! c = constraints st !! c)
    /\ SurfactantLayer.conformal_roughness (s, st') = (Ok x, (s, st')).
Proof.
  intros s st sp on1 on2 x rest.
  apply (conformal_roughness_later_assignment st s sp on1 on2 x rest).
  - simpl. lia.
  - vm_compute. reflexivity.
  - exact dppc_conformal_fanned.
  - discriminate.
  - discriminate.
Defined.

(** X3, witness: the caller writes 4 into the shared roughness of the
    example surfactant. *)
Lemma write_shared_roughness_witness :
  let st := dppc_conformal_released in
  let sp := 24 in
  let links := roughness_links (fst dppc_conformal) true true in
  let v := 4%Q in
  exists st',
    set_value sp v st = (Ok tt, st')
    /\ value_of st' sp = Some v
    /\ (forall q, q ∈ live links -> value_of st' q = Some v)
    /\ (forall q, q ∉ sp :: live links ->
                  parameters st' !! q = parameters st !! q)
    /\ constraints st' = constraints st
    /\ next st' = next st.
Proof.
  intros st sp links v.
  apply (write_shared_roughness st sp links v).
  - simpl. lia.
  - exact dppc_conformal_released_fanned.
  - eexists. split; vm_compute; reflexivity.
  - repeat (apply Forall_cons; split;
            [eexists; split; vm_compute; reflexivity|]).
    apply Forall_nil_2.
Defined.

(** X4, witness: [dppc.constrain_solvent_roughness] with a solvent
    roughness of its own. *)
Lemma constrain_solvent_roughness_links_witness :
  let s := fst dppc_conformal in
  let st := with_solvent_roughness in
  let sp := 24 in
  let solvent_roughness := 27 in
  exists st',
    SurfactantLayer.constrain_solvent_roughness solvent_roughness (s, st)
    = (Ok tt, (s, st'))
    /\ fanned st' sp
         (roughness_links s true true ++ [solvent_link solvent_roughness true])
    /\ value_of st' solvent_roughness = Some (val st sp)
    /\ value_of st' sp = value_of st sp
    /\ (forall q, q ∉ [sp; solvent_roughness] ->
                  parameters st' !! q = parameters st !! q)
    /\ (forall c y, constraints st !! c = Some y ->
                    constraints st' !! c = Some y)
    /\ next st' = S (next st).
Proof.
  intros s st sp solvent_roughness.
  apply (constrain_solvent_roughness_links st s sp solvent_roughness []).
  - simpl. lia.
  - vm_compute. reflexivity.
  - exact with_solvent_roughness_fanned.
  - now left.
  - vm_compute. reflexivity.
  - apply (bool_decide_unpack _). vm_compute. exact I.
  - exact with_solvent_roughness_well_formed.
  - eexists. split; vm_compute; reflexivity.
Defined.

(** X5, witness: after [dppc.conformal_roughness = False] the caller
    writes 4 into the shared roughness. *)
Lemma solvent_roughness_outlives_conformal_roughness_witness :
  let s := fst dppc_conformal in
  let st := dppc_solvent_constrained in
  let sp := 24 in
  let solvent_roughness := 27 in
  let v := 4%Q in
  exists st1 st2,
    SurfactantLayer.set_conformal_roughness false (s, st) = (Ok tt, (s, st1))
    /\ SurfactantLayer.conformal_roughness (s, st1) = (Ok false, (s, st1))
    /\ set_value sp v st1 = (Ok tt, st2)
    /\ value_of st2 sp = Some v
    /\ value_of st2 solvent_roughness = Some v
    /\ value_of st2 (LayerApm.roughness (SurfactantLayer.layer1 s))
       = value_of st (LayerApm.roughness (SurfactantLayer.layer1 s))
    /\ value_of st2 (LayerApm.roughness (SurfactantLayer.layer2 s))
       = value_of st (LayerApm.roughness (SurfactantLayer.layer2 s)).
Proof.
  intros s st sp solvent_roughness v.
  apply (solvent_roughness_outlives_conformal_roughness st s sp
           solvent_roughness v).
  - simpl. lia.
  - vm_compute. reflexivity.
  - exact dppc_solvent_constrained_fanned.
  - eexists. split; vm_compute; reflexivity.
  - eexists. split; vm_compute; reflexivity.
Defined.

End DppcRoughness.

(** ** The isld of a layer and its molecular formula *)

Section ImaginaryPart.
Context {ext : Externals}.
Import Wiring Sharing.

(** The write of the imaginary scattering length of a wired layer: the
    isld of the material is recomputed and nothing else changes. *)
Lemma write_scattering_length_imag (d : nat) (b : bool) (st : store)
    key ikey fn l (v : Q) :
  wired st key ikey fn l ->
  admitted st b (sl_im l) v ->
  lenient st (m_isld l) ->
  propagate (S (S d)) b (sl_im l) v st
  = Ok (assign (m_isld l) (isld_in (assign (sl_im l) v st) fn l)
          (assign (sl_im l) v st)).
Proof.
  intros (c & ic & Hsl & Hsli & Hth & Hapm & Hsld & Hisld & Hc & Hic & Hnd)
    (par & Hp & Ha) Li.
  distinct Hnd.
  rewrite (propagate_unfold _ _ _ _ _ par Hp Ha).
  destruct (constraints_of_Some _ _ _ Hsli) as (par' & Hq & Hcs).
  assert (par' = par) by congruence. subst par'. rewrite Hcs.
  set (st1 := assign (sl_im l) v st).
  unfold run_constraints.
  rewrite (run_functional_leaf d ic (m_isld l) (sl_im l) (th l) (apm l) fn st1
             [(ikey, ic)] [(key, c); (ikey, ic)] [(key, c); (ikey, ic)]);
    unfold st1; rewrite ?constraints_of_assign, ?constraints_assign;
    try assumption;
    [|apply lenient_assign_ne; [intuition congruence|assumption]].
  reflexivity.
Qed.

(** Once the isld has been recomputed it is the function of the three
    values. *)
Lemma isld_follows_after (st : store) key ikey fn l :
  wired st key ikey fn l ->
  isld_follows (assign (m_isld l) (isld_in st fn l) st) fn l.
Proof.
  intros (c & ic & Hsl & Hsli & Hth & Hapm & Hsld & Hisld & Hc & Hic & Hnd).
  distinct Hnd.
  exists (val st (sl_im l)), (val st (th l)), (val st (apm l)).
  rewrite !(value_of_assign_ne (m_isld l)) by (intuition congruence).
  split; [apply (value_of_val _ _ _ Hsli)|].
  split; [apply (value_of_val _ _ _ Hth)|].
  split; [apply (value_of_val _ _ _ Hapm)|].
  apply (value_of_assign_eq _ _ (val st (m_isld l))).
  apply (value_of_val _ _ _ Hisld).
Qed.

Lemma isld_in_assign_sld (st : store) key ikey fn l (w : Q) :
  wired st key ikey fn l ->
  isld_in (assign (m_sld l) w st) fn l = isld_in st fn l.
Proof.
  intros (c & ic & Hsl & Hsli & Hth & Hapm & Hsld & Hisld & Hc & Hic & Hnd).
  distinct Hnd. unfold isld_in.
  rewrite (val_assign_ne (m_sld l) (sl_im l)) by intuition congruence.
  rewrite (val_assign_ne (m_sld l) (th l)) by intuition congruence.
  now rewrite (val_assign_ne (m_sld l) (apm l)) by intuition congruence.
Qed.

Lemma write_independent_imag key ikey fn l (st : store) (p : nat) (v : Q) :
  2 <= recursion_limit ->
  wired st key ikey fn l ->
  p ∈ [sl_im l; th l; apm l] ->
  admitted st false p v ->
  lenient st (m_sld l) ->
  lenient st (m_isld l) ->
  exists st',
    set_value p v st = (Ok tt, st')
    /\ wired st' key ikey fn l
    /\ isld_follows st' fn l.
Proof.
  intros Hlim Hw Hp Ha Ls Li.
  destruct recursion_limit as [|[|d]] eqn:Hd; [lia..|].
  unfold set_value, atomically. rewrite Hd.
  rewrite !elem_of_cons, elem_of_nil in Hp.
  assert (Hshared : p = th l \/ p = apm l ->
    exists st',
      match propagate (S (S d)) false p v st with
      | Ok st' => (Ok tt, st')
      | Error e => (Error e, st)
      end = (Ok tt, st')
      /\ wired st' key ikey fn l /\ isld_follows st' fn l).
  { intros Hp'.
    rewrite (write_shared_input d false st key ikey fn l p v) by auto.
    eexists. split; [reflexivity|]. split.
    - now do 3 apply wired_assign.
    - rewrite <- (isld_in_assign_sld (assign p v st) key ikey fn l
                    (sld_in (assign p v st) fn l))
        by (now apply wired_assign).
      apply (isld_follows_after _ key ikey). now do 2 apply wired_assign. }
  destruct Hp as [->|[Hp|[Hp|[]]]]; [|auto..].
  rewrite (write_scattering_length_imag d false st key ikey fn l v)
    by assumption.
  eexists. split; [reflexivity|]. split.
  - now do 2 apply wired_assign.
  - apply (isld_follows_after _ key ikey). now apply wired_assign.
Qed.

End ImaginaryPart.

(** ** What the constructors leave in the store *)

Ltac older_objects :=
  repeat (apply map_Forall_insert_2; [cbn [next put_parameter]; lia|]);
  eapply map_Forall_impl; [eassumption|];
  cbn beta; intros; cbn [next put_parameter]; lia.

Section Constructors.
Context {ext : Externals}.
Import Wiring Sharing.

(** [LayerApm.from_pars] creates ten objects, the eight parameters and the
    two constraints of the layer, and touches no older object. *)
Lemma LayerApm_from_pars_frame (formula : string) (thickness : Q)
    (solvent : Material.t) (solvation area_per_molecule roughness : Q)
    (name : string) (st : store) :
  1 <= recursion_limit ->
  exists L st',
    LayerApm.from_pars formula thickness solvent solvation area_per_molecule
      roughness name st = (Ok L, st')
    /\ wired st' "apm" "iapm" apm_to_sld_fn (of_LayerApm L)
    /\ next st' = 10 + next st
    /\ (forall q, q ∈ LayerApm.roughness L :: LayerApm.solvation L
                      :: ids (of_LayerApm L) ->
                  next st <= q < next st')
    /\ NoDup (LayerApm.roughness L :: LayerApm.solvation L
              :: ids (of_LayerApm L))
    /\ leaf st' (LayerApm.roughness L)
    /\ leaf st' (LayerApm.solvation L)
    /\ value_of st' (LayerApm.thickness L) = Some thickness
    /\ value_of st' (LayerApm.area_per_molecule L) = Some area_per_molecule
    /\ value_of st' (LayerApm.roughness L) = Some roughness
    /\ value_of st' (LayerApm.solvation L) = Some solvation
    /\ value_of st' (m_sld (of_LayerApm L))
       = Some (apm_to_sld (fst (neutron_scattering_length formula))
                 thickness area_per_molecule)
    /\ value_of st' (m_isld (of_LayerApm L))
       = Some (apm_to_sld (snd (neutron_scattering_length formula))
                 thickness area_per_molecule)
    /\ (forall q, q < next st -> parameters st' !! q = parameters st !! q)
    /\ (forall c, c < next st -> constraints st' !! c = constraints st !! c)
    /\ (well_formed st -> well_formed st')
    /\ LayerApm.molecular_formula L = formula
    /\ LayerApm.solvent L = solvent.
Proof.
  intros Hlim. destruct recursion_limit as [|d] eqn:Hd; [lia|].
  unfold LayerApm.from_pars, LayerApm.init.
  do 6 run_new. do 4 run_get. run_material.
  unfold FunctionalConstraint.
  run_new_constraint Hd. do 3 run_set.
  run_new_constraint Hd. do 3 run_set.
  unfold ret. eexists _, _. split; [reflexivity|].
  unfold leaf, LayerApm.solvation, LayerApm.solvent, LayerApm.molecular_formula,
    ids.
  layer_fields.
  cbn [LayerApm.roughness LayerApm.material MaterialSolvated.fraction
       MaterialSolvated.solvent MaterialSolvated.init
       LayerApm._molecular_formula].
  split.
  { unfold wired. layer_fields. eexists _, _.
    repeat split; try (look; reflexivity). all_distinct. }
  split; [cbn [next put_parameter]; lia|].
  split.
  { intros q. rewrite !elem_of_cons, elem_of_nil.
    cbn [next put_parameter]. lia. }
  split; [all_distinct|].
  do 8 (split; [look; reflexivity|]).
  split; [intros q Hq; look; reflexivity|].
  split; [intros c Hc; look; reflexivity|].
  split; [|split; reflexivity].
  intros [Hp Hc].
  split; cbn [parameters constraints put_parameter]; older_objects.
Qed.

(** [LayerAreaPerMolecule.from_pars] creates eleven objects, the nine
    parameters and the two constraints of the layer, and touches no older
    object; the coverage carries no constraint. *)
Lemma LayerAreaPerMolecule_from_pars_frame (formula : string)
    (thickness : Q) (solvent : Material.t)
    (solvation area_per_molecule roughness coverage : Q) (name : string)
    (st : store) :
  1 <= recursion_limit ->
  exists L st',
    LayerAreaPerMolecule.from_pars formula thickness solvent solvation
      area_per_molecule roughness coverage name st = (Ok L, st')
    /\ wired st' "area_per_molecule" "iarea_per_molecule"
         area_per_molecule_to_sld_fn (of_LayerAreaPerMolecule L)
    /\ next st' = 11 + next st
    /\ (LayerAreaPerMolecule.coverage L ∉ ids (of_LayerAreaPerMolecule L))
    /\ leaf st' (LayerAreaPerMolecule.coverage L)
    /\ value_of st' (LayerAreaPerMolecule.coverage L) = Some coverage
    /\ value_of st' (m_sld (of_LayerAreaPerMolecule L))
       = Some (area_per_molecule_to_sld
                 (fst (neutron_scattering_length formula))
                 thickness area_per_molecule)
    /\ value_of st' (m_isld (of_LayerAreaPerMolecule L))
       = Some (area_per_molecule_to_sld
                 (snd (neutron_scattering_length formula))
                 thickness area_per_molecule)
    /\ (forall q, q < next st -> parameters st' !! q = parameters st !! q)
    /\ (forall c, c < next st -> constraints st' !! c = constraints st !! c).
Proof.
  intros Hlim. destruct recursion_limit as [|d] eqn:Hd; [lia|].
  unfold LayerAreaPerMolecule.from_pars, LayerAreaPerMolecule.init.
  do 7 run_new. do 4 run_get. run_material.
  unfold FunctionalConstraint.
  run_new_constraint Hd. do 3 run_set.
  run_new_constraint Hd. do 3 run_set.
  unfold ret. eexists _, _. split; [reflexivity|].
  unfold leaf, LayerAreaPerMolecule.coverage, ids.
  layer_fields.
  cbn [LayerAreaPerMolecule._coverage].
  split.
  { unfold wired. layer_fields. eexists _, _.
    repeat split; try (look; reflexivity). all_distinct. }
  split; [cbn [next put_parameter]; lia|].
  split; [not_among|].
  do 4 (split; [look; reflexivity|]).
  split; [intros q Hq; look; reflexivity|].
  intros c Hc; look; reflexivity.
Qed.

(** X6: what the amended C4 says of the sld holds of the isld with the
    imaginary scattering length: a layer built by [from_pars] has a
    material whose isld is the conversion function of the imaginary
    scattering length of the formula, the thickness and the area per
    molecule. On a layer whose six parameters carry the wiring of the
    constructor, as [wired] says, every write of the imaginary scattering
    length, of the thickness or of the area per molecule that the parameter
    admits returns, provided the sld and the isld admit what a constraint
    writes; it leaves the wiring in place and the isld equal to the
    function of the three current values again. *)
Theorem isld_is_apm_to_sld_of_the_imaginary_part :
  2 <= recursion_limit ->
  (forall formula thickness solvent solvation area_per_molecule roughness
          name (st : store),
     exists L st',
       LayerApm.from_pars formula thickness solvent solvation
         area_per_molecule roughness name st = (Ok L, st')
       /\ value_of st' (m_isld (of_LayerApm L))
          = Some (apm_to_sld (snd (neutron_scattering_length formula))
                    thickness area_per_molecule))
  /\ (forall (L : LayerApm.t) (st : store) (p : nat) (v : Q),
        wired st "apm" "iapm" apm_to_sld_fn (of_LayerApm L) ->
        p ∈ [LayerApm._scattering_length_imag L; LayerApm.thickness L;
             LayerApm.area_per_molecule L] ->
        admitted st false p v ->
        lenient st (m_sld (of_LayerApm L)) ->
        lenient st (m_isld (of_LayerApm L)) ->
        exists st',
          set_value p v st = (Ok tt, st')
          /\ wired st' "apm" "iapm" apm_to_sld_fn (of_LayerApm L)
          /\ isld_follows st' apm_to_sld_fn (of_LayerApm L))
  /\ (forall formula thickness solvent solvation area_per_molecule
             roughness coverage name (st : store),
        exists L st',
          LayerAreaPerMolecule.from_pars formula thickness solvent solvation
            area_per_molecule roughness coverage name st = (Ok L, st')
          /\ value_of st' (m_isld (of_LayerAreaPerMolecule L))
             = Some (area_per_molecule_to_sld
                       (snd (neutron_scattering_length formula))
                       thickness area_per_molecule))
  /\ (forall (L : LayerAreaPerMolecule.t) (st : store) (p : nat) (v : Q),
        wired st "area_per_molecule" "iarea_per_molecule"
          area_per_molecule_to_sld_fn (of_LayerAreaPerMolecule L) ->
        p ∈ [LayerAreaPerMolecule._scattering_length_imag L;
             LayerAreaPerMolecule.thickness L;
             LayerAreaPerMolecule.area_per_molecule L] ->
        admitted st false p v ->
        lenient st (m_sld (of_LayerAreaPerMolecule L)) ->
        lenient st (m_isld (of_LayerAreaPerMolecule L)) ->
        exists st',
          set_value p v st = (Ok tt, st')
          /\ wired st' "area_per_molecule" "iarea_per_molecule"
               area_per_molecule_to_sld_fn (of_LayerAreaPerMolecule L)
          /\ isld_follows st' area_per_molecule_to_sld_fn
               (of_LayerAreaPerMolecule L)).
Proof.
  intros Hlim. split; [|split; [|split]].
  - intros formula thickness solvent solvation area_per_molecule roughness
      name st.
    destruct (LayerApm_from_pars_frame formula thickness solvent solvation
                area_per_molecule roughness name st)
      as (L & st' & H1 & _ & _ & _ & _ & _ & _ & _ & _ & _ & _ & _ & H2 & _);
      [lia|].
    now exists L, st'.
  - intros L st p v Hw Hp Ha Ls Li.
    now apply (write_independent_imag "apm" "iapm" apm_to_sld_fn
                 (of_LayerApm L)).
  - intros formula thickness solvent solvation area_per_molecule roughness
      coverage name st.
    destruct (LayerAreaPerMolecule_from_pars_frame formula thickness solvent
                solvation area_per_molecule roughness coverage name st)
      as (L & st' & H1 & _ & _ & _ & _ & _ & _ & H2 & _); [lia|].
    now exists L, st'.
  - intros L st p v Hw Hp Ha Ls Li.
    now apply (write_independent_imag "area_per_molecule"
                 "iarea_per_molecule" area_per_molecule_to_sld_fn
                 (of_LayerAreaPerMolecule L)).
Qed.

(** X7: [LayerAreaPerMolecule.from_pars] creates the coverage as a
    parameter of its own that holds the value it is given, and wires
    nothing to it: the coverage is none of the six wired parameters of the
    layer, no constraint is registered on it, and the sld and the isld of
    the material are the conversion function of the scattering length, the
    thickness and the area per molecule, whatever the coverage. *)
Theorem coverage_is_stored_and_unwired (formula : string) (thickness : Q)
    (solvent : Material.t)
    (solvation area_per_molecule roughness coverage : Q) (name : string)
    (st : store) :
  1 <= recursion_limit ->
  exists L st',
    LayerAreaPerMolecule.from_pars formula thickness solvent solvation
      area_per_molecule roughness coverage name st = (Ok L, st')
    /\ value_of st' (LayerAreaPerMolecule.coverage L) = Some coverage
    /\ leaf st' (LayerAreaPerMolecule.coverage L)
    /\ (LayerAreaPerMolecule.coverage L ∉ ids (of_LayerAreaPerMolecule L))
    /\ wired st' "area_per_molecule" "iarea_per_molecule"
         area_per_molecule_to_sld_fn (of_LayerAreaPerMolecule L)
    /\ value_of st' (m_sld (of_LayerAreaPerMolecule L))
       = Some (area_per_molecule_to_sld
                 (fst (neutron_scattering_length formula))
                 thickness area_per_molecule)
    /\ value_of st' (m_isld (of_LayerAreaPerMolecule L))
       = Some (area_per_molecule_to_sld
                 (snd (neutron_scattering_length formula))
                 thickness area_per_molecule).
Proof.
  intros Hlim.
  destruct (LayerAreaPerMolecule_from_pars_frame formula thickness solvent
              solvation area_per_molecule roughness coverage name st Hlim)
    as (L & st' & H1 & Hw & _ & Hout & Hleaf & Hv & Hs & Hi & _).
  exists L, st'. auto 10.
Qed.

(** X8: [SurfactantLayer.from_pars] returns a surfactant of two wired
    layers with parameters of their own, twenty new objects in all, and
    touches no older object. Neither shared parameter exists yet and both
    getters answer False; the sld of each layer is [apm_to_sld] of the
    values the layer was given; the roughness parameters of the two layers
    are distinct and carry no constraint. *)
Theorem surfactant_from_pars_assembles
    (layer1_chemical_structure : string) (layer1_thickness : Q)
    (layer1_solvent : Material.t)
    (layer1_solvation layer1_area_per_molecule layer1_roughness : Q)
    (layer2_chemical_structure : string) (layer2_thickness : Q)
    (layer2_solvent : Material.t)
    (layer2_solvation layer2_area_per_molecule layer2_roughness : Q)
    (name : string) (st : store) :
  1 <= recursion_limit ->
  well_formed st ->
  exists s st',
    SurfactantLayer.from_pars layer1_chemical_structure layer1_thickness
      layer1_solvent layer1_solvation layer1_area_per_molecule
      layer1_roughness layer2_chemical_structure layer2_thickness
      layer2_solvent layer2_solvation layer2_area_per_molecule
      layer2_roughness name st = (Ok s, st')
    /\ assembled st' s
    /\ well_formed st'
    /\ next st' = 20 + next st
    /\ SurfactantLayer.constrain_apm (s, st') = (Ok false, (s, st'))
    /\ SurfactantLayer.conformal_roughness (s, st') = (Ok false, (s, st'))
    /\ leaf st' (LayerApm.roughness (SurfactantLayer.layer1 s))
    /\ leaf st' (LayerApm.roughness (SurfactantLayer.layer2 s))
    /\ LayerApm.roughness (SurfactantLayer.layer1 s)
       <> LayerApm.roughness (SurfactantLayer.layer2 s)
    /\ value_of st' (m_sld (layer1_of s))
       = Some (apm_to_sld
                 (fst (neutron_scattering_length layer1_chemical_structure))
                 layer1_thickness layer1_area_per_molecule)
    /\ value_of st' (m_sld (layer2_of s))
       = Some (apm_to_sld
                 (fst (neutron_scattering_length layer2_chemical_structure))
                 layer2_thickness layer2_area_per_molecule)
    /\ (forall q, q < next st -> parameters st' !! q = parameters st !! q)
    /\ (forall c, c < next st -> constraints st' !! c = constraints st !! c).
Proof.
  intros Hlim Hwf.
  destruct (LayerApm_from_pars_frame layer1_chemical_structure
              layer1_thickness layer1_solvent layer1_solvation
              layer1_area_per_molecule layer1_roughness
              (name ++ " Layer 1")%string st Hlim)
    as (L1 & st1 & Hrun1 & W1 & N1 & R1 & ND1 & Lr1 & _ & _ & _ & _ & _ & S1
        & _ & P1 & C1 & Hwf1 & _).
  specialize (Hwf1 Hwf).
  destruct (LayerApm_from_pars_frame layer2_chemical_structure
              layer2_thickness layer2_solvent layer2_solvation
              layer2_area_per_molecule layer2_roughness
              (name ++ " Layer 2")%string st1 Hlim)
    as (L2 & st2 & Hrun2 & W2 & N2 & R2 & ND2 & Lr2 & _ & _ & _ & _ & _ & S2
        & _ & P2 & C2 & Hwf2 & _).
  specialize (Hwf2 Hwf1).
  exists (SurfactantLayer.init L1 L2 name), st2.
  split.
  { unfold SurfactantLayer.from_pars.
    erewrite bind_Ok; [|exact Hrun1]. erewrite bind_Ok; [|exact Hrun2].
    reflexivity. }
  assert (O1 : forall q, q ∈ LayerApm.roughness L1 :: ids (of_LayerApm L1) ->
                         q < next st1).
  { intros q Hq. apply R1. apply elem_of_cons in Hq as [->|Hq];
      [now left|now do 2 right]. }
  assert (O2 : forall q, q ∈ LayerApm.roughness L2 :: ids (of_LayerApm L2) ->
                         next st1 <= q).
  { intros q Hq. apply R2. apply elem_of_cons in Hq as [->|Hq];
      [now left|now do 2 right]. }
  assert (W1' : wired st2 "apm" "iapm" apm_to_sld_fn (of_LayerApm L1)).
  { apply (wired_agree st1); [| |exact W1].
    - intros q Hq. unfold constraints_of. rewrite P2; [reflexivity|].
      apply O1. now right.
    - intros c x Hc _. rewrite C2; [exact Hc|].
      exact (proj2 Hwf1 _ _ Hc). }
  split.
  { split; [exact W1'|]. split; [exact W2|].
    apply NoDup_app. split; [|split].
    - apply NoDup_cons in ND1 as [_ ND1]. now apply NoDup_cons in ND1 as [_ ?].
    - intros q Hq1 Hq2.
      assert (q < next st1) by (apply O1; now right).
      assert (next st1 <= q) by (apply O2; now right). lia.
    - apply NoDup_cons in ND2 as [_ ND2]. now apply NoDup_cons in ND2 as [_ ?]. }
  split; [exact Hwf2|]. split; [lia|].
  split; [reflexivity|]. split; [reflexivity|].
  split.
  { unfold leaf, constraints_of. rewrite P2; [exact Lr1|].
    apply O1. now left. }
  split; [exact Lr2|].
  split.
  { assert (LayerApm.roughness L1 < next st1) by (apply O1; now left).
    assert (next st1 <= LayerApm.roughness L2) by (apply O2; now left).
    cbn [SurfactantLayer.init SurfactantLayer.layer1 SurfactantLayer.layer2].
    lia. }
  split.
  { unfold value_of. rewrite P2; [exact S1|].
    apply O1. right. unfold ids. rewrite !elem_of_cons. tauto. }
  split; [exact S2|].
  split.
  - intros q Hq. rewrite P2, P1 by lia. reflexivity.
  - intros c Hc. rewrite C2, C1 by lia. reflexivity.
Qed.

End Constructors.

(** ** The molecular formula of a layer *)

Section MolecularFormula.
Context {ext : Externals}.
Import Wiring Sharing.

Lemma layer_on_store_run {A} (m : M store A) (L : LayerApm.t)
    (st st' : store) (r : result A exn) :
  m st = (r, st') -> LayerApm.on_store m (L, st) = (r, (L, st')).
Proof. intros H. unfold LayerApm.on_store. cbn [fst snd]. now rewrite H. Qed.

(** X9: an assignment to [molecular_formula] on a wired layer whose two
    scattering lengths admit the values of the new formula returns; the
    layer then reports the new formula and its material is named after the
    new formula and the second material of the mixture; the two scattering
    lengths hold the values of the new formula, the sld and the isld of the
    material are [apm_to_sld] of them, of the thickness and of the area
    per molecule; no other parameter and no constraint changes. *)
Theorem molecular_formula_assignment (L : LayerApm.t) (st : store)
    (_material_b : MaterialSolvated.t -> Material.t)
    (formula_string : string) :
  2 <= recursion_limit ->
  wired st "apm" "iapm" apm_to_sld_fn (of_LayerApm L) ->
  admitted st false (LayerApm._scattering_length_real L)
    (fst (neutron_scattering_length formula_string)) ->
  admitted st false (LayerApm._scattering_length_imag L)
    (snd (neutron_scattering_length formula_string)) ->
  lenient st (m_sld (of_LayerApm L)) ->
  lenient st (m_isld (of_LayerApm L)) ->
  exists L' st',
    LayerApm.set_molecular_formula _material_b formula_string (L, st)
    = (Ok tt, (L', st'))
    /\ LayerApm.molecular_formula L' = formula_string
    /\ MaterialSolvated.name (LayerApm.material L')
       = Some (formula_string ++ "/"
               ++ Material.name (_material_b (LayerApm.material L)))%string
    /\ of_LayerApm L' = of_LayerApm L
    /\ wired st' "apm" "iapm" apm_to_sld_fn (of_LayerApm L)
    /\ value_of st' (LayerApm._scattering_length_real L)
       = Some (fst (neutron_scattering_length formula_string))
    /\ value_of st' (LayerApm._scattering_length_imag L)
       = Some (snd (neutron_scattering_length formula_string))
    /\ value_of st' (m_sld (of_LayerApm L))
       = Some (apm_to_sld (fst (neutron_scattering_length formula_string))
                 (val st (LayerApm.thickness L))
                 (val st (LayerApm.area_per_molecule L)))
    /\ value_of st' (m_isld (of_LayerApm L))
       = Some (apm_to_sld (snd (neutron_scattering_length formula_string))
                 (val st (LayerApm.thickness L))
                 (val st (LayerApm.area_per_molecule L)))
    /\ (forall q,
          q ∉ [LayerApm._scattering_length_real L;
               LayerApm._scattering_length_imag L;
               m_sld (of_LayerApm L); m_isld (of_LayerApm L)] ->
          parameters st' !! q = parameters st !! q)
    /\ constraints st' = constraints st.
Proof.
  intros Hlim Hw Are Aim Ls Li.
  destruct recursion_limit as [|[|d]] eqn:Hd; [lia..|].
  set (l := of_LayerApm L) in *.
  change (LayerApm._scattering_length_real L) with (sl_re l) in *.
  change (LayerApm._scattering_length_imag L) with (sl_im l) in *.
  change (LayerApm.thickness L) with (th l).
  change (LayerApm.area_per_molecule L) with (apm l).
  set (v1 := fst (neutron_scattering_length formula_string)) in *.
  set (v2 := snd (neutron_scattering_length formula_string)) in *.
  pose proof Hw as
    (c & ic & Hsl & Hsli & Hth & Hapm & Hsld & Hisld & Hc & Hic & Hnd).
  distinct Hnd.
  set (st0 := assign (sl_re l) v1 st).
  set (st1 := assign (m_sld l) (sld_in st0 apm_to_sld_fn l) st0).
  set (st2 := assign (sl_im l) v2 st1).
  set (st3 := assign (m_isld l) (isld_in st2 apm_to_sld_fn l) st2).
  assert (W1 : wired st1 "apm" "iapm" apm_to_sld_fn l)
    by (now do 2 apply wired_assign).
  assert (H1 : propagate (S (S d)) false (sl_re l) v1 st = Ok st1).
  { now apply (write_scattering_length_real d false st "apm" "iapm"). }
  assert (H2 : propagate (S (S d)) false (sl_im l) v2 st1 = Ok st3).
  { apply (write_scattering_length_imag d false st1 "apm" "iapm");
      [exact W1| |].
    - apply admitted_assign_ne; [intuition congruence|].
      apply admitted_assign_ne; [intuition congruence|exact Aim].
    - apply lenient_assign_ne; [intuition congruence|].
      apply lenient_assign_ne; [intuition congruence|exact Li]. }
  eexists _, st3. split.
  { unfold LayerApm.set_molecular_formula.
    erewrite bind_Ok; [|reflexivity].
    erewrite bind_Ok; [|reflexivity].
    cbn [fst snd LayerApm.with_molecular_formula
         LayerApm._scattering_length_real LayerApm._scattering_length_imag].
    erewrite bind_Ok;
      [|apply layer_on_store_run, set_value_Ok; rewrite Hd; exact H1].
    erewrite bind_Ok;
      [|apply layer_on_store_run, set_value_Ok; rewrite Hd; exact H2].
    erewrite bind_Ok; [|reflexivity].
    reflexivity. }
  split; [reflexivity|]. split; [reflexivity|]. split; [reflexivity|].
  split; [now do 4 apply wired_assign|].
  assert (V1 : val st0 (sl_re l) = v1) by apply (val_assign_eq _ _ _ _ Hsl).
  assert (Vt : forall q, q <> sl_re l -> q <> sl_im l -> q <> m_sld l
                         -> val st2 q = val st q).
  { intros q Q1 Q2 Q3. unfold st2, st1, st0.
    now rewrite !val_assign_ne by assumption. }
  split; [|split; [|split; [|split; [|split]]]].
  - unfold st3, st2, st1.
    rewrite !value_of_assign_ne by intuition congruence.
    apply (value_of_assign_eq _ _ _ _ (value_of_val _ _ _ Hsl)).
  - unfold st3. rewrite value_of_assign_ne by intuition congruence.
    apply (value_of_assign_eq _ _ (val st1 (sl_im l))).
    apply (value_of_val _ _ [("iapm", ic)]). unfold st1, st0.
    now rewrite !constraints_of_assign.
  - unfold st3, st2. rewrite !value_of_assign_ne by intuition congruence.
    unfold st1. erewrite value_of_assign_eq;
      [|apply (value_of_val _ _ []); unfold st0;
        now rewrite constraints_of_assign].
    unfold sld_in. cbn [denote]. rewrite V1. unfold st0.
    now rewrite !val_assign_ne by intuition congruence.
  - unfold st3. erewrite value_of_assign_eq;
      [|apply (value_of_val _ _ []); unfold st2, st1, st0;
        now rewrite !constraints_of_assign].
    unfold isld_in. cbn [denote].
    rewrite (Vt (th l)), (Vt (apm l)) by intuition congruence.
    assert (V2 : val st2 (sl_im l) = v2).
    { apply (val_assign_eq _ _ _ [("iapm", ic)]). unfold st1, st0.
      now rewrite !constraints_of_assign. }
    now rewrite V2.
  - intros q Hq. rewrite !not_elem_of_cons in Hq.
    unfold st3, st2, st1, st0.
    rewrite !parameters_assign_ne by intuition congruence. reflexivity.
  - unfold st3, st2, st1, st0. now rewrite !constraints_assign.
Qed.

(** X10: the setter stores the formula before it writes the scattering
    lengths. When the write of the real scattering length raises, the
    assignment raises the same error and leaves the store as it was, but
    the layer already reports the new formula. *)
Theorem molecular_formula_assignment_refused (L : LayerApm.t) (st : store)
    (_material_b : MaterialSolvated.t -> Material.t)
    (formula_string : string) (e : exn) :
  fst (set_value (LayerApm._scattering_length_real L)
         (fst (neutron_scattering_length formula_string)) st) = Error e ->
  LayerApm.set_molecular_formula _material_b formula_string (L, st)
  = (Error e, (LayerApm.with_molecular_formula formula_string L, st))
  /\ LayerApm.molecular_formula
       (LayerApm.with_molecular_formula formula_string L) = formula_string.
Proof.
  intros H. split; [|reflexivity].
  unfold LayerApm.set_molecular_formula.
  erewrite bind_Ok; [|reflexivity].
  erewrite bind_Ok; [|reflexivity].
  cbn [fst snd LayerApm.with_molecular_formula
       LayerApm._scattering_length_real].
  unfold bind, LayerApm.on_store. cbn [fst snd].
  unfold set_value, atomically in *.
  destruct (propagate recursion_limit false
              (LayerApm._scattering_length_real L)
              (fst (neutron_scattering_length formula_string)) st);
    cbn [fst] in H; [discriminate|].
  now injection H as ->.
Qed.

End MolecularFormula.

(** ** Two layers over one thickness parameter *)

Ltac find :=
  unfold value_of, Wiring.constraints_of;
  cbn [parameters constraints next put_parameter put_constraint];
  repeat match goal with
         | |- context [<[?i := _]> _ !! ?j] =>
             first [constr_eq i j; rewrite lookup_insert_eq
                   |rewrite (lookup_insert_ne _ i j) by lia]
         end.

Section SharedThickness.
Context {ext : Externals}.
Import Wiring Sharing.

Lemma get_parameter_value (st : store) (p : nat) (par : parameter) :
  parameters st !! p = Some par -> value_of st p = Some (raw_value par).
Proof. intros H. unfold value_of. now rewrite H. Qed.

(** X11: [LayerApm.__init__] registers its two constraints by assignment
    under the fixed keys apm and iapm. Called with the thickness parameter
    of a layer that is already wired and an area per molecule of its own,
    it returns, changes no value and wires the new layer. On the shared
    thickness the entries of the first layer are replaced, in place, by
    those of the new layer; the two constraints of the first layer stay in
    the store as they were, enabled and with the thickness among their
    independents, every other older parameter keeps its registrations, and
    so the first layer no longer carries the wiring of its constructor. *)
Theorem second_layer_takes_the_thickness_registrations
    (l1 : layer_parameters) (st : store) (formula : string)
    (solvent : Material.t) (solvation area_per_molecule roughness : nat)
    (name : string) :
  1 <= recursion_limit ->
  wired st "apm" "iapm" apm_to_sld_fn l1 ->
  leaf st area_per_molecule ->
  area_per_molecule ∉ ids l1 ->
  well_formed st ->
  exists L st' c1 ic1 c2 ic2,
    LayerApm.init formula (th l1) solvent solvation area_per_molecule
      roughness name st = (Ok L, st')
    /\ LayerApm.thickness L = th l1
    /\ wired st' "apm" "iapm" apm_to_sld_fn (of_LayerApm L)
    /\ (forall q, q < next st -> value_of st' q = value_of st q)
    /\ constraints_of st (th l1) = Some [("apm", c1); ("iapm", ic1)]
    /\ constraints_of st' (th l1) = Some [("apm", c2); ("iapm", ic2)]
    /\ c1 < next st /\ ic1 < next st /\ next st <= c2 /\ next st <= ic2
    /\ constraints st' !! c1
       = Some (functional (m_sld l1) apm_to_sld_fn [sl_re l1; th l1; apm l1])
    /\ constraints st' !! ic1
       = Some (functional (m_isld l1) apm_to_sld_fn
                 [sl_im l1; th l1; apm l1])
    /\ (forall q, q < next st -> q <> th l1 -> q <> area_per_molecule ->
                  parameters st' !! q = parameters st !! q)
    /\ (forall c, c < next st -> constraints st' !! c = constraints st !! c)
    /\ ~ wired st' "apm" "iapm" apm_to_sld_fn l1.
Proof.
  intros Hlim Hw La Hfresh Hwf.
  destruct recursion_limit as [|d] eqn:Hd; [lia|].
  pose proof (wired_older _ _ _ _ _ Hwf Hw) as Old.
  assert (Oth : th l1 < next st)
    by (apply Old; unfold ids; rewrite !elem_of_cons; tauto).
  assert (Osl : sl_re l1 < next st)
    by (apply Old; unfold ids; rewrite !elem_of_cons; tauto).
  assert (F3 : area_per_molecule <> th l1).
  { intros E. apply Hfresh. rewrite E. unfold ids. rewrite !elem_of_cons.
    tauto. }
  assert (F4 : sl_re l1 <> area_per_molecule).
  { intros E. apply Hfresh. rewrite <- E. unfold ids. rewrite !elem_of_cons.
    tauto. }
  assert (D : sl_re l1 <> th l1).
  { destruct Hw as (? & ? & _ & _ & _ & _ & _ & _ & _ & _ & Hnd).
    distinct Hnd. intuition congruence. }
  destruct Hw as (c1 & ic1 & Hsl & _ & Hth & _ & _ & _ & Hc1 & Hic1 & _).
  assert (Oc1 : c1 < next st) by exact (proj2 Hwf _ _ Hc1).
  assert (Oic1 : ic1 < next st) by exact (proj2 Hwf _ _ Hic1).
  clear Hfresh Old.
  destruct (constraints_of_Some _ _ _ Hth) as (pth & Pth & Cth).
  destruct (constraints_of_Some _ _ _ La) as (pa & Pa & Ca).
  assert (Oa : area_per_molecule < next st) by exact (proj1 Hwf _ _ Pa).
  destruct pth as [nm rv un mn mx fx en uc]. cbn in Cth. subst uc.
  destruct pa as [nm' rv' un' mn' mx' fx' en' uc']. cbn in Ca. subst uc'.
  unfold LayerApm.init.
  do 2 run_new. do 2 run_get.
  erewrite bind_Ok;
    [|apply get_value_Ok; find; apply get_parameter_value; exact Pth].
  erewrite bind_Ok;
    [|apply get_value_Ok; find; apply get_parameter_value; exact Pa].
  tidy. run_material.
  unfold FunctionalConstraint.
  run_new_constraint Hd.
  erewrite bind_Ok; [|apply set_user_constraint_Ok; find; exact Pth]. tidy.
  erewrite bind_Ok; [|apply set_user_constraint_Ok; find; exact Pa]. tidy.
  erewrite bind_Ok; [|apply set_user_constraint_Ok; find; reflexivity]. tidy.
  erewrite bind_Ok;
  [|apply new_constraint_Ok; rewrite Hd; cbn [existsb];
    rewrite ?reaches_leaf;
    [reflexivity|try (find; reflexivity); try lia ..]]; tidy.
  do 3 (erewrite bind_Ok;
        [|apply set_user_constraint_Ok; find; reflexivity]; tidy).
  unfold ret.
  cbn [with_user_constraints user_constraints dict_set String.eqb Ascii.eqb
       Bool.eqb].
  eexists _, _, c1, ic1, _, _. split; [reflexivity|].
  match goal with
  | |- LayerApm.thickness ?L = _ /\ wired ?s _ _ _ _ /\ _ =>
      set (L2 := L); set (st' := s)
  end.
  split; [reflexivity|].
  assert (W2 : wired st' "apm" "iapm" apm_to_sld_fn (of_LayerApm L2)).
  { unfold wired, st', L2. layer_fields. eexists _, _.
    repeat split; try (find; reflexivity). all_distinct. }
  assert (Fr : forall q, q < next st -> value_of st' q = value_of st q).
  { intros q Hq. unfold st'.
    destruct (decide (q = area_per_molecule)) as [->|Na];
      [find; now rewrite Pa|].
    destruct (decide (q = th l1)) as [->|Nt]; [find; now rewrite Pth|].
    find. reflexivity. }
  assert (Pf : forall q, q < next st -> q <> th l1 -> q <> area_per_molecule ->
                         parameters st' !! q = parameters st !! q).
  { intros q Hq Nt Na. unfold st'. find. reflexivity. }
  assert (Hth' : constraints_of st' (th l1)
                 = Some [("apm", 4 + next st); ("iapm", 5 + next st)]).
  { unfold st'. find. reflexivity. }
  split; [exact W2|]. split; [exact Fr|]. split; [exact Hth|].
  split; [exact Hth'|].
  split; [exact Oc1|]. split; [exact Oic1|].
  split; [lia|]. split; [lia|].
  assert (Cf : forall c, c < next st ->
                         constraints st' !! c = constraints st !! c).
  { intros c Hc. unfold st'. find. reflexivity. }
  split; [rewrite Cf by exact Oc1; exact Hc1|].
  split; [rewrite Cf by exact Oic1; exact Hic1|].
  split; [exact Pf|]. split; [exact Cf|].
  intros (c & ic & Hsl' & _ & Hth'' & _).
  rewrite Hth' in Hth''. injection Hth'' as E _.
  unfold constraints_of in Hsl'.
  rewrite (Pf _ Osl D F4) in Hsl'.
  change (constraints_of st (sl_re l1) = Some [("apm", c)]) in Hsl'.
  rewrite Hsl in Hsl'. injection Hsl' as E'.
  lia.
Qed.

End SharedThickness.

(** ** Constraints between two contrasts *)

Section MultipleContrast.
Context {ext : Externals}.
Import Wiring Sharing Contrast SurfactantLayer.

Lemma only_registers_refl (targets : list nat) (st : store) :
  only_registers targets st st.
Proof. repeat split; auto. Qed.

Lemma only_registers_trans (targets : list nat) (st1 st2 st3 : store) :
  only_registers targets st1 st2 -> only_registers targets st2 st3 ->
  only_registers targets st1 st3.
Proof.
  intros (A1 & B1 & C1 & D1) (A2 & B2 & C2 & D2).
  split; [|split; [|split]].
  - intros q. now rewrite A2, A1.
  - intros q Hq. now rewrite B2, B1.
  - intros c Hc. rewrite C2 by lia. now apply C1.
  - lia.
Qed.

Lemma only_registers_mono (targets targets' : list nat) (st st' : store) :
  (forall q, q ∈ targets -> q ∈ targets') ->
  only_registers targets st st' -> only_registers targets' st st'.
Proof.
  intros Hsub (A & B & C & D). split; [exact A|]. split; [|auto].
  intros q Hq. apply B. intros H. apply Hq. now apply Hsub.
Qed.

Lemma only_registers_bind {A B} (m : M store A) (k : A -> M store B)
    (targets : list nat) (st : store) :
  (forall s, only_registers targets s (snd (m s))) ->
  (forall a s, only_registers targets s (snd (k a s))) ->
  only_registers targets st (snd (bind m k st)).
Proof.
  intros Hm Hk. unfold bind. specialize (Hm st).
  destruct (m st) as [[a|e] s']; cbn [snd] in *; [|exact Hm].
  exact (only_registers_trans _ _ _ _ Hm (Hk a s')).
Qed.

(** One block registers on [theirs] and does nothing else, whether it
    returns or raises. *)
Lemma constrain_to_only_registers (flag : bool) (mine theirs : nat)
    (key : string) (st : store) :
  only_registers [theirs] st (snd (constrain_to flag mine theirs key st)).
Proof.
  destruct flag; [|apply only_registers_refl].
  unfold constrain_to, ObjConstraint, new_constraint, bind.
  destruct (existsb _ _); [apply only_registers_refl|].
  unfold set_user_constraint, bind, get_parameter. cbn [parameters].
  destruct (parameters st !! theirs) as [par|] eqn:Hp; cbn [snd].
  - split; [|split; [|split]]; cbn [parameters constraints next put_parameter].
    + intros q. destruct (decide (q = theirs)) as [->|Hq].
      * rewrite lookup_insert_eq, Hp. reflexivity.
      * now rewrite lookup_insert_ne by (apply not_eq_sym; exact Hq).
    + intros q Hq. apply not_elem_of_cons in Hq as [Hq _].
      now rewrite lookup_insert_ne by (apply not_eq_sym; exact Hq).
    + intros c Hc. now rewrite lookup_insert_ne by lia.
    + lia.
  - split; [|split; [|split]]; cbn [parameters constraints next]; auto.
    intros c Hc. now rewrite lookup_insert_ne by lia.
Qed.

(** X12: whatever its arguments and whether it returns or raises,
    [constain_multiple_contrast] does nothing but register constraints on
    the six structural parameters of [another_contrast]: it changes no
    value, no bound and no flag of any parameter, no registration on any
    other parameter, in particular on none of [self] that is not also one
    of those six, and no constraint object that existed before. *)
Theorem multiple_contrast_only_registers (self another_contrast : t)
    (f1 f2 f3 f4 f5 f6 : bool) (st : store) :
  let st' :=
    snd (constain_multiple_contrast self another_contrast f1 f2 f3 f4 f5 f6
           st) in
  only_registers (structural another_contrast) st st'
  /\ (forall q, value_of st' q = value_of st q)
  /\ (forall q, enabled <$> parameters st' !! q
                = enabled <$> parameters st !! q)
  /\ (forall q, fixed <$> parameters st' !! q = fixed <$> parameters st !! q).
Proof.
  intros st'.
  assert (H : only_registers (structural another_contrast) st st').
  { unfold st', constain_multiple_contrast.
    assert (Hblock : forall flag mine theirs s,
              theirs ∈ structural another_contrast ->
              only_registers (structural another_contrast) s
                (snd (constrain_to flag mine theirs (name another_contrast)
                        s))).
    { intros flag mine theirs s Hin.
      eapply only_registers_mono; [|apply constrain_to_only_registers].
      intros q Hq. apply elem_of_cons in Hq as [->|Hq]; [exact Hin|].
      now apply elem_of_nil in Hq. }
    repeat (apply only_registers_bind;
            [intros ?; apply Hblock; unfold structural;
             rewrite !elem_of_cons; tauto
            |intros _ ?]).
    apply Hblock. unfold structural. rewrite !elem_of_cons. tauto. }
  split; [exact H|]. destruct H as (A & _).
  split; [|split]; intros q; specialize (A q); unfold value_of;
    destruct (parameters st' !! q), (parameters st !! q);
    cbn in A |- *; try congruence;
    unfold with_user_constraints in A; injection A as ?; congruence.
Qed.

(** The thickness of a wired layer reaches its sld and its isld and
    nothing else. *)
Lemma reaches_from_thickness (d : nat) (st : store) key ikey fn l
    (target : nat) :
  wired st key ikey fn l ->
  target ∉ [th l; m_sld l; m_isld l] ->
  reaches (S (S d)) st target (th l) = false.
Proof.
  intros (c & ic & Hsl & Hsli & Hth & Hapm & Hsld & Hisld & H1 & H2 & Hnd).
  rewrite !not_elem_of_cons. intros (Ta & Ts & Ti & _).
  change (reaches (S (S d)) st target (th l))
    with (Nat.eqb (th l) target
          || match parameters st !! th l with
             | None => false
             | Some par =>
                 existsb
                   (fun kc : string * nat =>
                      match constraints st !! snd kc with
                      | None => false
                      | Some c => reaches (S d) st target (dependent c)
                      end)
                   (user_constraints par)
             end).
  destruct (constraints_of_Some _ _ _ Hth) as (par & Hp & Hcs).
  rewrite Hp, Hcs. cbn [existsb snd]. rewrite H1, H2.
  cbn [functional dependent].
  rewrite !reaches_leaf by (assumption || congruence).
  rewrite !orb_false_r. apply Nat.eqb_neq. congruence.
Qed.

Lemma constrain_to_Ok (mine theirs : nat) (key : string) (st : store)
    (par : parameter) :
  reaches recursion_limit st theirs mine = false ->
  parameters st !! theirs = Some par ->
  constrain_to true mine theirs key st
  = (Ok tt,
     put_parameter theirs
       (with_user_constraints (dict_set key (next st) (user_constraints par))
          par)
       {| parameters := parameters st;
          constraints := <[next st := mirror mine theirs true]> (constraints st);
          next := S (next st) |}).
Proof.
  intros Hr Hp. unfold constrain_to, ObjConstraint.
  erewrite bind_Ok;
    [|apply new_constraint_Ok; cbn [existsb]; now rewrite Hr].
  now apply set_user_constraint_Ok.
Qed.

(** [constain_multiple_contrast] with the flag of the thickness of layer 1
    alone. *)
Lemma constrain_thickness (st : store) (s o : t) kcs :
  2 <= recursion_limit ->
  wired st "apm" "iapm" apm_to_sld_fn (layer1_of s) ->
  th (layer1_of o) ∉ ids (layer1_of s) ->
  well_formed st ->
  constraints_of st (th (layer1_of o)) = Some kcs ->
  exists st',
    constain_multiple_contrast s o true false false false false false st
    = (Ok tt, st')
    /\ constraints_of st' (th (layer1_of o))
       = Some (dict_set (name o) (next st) kcs)
    /\ constraints st' !! next st
       = Some (mirror (th (layer1_of s)) (th (layer1_of o)) true)
    /\ constraints st !! next st = None
    /\ (forall q, q <> th (layer1_of o) ->
                  parameters st' !! q = parameters st !! q)
    /\ (forall q, value_of st' q = value_of st q)
    /\ (forall c, c <> next st -> constraints st' !! c = constraints st !! c)
    /\ wired st' "apm" "iapm" apm_to_sld_fn (layer1_of s).
Proof.
  intros Hlim Ws Hfresh Hwf Hk.
  destruct recursion_limit as [|[|d]] eqn:Hd; [lia..|].
  destruct (constraints_of_Some _ _ _ Hk) as (par & Hp & Hcs).
  assert (Hr : reaches recursion_limit st (th (layer1_of o))
                 (th (layer1_of s)) = false).
  { rewrite Hd.
    apply (reaches_from_thickness d st "apm" "iapm" apm_to_sld_fn); [exact Ws|].
    intros H. apply Hfresh. unfold ids. revert H. rewrite !elem_of_cons.
    tauto. }
  assert (Hnone : constraints st !! next st = None).
  { destruct (constraints st !! next st) as [x|] eqn:Hx; [|reflexivity].
    pose proof (proj2 Hwf _ _ Hx). cbn beta in *. lia. }
  eexists. split.
  { unfold constain_multiple_contrast.
    erewrite bind_Ok;
      [|apply (constrain_to_Ok _ _ _ _ par); [exact Hr|exact Hp]].
    reflexivity. }
  assert (P : forall q, q <> th (layer1_of o) ->
                parameters
                  (put_parameter (th (layer1_of o))
                     (with_user_constraints
                        (dict_set (name o) (next st) (user_constraints par))
                        par)
                     {| parameters := parameters st;
                        constraints :=
                          <[next st := mirror (th (layer1_of s))
                                         (th (layer1_of o)) true]>
                            (constraints st);
                        next := S (next st) |}) !! q
                = parameters st !! q).
  { intros q Hq. cbn [parameters put_parameter].
    now rewrite lookup_insert_ne by (apply not_eq_sym; exact Hq). }
  split.
  { unfold constraints_of. cbn [parameters put_parameter].
    rewrite lookup_insert_eq. cbn. now rewrite Hcs. }
  split; [cbn [constraints put_parameter]; apply lookup_insert_eq|].
  split; [exact Hnone|].
  split; [exact P|].
  split.
  { intros q. unfold value_of.
    destruct (decide (q = th (layer1_of o))) as [->|Hq]; [|now rewrite P].
    cbn [parameters put_parameter]. rewrite lookup_insert_eq, Hp.
    reflexivity. }
  split.
  { intros c Hc. cbn [constraints put_parameter].
    now rewrite lookup_insert_ne by (apply not_eq_sym; exact Hc). }
  apply (wired_agree st); [| |exact Ws].
  - intros q Hq. unfold constraints_of. rewrite P; [reflexivity|].
    intros ->. now apply Hfresh.
  - intros c x Hc _. cbn [constraints put_parameter].
    rewrite lookup_insert_ne; [exact Hc|].
    intros E. rewrite <- E, Hnone in Hc. discriminate.
Qed.

Lemma dict_set_new (key : string) (n c ic : nat) :
  key <> "apm" -> key <> "iapm" ->
  dict_set key n [("apm", c); ("iapm", ic)]
  = [("apm", c); ("iapm", ic); (key, n)].
Proof.
  intros H1 H2. cbn [dict_set].
  assert (E1 : String.eqb "apm" key = false)
    by (apply String.eqb_neq; congruence).
  assert (E2 : String.eqb "iapm" key = false)
    by (apply String.eqb_neq; congruence).
  now rewrite E1, E2.
Qed.

Lemma dict_set_again (key : string) (n c ic old : nat) :
  key <> "apm" -> key <> "iapm" ->
  dict_set key n [("apm", c); ("iapm", ic); (key, old)]
  = [("apm", c); ("iapm", ic); (key, n)].
Proof.
  intros H1 H2. cbn [dict_set].
  assert (E1 : String.eqb "apm" key = false)
    by (apply String.eqb_neq; congruence).
  assert (E2 : String.eqb "iapm" key = false)
    by (apply String.eqb_neq; congruence).
  now rewrite E1, E2, String.eqb_refl.
Qed.

(** The write of the thickness of a layer that another layer follows. *)
Lemma write_followed_thickness (d : nat) (b : bool) (st : store)
    key ikey fn l k cx key' ikey' fn' l' (v : Q) :
  followed st key ikey fn l k cx ->
  constraints st !! cx = Some (mirror (th l') (th l) true) ->
  wired st key' ikey' fn' l' ->
  (forall q, q ∈ [th l; m_sld l; m_isld l] -> q ∉ ids l') ->
  admitted st b (th l) v ->
  lenient st (m_sld l) ->
  lenient st (m_isld l) ->
  admitted st true (th l') v ->
  lenient st (m_sld l') ->
  lenient st (m_isld l') ->
  propagate (S (S (S d))) b (th l) v st
  = Ok (after_thickness fn' l' v (after_thickness fn l v st)).
Proof.
  intros (c & ic & Hsl & Hsli & Hth & Hapm & Hsld & Hisld & Hc & Hic & Hnd)
    Hcx W' Hdisj (par & Hp & Ha) Ls Li A' Ls' Li'.
  distinct Hnd.
  rewrite (propagate_unfold _ _ _ _ _ par Hp Ha).
  destruct (constraints_of_Some _ _ _ Hth) as (par' & Hq & Hcs).
  assert (par' = par) by congruence. subst par'. rewrite Hcs.
  set (st1 := assign (th l) v st).
  cbn [run_constraints].
  rewrite (run_functional_leaf (S d) c (m_sld l) (sl_re l) (th l) (apm l) fn
             st1 [(key, c)] [(key, c); (ikey, ic); (k, cx)]
             [(key, c); (ikey, ic)]);
    unfold st1; rewrite ?constraints_of_assign, ?constraints_assign;
    try assumption;
    [|apply lenient_assign_ne; [intuition congruence|assumption]].
  fold st1. fold (sld_in st1 fn l).
  set (st2 := assign (m_sld l) _ st1).
  rewrite (run_functional_leaf (S d) ic (m_isld l) (sl_im l) (th l) (apm l) fn
             st2 [(ikey, ic)] [(key, c); (ikey, ic); (k, cx)]
             [(key, c); (ikey, ic)]);
    unfold st2, st1; rewrite ?constraints_of_assign, ?constraints_assign;
    try assumption;
    [|apply lenient_assign_ne; [intuition congruence|];
      now apply lenient_assign_ne].
  rewrite !(val_assign_ne (m_sld l)) by intuition congruence.
  fold st1. fold (isld_in st1 fn l). fold st2.
  set (st3 := assign (m_isld l) _ st2).
  change st3 with (after_thickness fn l v st).
  assert (N : th l' <> th l /\ th l' <> m_sld l /\ th l' <> m_isld l
              /\ m_sld l' <> th l /\ m_sld l' <> m_sld l
              /\ m_sld l' <> m_isld l
              /\ m_isld l' <> th l /\ m_isld l' <> m_sld l
              /\ m_isld l' <> m_isld l).
  { assert (T : forall q q', q ∈ [th l; m_sld l; m_isld l] -> q' ∈ ids l' ->
                             q' <> q).
    { intros q q' Hin Hin' ->. exact (Hdisj _ Hin Hin'). }
    repeat split; apply T; unfold ids; rewrite !elem_of_cons; tauto. }
  destruct N as (N1 & N2 & N3 & N4 & N5 & N6 & N7 & N8 & N9).
  rewrite (run_mirror _ cx (th l') (th l) st3 [(key, c); (ikey, ic); (k, cx)]);
    [|unfold st3, st2, st1; now rewrite !constraints_assign
     |unfold st3, st2, st1; now rewrite !constraints_of_assign].
  assert (Hv : val st3 (th l) = v).
  { unfold st3, st2. rewrite !val_assign_ne by intuition congruence.
    apply (val_assign_eq _ _ _ _ Hth). }
  rewrite Hv.
  rewrite (write_shared_input d true st3 key' ikey' fn' l' (th l') v).
  - reflexivity.
  - unfold st3, st2, st1. now do 3 apply wired_assign.
  - now left.
  - unfold st3, st2, st1. now do 3 (apply admitted_assign_ne; [assumption|]).
  - unfold st3, st2, st1. now do 3 (apply lenient_assign_ne; [assumption|]).
  - unfold st3, st2, st1. now do 3 (apply lenient_assign_ne; [assumption|]).
Qed.

Lemma parameters_after_thickness_ne fn l v st q :
  q ∉ [th l; m_sld l; m_isld l] ->
  parameters (after_thickness fn l v st) !! q = parameters st !! q.
Proof.
  intros Hq. apply not_elem_of_cons in Hq as [H1 Hq].
  apply not_elem_of_cons in Hq as [H2 Hq].
  apply not_elem_of_cons in Hq as [H3 _].
  unfold after_thickness. now rewrite !parameters_assign_ne.
Qed.

Lemma constraints_after_thickness fn l v st :
  constraints (after_thickness fn l v st) = constraints st.
Proof. unfold after_thickness. now rewrite !constraints_assign. Qed.

Lemma value_of_after_thickness fn l v st a b :
  NoDup (ids l) ->
  value_of st (th l) = Some a ->
  value_of st (m_sld l) = Some b ->
  value_of (after_thickness fn l v st) (th l) = Some v
  /\ value_of (after_thickness fn l v st) (m_sld l)
     = Some (denote fn (val st (sl_re l)) v (val st (apm l))).
Proof.
  intros Hnd Ha Hb. unfold ids in Hnd. distinct Hnd.
  unfold after_thickness. split.
  - rewrite !value_of_assign_ne by intuition congruence.
    exact (value_of_assign_eq _ _ _ _ Ha).
  - rewrite value_of_assign_ne by intuition congruence.
    erewrite value_of_assign_eq;
      [|rewrite value_of_assign_ne by (intuition congruence); exact Hb].
    unfold sld_in.
    rewrite (val_assign_ne (th l) (sl_re l)) by intuition congruence.
    rewrite (val_assign_ne (th l) (apm l)) by intuition congruence.
    assert (E : val (assign (th l) v st) (th l) = v).
    { unfold val. now rewrite (value_of_assign_eq _ _ _ _ Ha). }
    now rewrite E.
Qed.

Lemma followed_from_wired (st st' : store) key ikey fn l k cx :
  wired st key ikey fn l ->
  k <> key -> k <> ikey ->
  (forall q, q <> th l -> parameters st' !! q = parameters st !! q) ->
  (forall kcs, constraints_of st (th l) = Some kcs ->
               constraints_of st' (th l) = Some (dict_set k cx kcs)) ->
  (forall c x, constraints st !! c = Some x -> constraints st' !! c = Some x) ->
  followed st' key ikey fn l k cx.
Proof.
  intros (c & ic & Hsl & Hsli & Hth & Hapm & Hsld & Hisld & Hc & Hic & Hnd)
    K1 K2 P Hk C.
  exists c, ic.
  assert (Hnd' := Hnd). distinct Hnd'.
  assert (CO : forall q, q <> th l -> constraints_of st' q = constraints_of st q).
  { intros q Hq. unfold constraints_of. now rewrite P. }
  rewrite (CO (sl_re l)), (CO (sl_im l)), (CO (apm l)), (CO (m_sld l)),
    (CO (m_isld l)) by intuition congruence.
  rewrite (Hk _ Hth), (C _ _ Hc), (C _ _ Hic).
  cbn [dict_set].
  assert (E1 : String.eqb key k = false)
    by (apply String.eqb_neq; congruence).
  assert (E2 : String.eqb ikey k = false)
    by (apply String.eqb_neq; congruence).
  rewrite E1, E2. repeat (split; [assumption || reflexivity|]). exact Hnd.
Qed.

(** X13: [self.constain_multiple_contrast(another_contrast)] with the flag
    of the thickness of layer 1 alone, between two surfactants whose layers
    1 are wired: the call returns, creates one enabled mirror constraint
    whose dependent is the thickness of [self] and whose independent is the
    thickness of [another_contrast], and registers it on the latter under
    the name of [another_contrast], after the two constraints of that
    layer. It copies no value, so the two thicknesses stay as they were,
    and it leaves every other parameter, every older constraint and the
    wiring of [self] as they were. *)
Theorem multiple_contrast_links_thickness (st : store) (s o : t) :
  2 <= recursion_limit ->
  wired st "apm" "iapm" apm_to_sld_fn (layer1_of s) ->
  wired st "apm" "iapm" apm_to_sld_fn (layer1_of o) ->
  th (layer1_of o) ∉ ids (layer1_of s) ->
  well_formed st ->
  name o <> "apm" -> name o <> "iapm" ->
  exists st',
    constain_multiple_contrast s o true false false false false false st
    = (Ok tt, st')
    /\ followed st' "apm" "iapm" apm_to_sld_fn (layer1_of o) (name o)
         (next st)
    /\ constraints st' !! next st
       = Some (mirror (th (layer1_of s)) (th (layer1_of o)) true)
    /\ constraints st !! next st = None
    /\ wired st' "apm" "iapm" apm_to_sld_fn (layer1_of s)
    /\ (forall q, value_of st' q = value_of st q)
    /\ (forall q, q <> th (layer1_of o) ->
                  parameters st' !! q = parameters st !! q)
    /\ (forall c, c <> next st -> constraints st' !! c = constraints st !! c).
Proof.
  intros Hlim Ws Wo Hfresh Hwf K1 K2.
  pose proof Wo as (c & ic & _ & _ & Hth & _).
  destruct (constrain_thickness st s o _ Hlim Ws Hfresh Hwf Hth)
    as (st' & Hrun & Hk & Hcx & Hnone & P & V & C & Ws').
  exists st'. split; [exact Hrun|].
  split.
  { apply (followed_from_wired st); [exact Wo|exact K1|exact K2|exact P| |].
    - intros kcs Hk'. rewrite Hth in Hk'. injection Hk' as <-. exact Hk.
    - intros c' x Hc'. rewrite C; [exact Hc'|].
      intros ->. rewrite Hnone in Hc'. discriminate. }
  auto 10.
Qed.

(** X14: the write of a thickness that another layer follows through an
    enabled mirror constraint registered after the two constraints of the
    layer: the write returns; both thicknesses hold the written value, the
    sld of each material is the conversion function of the real scattering
    length of its layer, the written value and the area per molecule of
    its layer; no parameter other than the two thicknesses and the sld and
    isld of the two materials changes, and no constraint. *)
Theorem followed_thickness_write (st : store) key ikey fn l k cx
    key' ikey' fn' l' (v : Q) :
  3 <= recursion_limit ->
  followed st key ikey fn l k cx ->
  constraints st !! cx = Some (mirror (th l') (th l) true) ->
  wired st key' ikey' fn' l' ->
  (forall q, q ∈ ids l -> q ∉ ids l') ->
  admitted st false (th l) v ->
  lenient st (m_sld l) ->
  lenient st (m_isld l) ->
  admitted st true (th l') v ->
  lenient st (m_sld l') ->
  lenient st (m_isld l') ->
  exists st',
    set_value (th l) v st = (Ok tt, st')
    /\ value_of st' (th l) = Some v
    /\ value_of st' (th l') = Some v
    /\ value_of st' (m_sld l)
       = Some (denote fn (val st (sl_re l)) v (val st (apm l)))
    /\ value_of st' (m_sld l')
       = Some (denote fn' (val st (sl_re l')) v (val st (apm l')))
    /\ (forall q,
          q ∉ [th l; m_sld l; m_isld l; th l'; m_sld l'; m_isld l'] ->
          parameters st' !! q = parameters st !! q)
    /\ constraints st' = constraints st.
Proof.
  intros Hlim F Hcx W' Hdisj A Ls Li A' Ls' Li'.
  destruct recursion_limit as [|[|[|d]]] eqn:Hd; [lia..|].
  assert (Hsub : forall q, q ∈ [th l; m_sld l; m_isld l] -> q ∉ ids l').
  { intros q Hq. apply Hdisj. unfold ids. revert Hq. rewrite !elem_of_cons.
    tauto. }
  pose proof (write_followed_thickness d false st key ikey fn l k cx
                key' ikey' fn' l' v F Hcx W' Hsub A Ls Li A' Ls' Li') as Hrun.
  eexists. split; [apply set_value_Ok; rewrite Hd; exact Hrun|].
  destruct F as (c & ic & Hsl & Hsli & Hth & Hapm & Hsld & Hisld & Hc & Hic
                 & Hnd).
  destruct W' as (c' & ic' & Hsl' & Hsli' & Hth' & Hapm' & Hsld' & Hisld'
                  & Hc' & Hic' & Hnd').
  set (stA := after_thickness fn l v st).
  assert (In' : forall q, q ∈ [th l'; m_sld l'; m_isld l'] -> q ∈ ids l').
  { intros q. unfold ids. rewrite !elem_of_cons. tauto. }
  assert (In : forall q, q ∈ [th l; m_sld l; m_isld l] -> q ∈ ids l).
  { intros q. unfold ids. rewrite !elem_of_cons. tauto. }
  assert (Out : forall q, q ∈ ids l' -> q ∉ [th l; m_sld l; m_isld l]).
  { intros q Hq Hq'. exact (Hdisj _ (In _ Hq') Hq). }
  assert (Out' : forall q, q ∈ ids l -> q ∉ [th l'; m_sld l'; m_isld l']).
  { intros q Hq Hq'. exact (Hdisj _ Hq (In' _ Hq')). }
  assert (VA : forall q, q ∈ ids l' -> value_of stA q = value_of st q).
  { intros q Hq. unfold value_of, stA.
    now rewrite parameters_after_thickness_ne by (now apply Out). }
  destruct (value_of_after_thickness fn l v st _ _ Hnd
              (value_of_val _ _ _ Hth) (value_of_val _ _ _ Hsld))
    as [V1 V2].
  destruct (value_of_after_thickness fn' l' v stA (val st (th l'))
              (val st (m_sld l')) Hnd')
    as [V1' V2'].
  { rewrite VA by (unfold ids; rewrite !elem_of_cons; tauto).
    exact (value_of_val _ _ _ Hth'). }
  { rewrite VA by (unfold ids; rewrite !elem_of_cons; tauto).
    exact (value_of_val _ _ _ Hsld'). }
  split; [|split; [|split; [|split; [|split]]]].
  - unfold value_of.
    rewrite parameters_after_thickness_ne
      by (apply Out'; unfold ids; rewrite !elem_of_cons; tauto).
    exact V1.
  - exact V1'.
  - unfold value_of.
    rewrite parameters_after_thickness_ne
      by (apply Out'; unfold ids; rewrite !elem_of_cons; tauto).
    exact V2.
  - rewrite V2'. unfold val.
    rewrite !VA by (unfold ids; rewrite !elem_of_cons; tauto).
    reflexivity.
  - intros q Hq.
    rewrite parameters_after_thickness_ne
      by (revert Hq; rewrite !not_elem_of_cons; tauto).
    unfold stA.
    rewrite parameters_after_thickness_ne
      by (revert Hq; rewrite !not_elem_of_cons; tauto).
    reflexivity.
  - unfold stA. now rewrite !constraints_after_thickness.
Qed.

(** X15: the constraint is registered by assignment under the name of
    [another_contrast], so a second surfactant that constrains its
    thickness to the same [another_contrast] takes the entry of the first:
    the call returns, copies no value and creates one enabled mirror
    constraint whose dependent is the thickness of the second surfactant;
    the thickness of [another_contrast] carries it under that name where
    the constraint of the first surfactant was. That older constraint
    stays in the store as it was, enabled and with the same independent,
    like every other older constraint; no parameter other than the
    thickness of [another_contrast] changes. *)
Theorem second_contrast_takes_the_registration (st : store) (b o : t)
    (ca pa : nat) :
  2 <= recursion_limit ->
  followed st "apm" "iapm" apm_to_sld_fn (layer1_of o) (name o) ca ->
  constraints st !! ca = Some (mirror pa (th (layer1_of o)) true) ->
  wired st "apm" "iapm" apm_to_sld_fn (layer1_of b) ->
  (forall q, q ∈ ids (layer1_of o) -> q ∉ ids (layer1_of b)) ->
  well_formed st ->
  name o <> "apm" -> name o <> "iapm" ->
  exists st' c ic,
    constain_multiple_contrast b o true false false false false false st
    = (Ok tt, st')
    /\ constraints_of st (th (layer1_of o))
       = Some [("apm", c); ("iapm", ic); (name o, ca)]
    /\ constraints_of st' (th (layer1_of o))
       = Some [("apm", c); ("iapm", ic); (name o, next st)]
    /\ followed st' "apm" "iapm" apm_to_sld_fn (layer1_of o) (name o)
         (next st)
    /\ constraints st' !! next st
       = Some (mirror (th (layer1_of b)) (th (layer1_of o)) true)
    /\ constraints st !! next st = None
    /\ constraints st' !! ca
       = Some (mirror pa (th (layer1_of o)) true)
    /\ (ca ∉ [c; ic; next st])
    /\ wired st' "apm" "iapm" apm_to_sld_fn (layer1_of b)
    /\ (forall q, value_of st' q = value_of st q)
    /\ (forall q, q <> th (layer1_of o) ->
                  parameters st' !! q = parameters st !! q)
    /\ (forall c', c' <> next st ->
                   constraints st' !! c' = constraints st !! c').
Proof.
  intros Hlim F Hca Wb Hdisj Hwf K1 K2.
  pose proof F as (c & ic & Hsl & Hsli & Hth & Hapm & Hsld & Hisld & Hc & Hic
                   & Hnd).
  assert (Hfresh : th (layer1_of o) ∉ ids (layer1_of b)).
  { apply Hdisj. unfold ids. rewrite !elem_of_cons. tauto. }
  destruct (constrain_thickness st b o _ Hlim Wb Hfresh Hwf Hth)
    as (st' & Hrun & Hk & Hcx & Hnone & P & V & C & Wb').
  rewrite dict_set_again in Hk by assumption.
  assert (Hne : ca <> next st).
  { intros E. rewrite E, Hnone in Hca. discriminate. }
  assert (Keep : forall c' x, constraints st !! c' = Some x ->
                              constraints st' !! c' = Some x).
  { intros c' x Hc'. rewrite C; [exact Hc'|].
    intros ->. rewrite Hnone in Hc'. discriminate. }
  assert (F' : followed st' "apm" "iapm" apm_to_sld_fn (layer1_of o) (name o)
                 (next st)).
  { exists c, ic. assert (Hnd' := Hnd). distinct Hnd'.
    assert (CO : forall q, q <> th (layer1_of o) ->
                           constraints_of st' q = constraints_of st q).
    { intros q Hq. unfold constraints_of. now rewrite P. }
    rewrite (CO (sl_re (layer1_of o))), (CO (sl_im (layer1_of o))),
      (CO (apm (layer1_of o))), (CO (m_sld (layer1_of o))),
      (CO (m_isld (layer1_of o))) by intuition congruence.
    rewrite Hk, (Keep _ _ Hc), (Keep _ _ Hic).
    repeat (split; [assumption || reflexivity|]). exact Hnd. }
  exists st', c, ic. split; [exact Hrun|]. split; [exact Hth|].
  split; [exact Hk|]. split; [exact F'|].
  split; [exact Hcx|]. split; [exact Hnone|].
  split; [exact (Keep _ _ Hca)|].
  split.
  { rewrite !not_elem_of_cons. repeat split.
    - intros ->. rewrite Hc in Hca. discriminate.
    - intros ->. rewrite Hic in Hca. discriminate.
    - exact Hne.
    - apply not_elem_of_nil. }
  auto.
Qed.

End MultipleContrast.

(** ** The examples *)

Ltac wired_by_computation c ic :=
  exists c, ic; repeat split; try (vm_compute; reflexivity);
  vm_compute; all_distinct.

Ltac admitted_by_computation := eexists; split; vm_compute; reflexivity.

Ltac lenient_by_computation :=
  eexists; split; [vm_compute; reflexivity|intros w; reflexivity].

Section MoreExamples.
Import Wiring Sharing Contrast Examples.
#[local] Existing Instance externals.

(** X6, witness: the thickness of the boron layer is set to 12. *)
Lemma isld_is_apm_to_sld_of_the_imaginary_part_witness :
  2 <= recursion_limit
  /\ exists st',
       set_value (LayerApm.thickness boron) 12 boron_store = (Ok tt, st')
       /\ wired st' "apm" "iapm" apm_to_sld_fn (of_LayerApm boron)
       /\ isld_follows st' apm_to_sld_fn (of_LayerApm boron).
Proof.
  assert (H : 2 <= recursion_limit) by (simpl; lia).
  split; [exact H|].
  apply (proj1 (proj2 (isld_is_apm_to_sld_of_the_imaginary_part H))).
  - exact boron_wired.
  - vm_compute. repeat constructor.
  - admitted_by_computation.
  - exact (proj1 boron_lenient).
  - exact (proj2 boron_lenient).
Defined.

(** X7, witness: a layer with coverage 4/5 in the store of the boron
    layer. *)
Lemma coverage_is_stored_and_unwired_witness :
  let solvent := LayerApm.solvent boron in
  let st := boron_store in
  exists L st',
    LayerAreaPerMolecule.from_pars "B" 10 solvent (1 # 5) 30 3 (4 # 5)
      "layer" st = (Ok L, st')
    /\ value_of st' (LayerAreaPerMolecule.coverage L) = Some (4 # 5)%Q
    /\ leaf st' (LayerAreaPerMolecule.coverage L)
    /\ (LayerAreaPerMolecule.coverage L ∉ ids (of_LayerAreaPerMolecule L))
    /\ wired st' "area_per_molecule" "iarea_per_molecule"
         area_per_molecule_to_sld_fn (of_LayerAreaPerMolecule L)
    /\ value_of st' (m_sld (of_LayerAreaPerMolecule L))
       = Some (area_per_molecule_to_sld
                 (fst (neutron_scattering_length "B")) 10 30)
    /\ value_of st' (m_isld (of_LayerAreaPerMolecule L))
       = Some (area_per_molecule_to_sld
                 (snd (neutron_scattering_length "B")) 10 30).
Proof.
  intros solvent st.
  apply (coverage_is_stored_and_unwired "B" 10 solvent (1 # 5) 30 3 (4 # 5)
           "layer" st).
  simpl. lia.
Defined.

(** X8, witness: a surfactant built by [from_pars] in the store of the
    boron layer. *)
Lemma surfactant_from_pars_assembles_witness :
  let solvent := LayerApm.solvent boron in
  let st := boron_store in
  exists s st',
    SurfactantLayer.from_pars "B" 10 solvent (1 # 5) 30 3
      "C32D64" 16 solvent 0 30 3 "DPPC" st = (Ok s, st')
    /\ assembled st' s
    /\ well_formed st'
    /\ next st' = 20 + next st
    /\ SurfactantLayer.constrain_apm (s, st') = (Ok false, (s, st'))
    /\ SurfactantLayer.conformal_roughness (s, st') = (Ok false, (s, st'))
    /\ leaf st' (LayerApm.roughness (SurfactantLayer.layer1 s))
    /\ leaf st' (LayerApm.roughness (SurfactantLayer.layer2 s))
    /\ LayerApm.roughness (SurfactantLayer.layer1 s)
       <> LayerApm.roughness (SurfactantLayer.layer2 s)
    /\ value_of st' (m_sld (layer1_of s))
       = Some (apm_to_sld (fst (neutron_scattering_length "B")) 10 30)
    /\ value_of st' (m_sld (layer2_of s))
       = Some (apm_to_sld (fst (neutron_scattering_length "C32D64")) 16 30)
    /\ (forall q, q < next st -> parameters st' !! q = parameters st !! q)
    /\ (forall c, c < next st -> constraints st' !! c = constraints st !! c).
Proof.
  intros solvent st.
  apply (surfactant_from_pars_assembles "B" 10 solvent (1 # 5) 30 3
           "C32D64" 16 solvent 0 30 3 "DPPC" st).
  - simpl. lia.
  - split; apply (bool_decide_unpack _); vm_compute; exact I.
Defined.

Lemma boron_released_wired :
  wired boron_released "apm" "iapm" apm_to_sld_fn (of_LayerApm boron).
Proof. wired_by_computation 10 11. Qed.

(** X9, witness: [boron.molecular_formula = "C32D64"] once the caller may
    write the scattering lengths. *)
Lemma molecular_formula_assignment_witness :
  let L := boron in
  let st := boron_released in
  let _material_b := MaterialSolvated.solvent in
  let formula_string := "C32D64" in
  exists L' st',
    LayerApm.set_molecular_formula _material_b formula_string (L, st)
    = (Ok tt, (L', st'))
    /\ LayerApm.molecular_formula L' = formula_string
    /\ MaterialSolvated.name (LayerApm.material L')
       = Some (formula_string ++ "/"
               ++ Material.name (_material_b (LayerApm.material L)))%string
    /\ of_LayerApm L' = of_LayerApm L
    /\ wired st' "apm" "iapm" apm_to_sld_fn (of_LayerApm L)
    /\ value_of st' (LayerApm._scattering_length_real L)
       = Some (fst (neutron_scattering_length formula_string))
    /\ value_of st' (LayerApm._scattering_length_imag L)
       = Some (snd (neutron_scattering_length formula_string))
    /\ value_of st' (m_sld (of_LayerApm L))
       = Some (apm_to_sld (fst (neutron_scattering_length formula_string))
                 (val st (LayerApm.thickness L))
                 (val st (LayerApm.area_per_molecule L)))
    /\ value_of st' (m_isld (of_LayerApm L))
       = Some (apm_to_sld (snd (neutron_scattering_length formula_string))
                 (val st (LayerApm.thickness L))
                 (val st (LayerApm.area_per_molecule L)))
    /\ (forall q,
          q ∉ [LayerApm._scattering_length_real L;
               LayerApm._scattering_length_imag L;
               m_sld (of_LayerApm L); m_isld (of_LayerApm L)] ->
          parameters st' !! q = parameters st !! q)
    /\ constraints st' = constraints st.
Proof.
  intros L st _material_b formula_string.
  apply (molecular_formula_assignment L st _material_b formula_string).
  - simpl. lia.
  - exact boron_released_wired.
  - admitted_by_computation.
  - admitted_by_computation.
  - lenient_by_computation.
  - lenient_by_computation.
Defined.

(** X10, witness: the same assignment on the boron layer as its
    constructor leaves it, with fixed scattering lengths, under the
    admission rule of the examples. *)
Lemma molecular_formula_assignment_refused_witness :
  let L := boron in
  let st := boron_store in
  let _material_b := MaterialSolvated.solvent in
  let formula_string := "C32D64" in
  let e := ImmutableParameterError in
  LayerApm.set_molecular_formula _material_b formula_string (L, st)
  = (Error e, (LayerApm.with_molecular_formula formula_string L, st))
  /\ LayerApm.molecular_formula
       (LayerApm.with_molecular_formula formula_string L) = formula_string.
Proof.
  intros L st _material_b formula_string e.
  apply (molecular_formula_assignment_refused L st _material_b
           formula_string e).
  vm_compute. reflexivity.
Defined.

Lemma boron_with_area_wired :
  wired boron_with_area "apm" "iapm" apm_to_sld_fn (of_LayerApm boron).
Proof. wired_by_computation 10 11. Qed.

(** X11, witness: a second layer over the thickness of the boron layer. *)
Lemma second_layer_takes_the_thickness_registrations_witness :
  let l1 := of_LayerApm boron in
  let st := boron_with_area in
  let formula := "C32D64" in
  let solvent := LayerApm.solvent boron in
  let solvation := 3 in
  let area_per_molecule := 12 in
  let roughness := 2 in
  let name := "second" in
  exists L st' c1 ic1 c2 ic2,
    LayerApm.init formula (th l1) solvent solvation area_per_molecule
      roughness name st = (Ok L, st')
    /\ LayerApm.thickness L = th l1
    /\ wired st' "apm" "iapm" apm_to_sld_fn (of_LayerApm L)
    /\ (forall q, q < next st -> value_of st' q = value_of st q)
    /\ constraints_of st (th l1) = Some [("apm", c1); ("iapm", ic1)]
    /\ constraints_of st' (th l1) = Some [("apm", c2); ("iapm", ic2)]
    /\ c1 < next st /\ ic1 < next st /\ next st <= c2 /\ next st <= ic2
    /\ constraints st' !! c1
       = Some (functional (m_sld l1) apm_to_sld_fn [sl_re l1; th l1; apm l1])
    /\ constraints st' !! ic1
       = Some (functional (m_isld l1) apm_to_sld_fn
                 [sl_im l1; th l1; apm l1])
    /\ (forall q, q < next st -> q <> th l1 -> q <> area_per_molecule ->
                  parameters st' !! q = parameters st !! q)
    /\ (forall c, c < next st -> constraints st' !! c = constraints st !! c)
    /\ ~ wired st' "apm" "iapm" apm_to_sld_fn l1.
Proof.
  intros l1 st formula solvent solvation area_per_molecule roughness name.
  apply (second_layer_takes_the_thickness_registrations l1 st formula solvent
           solvation area_per_molecule roughness name).
  - simpl. lia.
  - exact boron_with_area_wired.
  - vm_compute. reflexivity.
  - apply (bool_decide_unpack _). vm_compute. exact I.
  - split; apply (bool_decide_unpack _); vm_compute; exact I.
Defined.

Lemma two_contrasts_wired :
  wired two_contrasts "apm" "iapm" apm_to_sld_fn (layer1_of dppc)
  /\ wired two_contrasts "apm" "iapm" apm_to_sld_fn (layer1_of other).
Proof. split; [wired_by_computation 10 11|wired_by_computation 34 35]. Qed.

(** X13, witness: [dppc.constain_multiple_contrast(other, True, False,
    False, False, False, False)]. *)
Lemma multiple_contrast_links_thickness_witness :
  let st := two_contrasts in
  let s := dppc in
  let o := other in
  exists st',
    SurfactantLayer.constain_multiple_contrast s o
      true false false false false false st = (Ok tt, st')
    /\ followed st' "apm" "iapm" apm_to_sld_fn (layer1_of o)
         (SurfactantLayer.name o) (next st)
    /\ constraints st' !! next st
       = Some (mirror (th (layer1_of s)) (th (layer1_of o)) true)
    /\ constraints st !! next st = None
    /\ wired st' "apm" "iapm" apm_to_sld_fn (layer1_of s)
    /\ (forall q, value_of st' q = value_of st q)
    /\ (forall q, q <> th (layer1_of o) ->
                  parameters st' !! q = parameters st !! q)
    /\ (forall c, c <> next st -> constraints st' !! c = constraints st !! c).
Proof.
  intros st s o.
  apply (multiple_contrast_links_thickness st s o).
  - simpl. lia.
  - exact (proj1 two_contrasts_wired).
  - exact (proj2 two_contrasts_wired).
  - apply (bool_decide_unpack _). vm_compute. exact I.
  - split; apply (bool_decide_unpack _); vm_compute; exact I.
  - vm_compute. discriminate.
  - vm_compute. discriminate.
Defined.

Lemma thickness_linked_followed :
  followed thickness_linked "apm" "iapm" apm_to_sld_fn (layer1_of other)
    "DPPC" 48
  /\ wired thickness_linked "apm" "iapm" apm_to_sld_fn (layer1_of dppc).
Proof. split; [wired_by_computation 34 35|wired_by_computation 10 11]. Qed.

Lemma contrasts_apart (q : nat) :
  q ∈ ids (layer1_of other) -> q ∉ ids (layer1_of dppc).
Proof.
  revert q.
  apply (proj1 (Forall_forall (fun q => q ∉ ids (layer1_of dppc)) _)).
  apply (bool_decide_unpack _). vm_compute. exact I.
Qed.

(** X14, witness: the caller writes 12 into the thickness of layer 1 of
    [other], which [dppc] follows. *)
Lemma followed_thickness_write_witness :
  let st := thickness_linked in
  let l := layer1_of other in
  let l' := layer1_of dppc in
  let fn := apm_to_sld_fn in
  let v := 12%Q in
  exists st',
    set_value (th l) v st = (Ok tt, st')
    /\ value_of st' (th l) = Some v
    /\ value_of st' (th l') = Some v
    /\ value_of st' (m_sld l)
       = Some (denote fn (val st (sl_re l)) v (val st (apm l)))
    /\ value_of st' (m_sld l')
       = Some (denote fn (val st (sl_re l')) v (val st (apm l')))
    /\ (forall q,
          q ∉ [th l; m_sld l; m_isld l; th l'; m_sld l'; m_isld l'] ->
          parameters st' !! q = parameters st !! q)
    /\ constraints st' = constraints st.
Proof.
  intros st l l' fn v.
  apply (followed_thickness_write st "apm" "iapm" fn l "DPPC" 48
           "apm" "iapm" fn l' v).
  - simpl. lia.
  - exact (proj1 thickness_linked_followed).
  - vm_compute. reflexivity.
  - exact (proj2 thickness_linked_followed).
  - exact contrasts_apart.
  - admitted_by_computation.
  - lenient_by_computation.
  - lenient_by_computation.
  - admitted_by_computation.
  - lenient_by_computation.
  - lenient_by_computation.
Defined.

Lemma three_contrasts_followed :
  followed three_contrasts "apm" "iapm" apm_to_sld_fn (layer1_of other)
    (SurfactantLayer.name other) 48
  /\ wired three_contrasts "apm" "iapm" apm_to_sld_fn (layer1_of third).
Proof. split; [wired_by_computation 34 35|wired_by_computation 59 60]. Qed.

Lemma third_apart (q : nat) :
  q ∈ ids (layer1_of other) -> q ∉ ids (layer1_of third).
Proof.
  revert q.
  apply (proj1 (Forall_forall (fun q => q ∉ ids (layer1_of third)) _)).
  apply (bool_decide_unpack _). vm_compute. exact I.
Qed.

(** X15, witness: [third.constain_multiple_contrast(other, True, False,
    False, False, False, False)] after [dppc] has done the same. *)
Lemma second_contrast_takes_the_registration_witness :
  let st := three_contrasts in
  let b := third in
  let o := other in
  let ca := 48 in
  let pa := th (layer1_of dppc) in
  exists st' c ic,
    SurfactantLayer.constain_multiple_contrast b o
      true false false false false false st = (Ok tt, st')
    /\ constraints_of st (th (layer1_of o))
       = Some [("apm", c); ("iapm", ic); (SurfactantLayer.name o, ca)]
    /\ constraints_of st' (th (layer1_of o))
       = Some [("apm", c); ("iapm", ic); (SurfactantLayer.name o, next st)]
    /\ followed st' "apm" "iapm" apm_to_sld_fn (layer1_of o)
         (SurfactantLayer.name o) (next st)
    /\ constraints st' !! next st
       = Some (mirror (th (layer1_of b)) (th (layer1_of o)) true)
    /\ constraints st !! next st = None
    /\ constraints st' !! ca
       = Some (mirror pa (th (layer1_of o)) true)
    /\ (ca ∉ [c; ic; next st])
    /\ wired st' "apm" "iapm" apm_to_sld_fn (layer1_of b)
    /\ (forall q, value_of st' q = value_of st q)
    /\ (forall q, q <> th (layer1_of o) ->
                  parameters st' !! q = parameters st !! q)
    /\ (forall c', c' <> next st ->
                   constraints st' !! c' = constraints st !! c').
Proof.
  intros st b o ca pa.
  apply (second_contrast_takes_the_registration st b o ca pa).
  - simpl. lia.
  - exact (proj1 three_contrasts_followed).
  - vm_compute. reflexivity.
  - exact (proj2 three_contrasts_followed).
  - exact third_apart.
  - split; apply (bool_decide_unpack _); vm_compute; exact I.
  - vm_compute. discriminate.
  - vm_compute. discriminate.
Defined.

End MoreExamples.
